(** * django-tutelary: policy engine (tutelary/base.py, tutelary/models.py)

    Shallow embedding of the pattern sequences, clauses, policies,
    permission sets and the permission-set folding manager, with the
    properties of the written specification stated against them.

    Python values are modelled as follows.
    - [str] is [string]; a separator is a one-character string, held as
      an [ascii] (['.'] for actions, ['/'] for objects).
    - A sequence object ([SimpleSeparated] and its subclasses) is its
      [components] list; the class only fixes the separator and the
      parsing and printing functions.
    - A raised exception is the [Raise] branch of [result].
    - Python [set]s of database ids are [gset nat].
    - Comparison follows Python 3: [x != y] is the negation of
      [x.__eq__(y)]. *)

From Stdlib Require Import ZArith Ascii String.
From stdpp Require Import base decidable option list strings gmap sets.

Set Warnings "-register-all".
Local Open Scope string_scope.
Local Open Scope list_scope.
Local Open Scope stdpp_scope.

(** ** Exceptions and results *)

(** Values decoded from JSON text ([simplejson.loads]). *)
Inductive json : Type :=
| JNull
| JBool (b : bool)
| JNum (n : Z)
| JStr (s : string)
| JArr (items : list json)
| JObj (fields : list (string * json)).

(** The exception classes the engine raises or lets through. *)
Inductive exn : Type :=
| EffectException (effect : json)
| PatternOverlapException (side : string)
| PolicyBodyException (msg : option string) (position : option (Z * Z))
| VariableSubstitutionException
| KeyError
| IndexError.

Inductive result (A : Type) : Type :=
| Ok (a : A)
| Raise (e : exn).
Arguments Ok {A} a.
Arguments Raise {A} e.

Definition bind {A B} (r : result A) (f : A -> result B) : result B :=
  match r with
  | Ok a => f a
  | Raise e => Raise e
  end.

Notation "'try' x <- r ; k" := (bind r (fun x => k))
  (at level 10, x name, r at level 100, k at level 200).

(** A list comprehension whose body may raise: the first exception
    escapes, as in Python. *)
Fixpoint mapM {A B} (f : A -> result B) (l : list A) : result (list B) :=
  match l with
  | [] => Ok []
  | a :: l' => try b <- f a; try bs <- mapM f l'; Ok (b :: bs)
  end.

(** ** Pattern sequences: [SimpleSeparated] *)

(** [str.split(sep)] for a one-character separator: every separator
    occurrence cuts, and empty pieces are kept. *)
Fixpoint split (sep : ascii) (s : string) : list string :=
  match s with
  | EmptyString => [""]
  | String c s' =>
      if decide (c = sep) then "" :: split sep s'
      else match split sep s' with
           | t :: ts => String c t :: ts
           | [] => [String c ""]
           end
  end.

(** [sep.join(pieces)]. *)
Fixpoint join (sep : ascii) (pieces : list string) : string :=
  match pieces with
  | [] => ""
  | [p] => p
  | p :: rest => p +:+ String sep (join sep rest)
  end.

(** The wildcard component. *)
Definition wildcard : string := "*".

(** [SimpleSeparated.__eq__]: exact comparison of the components. *)
Definition seq_eq (self other : list string) : bool :=
  bool_decide (self = other).

(** [SimpleSeparated.match]. *)
Definition seq_match (self other : list string) : bool :=
  if decide (length self ≠ length other) then false
  else forallb
         (fun '(cself, cother) =>
            bool_decide (cself = cother)
            || bool_decide (cself = wildcard)
            || bool_decide (cother = wildcard))
         (combine self other).

Module Action.
Definition separator : ascii := "."%char.
(** [Action(s)] for a [str] initialiser. *)
Definition parse (s : string) : list string := split separator s.
(** [str(action)]. *)
Definition to_string (components : list string) : string :=
  join separator components.
End Action.

(** ** Escaped sequences: [EscapeSeparated] *)

Definition backslash : ascii := "\"%char.
Definition newline : ascii := "010"%char.

(** [s.replace(old, new)] for a non-empty [old]: occurrences are found
    left to right and do not overlap.  [skip] counts the characters of
    the occurrence just replaced that are still to be passed over. *)
Fixpoint replace_from (old new : string) (skip : nat) (s : string) : string :=
  match s with
  | EmptyString => ""
  | String c s' =>
      match skip with
      | S k => replace_from old new k s'
      | O =>
          if String.prefix old s
          then new +:+ replace_from old new (String.length old - 1) s'
          else String c (replace_from old new 0 s')
      end
  end.

Definition replace (old new s : string) : string := replace_from old new 0 s.

Definition str1 (c : ascii) : string := String c "".

(** [unescape(s, sep)]. *)
Definition unescape (s : string) (sep : ascii) : string :=
  replace (String backslash (str1 backslash)) (str1 backslash)
    (replace (String backslash (str1 sep)) (str1 sep) s).

(** [escape(s, sep)]. *)
Definition escape (s : string) (sep : ascii) : string :=
  replace (str1 sep) (String backslash (str1 sep))
    (replace (str1 backslash) (String backslash (str1 backslash)) s).

(** The pattern built by [make_regex(sep)] is
    [(?:sep)?((?:[^sep\\]|\\.)+)].  [group sep s] is the longest prefix
    of [s] matched by the starred body of its capturing group: a
    character other than the separator and the backslash, or a backslash
    followed by any character but a newline.  Nothing follows the group
    in the pattern, so the greedy match is the one kept. *)
Fixpoint group (sep : ascii) (s : string) : string :=
  match s with
  | EmptyString => ""
  | String c s' =>
      if decide (c = backslash) then
        match s' with
        | String d s'' =>
            if decide (d = newline) then ""
            else String c (String d (group sep s''))
        | EmptyString => ""
        end
      else if decide (c = sep) then ""
      else String c (group sep s')
  end.

(** One match attempt at the start of [s]: the captured group and the
    length of the whole match.  The optional separator is taken first;
    when the group then fails the attempt is repeated without it. *)
Definition match_at (sep : ascii) (s : string) : option (string * nat) :=
  let try_group (taken : nat) (t : string) :=
    match group sep t with
    | EmptyString => None
    | g => Some (g, taken + String.length g)
    end in
  match s with
  | EmptyString => None
  | String c s' =>
      if decide (c = sep) then
        match try_group 1 s' with
        | Some m => Some m
        | None => try_group 0 s
        end
      else try_group 0 s
  end.

(** [regex.split(s)[1::2]]: with one capturing group, the odd positions
    of the split are the captures of the successive non-overlapping
    matches, searched left to right.  [skip] counts the characters of
    the last match still to be passed over. *)
Fixpoint captures (sep : ascii) (skip : nat) (s : string) : list string :=
  match s with
  | EmptyString => []
  | String c s' =>
      match skip with
      | S k => captures sep k s'
      | O =>
          match match_at sep s with
          | Some (g, n) => g :: captures sep (n - 1) s'
          | None => captures sep 0 s'
          end
      end
  end.

(** [EscapeSeparated._split_components]. *)
Definition split_components (sep : ascii) (s : string) : list string :=
  map (fun c => unescape c sep) (captures sep 0 s).

(** [EscapeSeparated.__str__]. *)
Definition escaped_str (sep : ascii) (components : list string) : string :=
  join sep (map (fun c => escape c sep) components).

Module Object.
Definition separator : ascii := "/"%char.
(** [Object(s)] for a [str] initialiser. *)
Definition parse (s : string) : list string :=
  split_components separator s.
(** [str(object)]. *)
Definition to_string (components : list string) : string :=
  escaped_str separator components.
End Object.

(** An action or an object, as the list of its components. *)
Abbreviation Action := (list string).
Abbreviation Object := (list string).

(** ** Clauses *)

Record Clause : Type := mkClause {
  effect : string;
  action : list Action;
  object : list Object
}.

(** [any(x1.match(x2) for x1 in xs for x2 in xs if x1 != x2)]. *)
Definition overlapping (xs : list (list string)) : bool :=
  existsb (fun x1 =>
    existsb (fun x2 => negb (seq_eq x1 x2) && seq_match x1 x2) xs) xs.

(** [effect not in ['allow', 'deny']] leaves exactly these two. *)
Definition valid_effect (e : json) : option string :=
  match e with
  | JStr s => if decide (s = "allow") then Some s
              else if decide (s = "deny") then Some s else None
  | _ => None
  end.

(** [Clause.__init__] once [effect], [action] and [object] are bound
    (either passed explicitly or pulled out of [dict]). *)
Definition Clause_init (effect : json) (action : list Action)
    (object : list Object) : result Clause :=
  match valid_effect effect with
  | None => Raise (EffectException effect)
  | Some e =>
      if overlapping action then Raise (PatternOverlapException "action")
      else if overlapping object then Raise (PatternOverlapException "object")
      else Ok (mkClause e action object)
  end.

(** A clause entry of a decoded policy body: the [effect], [action] and
    [object] keys of the dictionary, with the pattern lists holding
    strings as the policy body format prescribes. *)
Record ClauseDict : Type := mkClauseDict {
  dict_effect : json;
  dict_action : list string;
  dict_object : list string
}.

(** [Clause(dict=c)]. *)
Definition Clause_of_dict (c : ClauseDict) : result Clause :=
  Clause_init (dict_effect c)
    (map Action.parse (dict_action c))
    (map Object.parse (dict_object c)).

(** ** Policies *)

(** The decoded policy body [d]: the [version] and [clause] keys, each
    possibly absent. *)
Record Body : Type := mkBody {
  body_version : option json;
  body_clause : option (list ClauseDict)
}.

(** What [loads(Template(json).substitute(variables))] comes to: the
    decoded body, or one of the exceptions [Policy.__init__] handles. *)
Inductive Loaded : Type :=
| Decoded (d : Body)
| JSONDecodeError (lineno colno : Z)
| SubstituteKeyError
| SubstituteValueError.

Record Policy : Type := mkPolicy {
  version : string;
  clauses : list Clause;
  nitems : nat;
  nclauses : nat
}.

(** Python truth value of a decoded JSON value. *)
Definition truthy (v : json) : bool :=
  match v with
  | JNull => false
  | JBool b => b
  | JNum n => negb (n =? 0)%Z
  | JStr s => negb (bool_decide (s = ""))
  | JArr items => negb (bool_decide (length items = 0))
  | JObj fields => negb (bool_decide (length fields = 0))
  end.

Definition recognised_version : string := "2015-12-10".

(** ['version' in d and d['version'] or '2015-12-10']. *)
Definition version_of (d : Body) : json :=
  match body_version d with
  | Some v => if truthy v then v else JStr recognised_version
  | None => JStr recognised_version
  end.

(** [self.version not in ['2015-12-10']]. *)
Definition version_recognised (v : json) : bool :=
  match v with
  | JStr s => bool_decide (s = recognised_version)
  | _ => false
  end.

(** [Policy.__init__]. *)
Definition Policy_init (l : Loaded) : result Policy :=
  match l with
  | JSONDecodeError lineno colno =>
      Raise (PolicyBodyException None (Some (lineno, colno)))
  | SubstituteKeyError => Raise VariableSubstitutionException
  | SubstituteValueError => Raise VariableSubstitutionException
  | Decoded d =>
      let version := version_of d in
      match body_clause d with
      | None => Raise (PolicyBodyException (Some "no policy clauses") None)
      | Some cs =>
          try clauses <- mapM Clause_of_dict cs;
          let nitems :=
            sum_list (map (fun c => length (action c) * length (object c))
                          clauses) in
          let nclauses := length clauses in
          if version_recognised version
          then Ok (mkPolicy recognised_version clauses nitems nclauses)
          else Raise (PolicyBodyException (Some "version not recognised") None)
      end
  end.

(** [Policy.__len__]. *)
Definition Policy_len (p : Policy) : nat := nitems p.

(** [list[idx]] for an integer index: negative indices count from the
    end, anything outside raises [IndexError]. *)
Definition list_getitem {A} (l : list A) (idx : Z) : result A :=
  let n := Z.of_nat (length l) in
  let i := if (idx <? 0)%Z then (idx + n)%Z else idx in
  if (i <? 0)%Z then Raise IndexError
  else match l !! Z.to_nat i with
       | Some x => Ok x
       | None => Raise IndexError
       end.

(** [Policy.__getitem__]. *)
Definition Policy_getitem (p : Policy) (idx : Z) : result Clause :=
  list_getitem (clauses p) idx.

(** [Policy.__iter__]: the triples in the order they are yielded. *)
Definition Clause_triples (c : Clause) : list (string * Action * Object) :=
  flat_map (fun a => map (fun o => (effect c, a, o)) (object c)) (action c).

Definition Policy_iter (p : Policy) : list (string * Action * Object) :=
  flat_map Clause_triples (clauses p).

(** ** The wildcard tree *)

Module WildTree.

(** Modelled from the spec: the module [tutelary/wildtree.py] (class
    [WildTree], used by [PermissionSet] through [tree[key] = effect]
    and [tree[key]]) is not part of the sources at hand.  The tree is
    a trie whose edges are labelled by pattern components, the
    wildcard ["*"] being a label of its own; a node reached by a
    complete key carries the effect last set at that exact path,
    together with the position of that insertion in the insertion
    order. *)
Inductive Node : Type :=
| mkNode (terminal : option (nat * string))
         (children : list (string * Node)).

Definition terminal (n : Node) : option (nat * string) :=
  match n with mkNode t _ => t end.
Definition children (n : Node) : list (string * Node) :=
  match n with mkNode _ cs => cs end.

Definition leaf : Node := mkNode None [].

Fixpoint child (label : string) (cs : list (string * Node)) : option Node :=
  match cs with
  | [] => None
  | (l, n) :: cs' => if decide (label = l) then Some n else child label cs'
  end.

Fixpoint set_child (label : string) (n : Node) (cs : list (string * Node))
    : list (string * Node) :=
  match cs with
  | [] => [(label, n)]
  | (l, n') :: cs' =>
      if decide (label = l) then (l, n) :: cs'
      else (l, n') :: set_child label n cs'
  end.

(** Modelled from the spec: [insert] walks or creates the nodes
    labelled by each component in order and sets the effect at the
    terminal node, overwriting what was set at that exact path. *)
Fixpoint insert (key : list string) (v : nat * string) (n : Node) : Node :=
  match key with
  | [] => mkNode (Some v) (children n)
  | c :: key' =>
      mkNode (terminal n)
        (set_child c (insert key' v (default leaf (child c (children n))))
                   (children n))
  end.

(** A terminal reached by a lookup: the number of wildcard edges on
    its path, the position of its insertion, its effect. *)
Record Found : Type := mkFound {
  wildcards : nat;
  stamp : nat;
  found_effect : string
}.

(** Modelled from the spec: at each depth the traversal follows the
    literal child and the wildcard child, when present, and collects
    every terminal reached by a complete path. *)
Fixpoint reachable (key : list string) (n : Node) (nwild : nat)
    : list Found :=
  match key with
  | [] =>
      match terminal n with
      | Some (t, e) => [mkFound nwild t e]
      | None => []
      end
  | c :: key' =>
      match child c (children n) with
      | Some n' => reachable key' n' nwild
      | None => []
      end ++
      match child wildcard (children n) with
      | Some n' => reachable key' n' (S nwild)
      | None => []
      end
  end.

(** Modelled from the spec: fewer wildcard components wins; between
    equally specific matches the one inserted later wins. *)
Definition beats (a b : Found) : bool :=
  (wildcards a <? wildcards b)%nat
  || ((wildcards a =? wildcards b)%nat && (stamp b <=? stamp a)%nat).

Fixpoint resolve (fs : list Found) : option Found :=
  match fs with
  | [] => None
  | f :: fs' =>
      match resolve fs' with
      | None => Some f
      | Some g => if beats f g then Some f else Some g
      end
  end.

(** The terminal stored at an exact path, label by label (wildcard
    labels included): what the tree holds for a pattern key. *)
Fixpoint stored (path : list string) (n : Node) : option (nat * string) :=
  match path with
  | [] => terminal n
  | c :: path' =>
      match child c (children n) with
      | Some n' => stored path' n'
      | None => None
      end
  end.

(** The tree with its insertion counter. *)
Record t : Type := mkTree {
  root : Node;
  clock : nat
}.

(** [WildTree()]. *)
Definition empty : t := mkTree leaf 0.

(** [tree[key] = effect]. *)
Definition setitem (tr : t) (key : list string) (effect : string) : t :=
  mkTree (insert key (clock tr, effect) (root tr)) (S (clock tr)).

(** [tree[key]]: the resolved effect, or [KeyError] (the spec's
    [NoMatchError]) when no terminal is reachable. *)
Definition getitem (tr : t) (key : list string) : result string :=
  match resolve (reachable key (root tr) 0) with
  | Some f => Ok (found_effect f)
  | None => Raise KeyError
  end.

End WildTree.

(** ** Permission sets *)

Record PermissionSet : Type := mkPermissionSet {
  tree : WildTree.t
}.

(** [PermissionSet.add(effect, action, object)]. *)
Definition add (self : PermissionSet) (effect : string) (action : Action)
    (object : Object) : PermissionSet :=
  mkPermissionSet (WildTree.setitem (tree self) (action ++ object) effect).

(** [PermissionSet.add(policy=p)]. *)
Definition add_policy (self : PermissionSet) (policy : Policy)
    : PermissionSet :=
  fold_left (fun ps '(e, a, o) => add ps e a o) (Policy_iter policy) self.

(** [PermissionSet.add(policies=ps)]. *)
Definition add_policies (self : PermissionSet) (policies : list Policy)
    : PermissionSet :=
  fold_left add_policy policies self.

(** [PermissionSet(policies)]. *)
Definition PermissionSet_init (policies : option (list Policy))
    : PermissionSet :=
  let self := mkPermissionSet WildTree.empty in
  match policies with
  | Some ps => add_policies self ps
  | None => self
  end.

(** [PermissionSet.allow]. *)
Definition allow (self : PermissionSet) (action : Action) (object : Object)
    : result bool :=
  match WildTree.getitem (tree self) (action ++ object) with
  | Ok e => Ok (bool_decide (e = "allow"))
  | Raise KeyError => Ok false
  | Raise e => Raise e
  end.

(** [PermissionSet.permitted_actions]: the body is [pass], so the call
    returns [None] whatever the arguments. *)
Definition permitted_actions (self : PermissionSet) (object : Object)
    : option (list Action) :=
  None.

(** ** The stored models and the folding manager (tutelary/models.py) *)

Module Models.

(** Extra exception of the object-relational layer: [get] on a
    missing row. *)
Inductive outcome (A : Type) : Type :=
| Done (a : A)
| DoesNotExist
| EngineError (e : exn).
Arguments Done {A} a.
Arguments DoesNotExist {A}.
Arguments EngineError {A} e.

(** A row of the [Policy] table.  Model instances compare by primary
    key. *)
Record PolicyRow : Type := mkPolicyRow {
  policy_id : nat;
  name : string;
  body : string
}.

(** A row of the [PolicyInstance] table; the two foreign keys hold
    the primary keys they point to. *)
Record PolicyInstance : Type := mkPolicyInstance {
  pi_policy : nat;
  pi_pset : nat;
  pi_index : Z;
  pi_variables : string
}.

(** A row of the [PermissionSet] table. *)
Record PermissionSetRow : Type := mkPermissionSetRow {
  pset_id : nat;
  data : string
}.

(** The database: the two tables the manager reads and writes, and
    the sequence the primary keys of new permission sets come from. *)
Record DB : Type := mkDB {
  permission_sets : list PermissionSetRow;
  policy_instances : list PolicyInstance;
  next_id : nat
}.

Definition empty_db : DB := mkDB [] [] 1.

(** [class Meta: ordering = ['index']]: query sets of policy
    instances come back ordered by [index]. *)
Fixpoint insert_by_index (pi : PolicyInstance) (l : list PolicyInstance)
    : list PolicyInstance :=
  match l with
  | [] => [pi]
  | x :: l' =>
      if (pi_index pi <=? pi_index x)%Z then pi :: l
      else x :: insert_by_index pi l'
  end.

Definition order_by_index (l : list PolicyInstance) : list PolicyInstance :=
  fold_right insert_by_index [] l.

(** [PolicyInstance.objects.filter(policy=p)]. *)
Definition filter_policy (db : DB) (p : nat) : list PolicyInstance :=
  order_by_index
    (List.filter (fun pi => bool_decide (pi_policy pi = p))
                 (policy_instances db)).

(** [PolicyInstance.objects.filter(pset=pset)]. *)
Definition filter_pset (db : DB) (pset : nat) : list PolicyInstance :=
  order_by_index
    (List.filter (fun pi => bool_decide (pi_pset pi = pset))
                 (policy_instances db)).

(** [policy_psets]. *)
Definition policy_psets (db : DB) (policies : list (nat * string))
    : list nat :=
  match policies with
  | [] =>
      let pipsets : gset nat :=
        list_to_set (map pi_pset (order_by_index (policy_instances db))) in
      let allpsets : gset nat :=
        list_to_set (map pset_id (permission_sets db)) in
      elements (allpsets ∖ pipsets)
  | _ =>
      let psetids :=
        fold_left
          (fun (psetids : option (gset nat)) (p : nat * string) =>
             let ppsetids : gset nat :=
               list_to_set (map pi_pset (filter_policy db p.1)) in
             match psetids with
             | None => Some ppsetids
             | Some ids => Some (ids ∩ ppsetids)
             end)
          policies None in
      match psetids with
      | None => []
      | Some ids => elements ids
      end
  end.

(** The inner loop of [by_policies] over one candidate: do the policy
    instance rows correspond exactly to the canonical list? *)
Definition same_rows (pis : list PolicyInstance)
    (canonpols : list (nat * string)) : bool :=
  bool_decide (length pis = length canonpols)
  && forallb
       (fun '(pi, canonpol) =>
          negb (negb (bool_decide (pi_policy pi = canonpol.1))
                || negb (bool_decide (pi_variables pi = canonpol.2))))
       (combine pis canonpols).

(** [self.get(id=psetid)]. *)
Definition get (db : DB) (psetid : nat) : outcome nat :=
  if existsb (fun r => bool_decide (pset_id r = psetid)) (permission_sets db)
  then Done psetid else DoesNotExist.

(** The search loop of [by_policies]: the first candidate whose rows
    correspond, if any. *)
Fixpoint search (db : DB) (canonpols : list (nat * string))
    (candidates : list nat) : outcome (option nat) :=
  match candidates with
  | [] => Done None
  | psetid :: rest =>
      match get db psetid with
      | Done pset =>
          if same_rows (filter_pset db pset) canonpols then Done (Some pset)
          else search db canonpols rest
      | DoesNotExist => DoesNotExist
      | EngineError e => EngineError e
      end
  end.

(** [zip(canonpols, itertools.count())] turned into the new rows. *)
Fixpoint new_instances (pset : nat) (i : Z) (canonpols : list (nat * string))
    : list PolicyInstance :=
  match canonpols with
  | [] => []
  | p :: rest =>
      mkPolicyInstance p.1 pset i p.2 :: new_instances pset (i + 1) rest
  end.

Section Manager.

(** The type of variable assignments, and [json.dumps] on them. *)
Context {V : Type} (json_dumps : V -> string).

(** An element of the list handed to [by_policies]: a policy, or a
    (policy, variables) tuple. *)
Inductive PolicyArg : Type :=
| Bare (p : PolicyRow)
| WithVars (p : PolicyRow) (variables : V).

(** [repr(engine.PermissionTree(policies=[make_pol(p) ...]))]: the
    module [tutelary.engine] is not part of the sources at hand, so
    the serialised tree, or the exception its construction raises,
    is a parameter. *)
Context (build_tree : list PolicyArg -> result string).

Definition canonpol (p : PolicyArg) : nat * string :=
  match p with
  | WithVars pol variables => (policy_id pol, json_dumps variables)
  | Bare pol => (policy_id pol, "{}")
  end.

(** [PermissionSetManager.by_policies]: the permission set returned
    (its primary key) and the database afterwards. *)
Definition by_policies (db : DB) (policies : list PolicyArg)
    : outcome (nat * DB) :=
  let canonpols := map canonpol policies in
  match search db canonpols (policy_psets db canonpols) with
  | Done (Some pset) => Done (pset, db)
  | Done None =>
      match build_tree policies with
      | Raise e => EngineError e
      | Ok ptree =>
          let obj := next_id db in
          Done (obj,
                mkDB (permission_sets db ++ [mkPermissionSetRow obj ptree])
                     (policy_instances db ++ new_instances obj 0 canonpols)
                     (S (next_id db)))
      end
  | DoesNotExist => DoesNotExist
  | EngineError e => EngineError e
  end.

End Manager.

Arguments PolicyArg : clear implicits.
Arguments Bare {V} p.
Arguments WithVars {V} p variables.

(** Referential integrity with keys issued from the sequence: every
    permission set row, and every permission set a policy instance
    points to, has a key already issued. *)
Definition well_formed (db : DB) : bool :=
  forallb (fun r => pset_id r <? next_id db)%nat (permission_sets db)
  && forallb (fun pi => pi_pset pi <? next_id db)%nat (policy_instances db).

(** The permission sets a given policy is used by. *)
Definition users_of (db : DB) (p : nat * string) : gset nat :=
  list_to_set (map pi_pset (filter_policy db p.1)).

(** The (policy, serialised variables) pairs of a list of rows. *)
Definition row_key (pi : PolicyInstance) : nat * string :=
  (pi_policy pi, pi_variables pi).

End Models.

(** ** Notions the properties are stated with *)

(** A key is concrete when none of its components is the wildcard. *)
Definition is_concrete (key : list string) : bool :=
  forallb (fun c => negb (bool_decide (c = wildcard))) key.

(** A stored path is consistent with a query key: same length and, at
    each position, the stored component is the wildcard or equals the
    component of the key. *)
Fixpoint covers (pattern key : list string) : bool :=
  match pattern, key with
  | [], [] => true
  | p :: pattern', k :: key' =>
      (bool_decide (p = k) || bool_decide (p = wildcard))
      && covers pattern' key'
  | _, _ => false
  end.

(** Number of wildcard components of a path. *)
Fixpoint wild_count (path : list string) : nat :=
  match path with
  | [] => 0
  | c :: path' =>
      (if bool_decide (c = wildcard) then 1 else 0) + wild_count path'
  end.

(** The escaped form of a component, character by character: a
    backslash before every backslash and every separator. *)
Fixpoint escaped (sep : ascii) (s : string) : string :=
  match s with
  | EmptyString => ""
  | String c s' =>
      if decide (c = backslash)
      then String backslash (String backslash (escaped sep s'))
      else if decide (c = sep)
      then String backslash (String sep (escaped sep s'))
      else String c (escaped sep s')
  end.

(** A component with every backslash doubled. *)
Fixpoint doubled (s : string) : string :=
  match s with
  | EmptyString => ""
  | String c s' =>
      if decide (c = backslash)
      then String backslash (String backslash (doubled s'))
      else String c (doubled s')
  end.

(** What may follow a component in a rendering: the end of the string
    or a separator. *)
Definition boundary (sep : ascii) (rest : string) : Prop :=
  rest = "" \/ exists r, rest = String sep r.

(** A valid pattern has no empty component: these are the patterns the
    parser produces. *)
Definition valid_pattern (components : list string) : Prop :=
  Forall (fun c => c <> "") components.

(** Insertion of (effect, action, object) triples in order. *)
Definition add_all (self : PermissionSet)
    (triples : list (string * Action * Object)) : PermissionSet :=
  fold_left (fun ps '(e, a, o) => add ps e a o) triples self.

(** Two distinct patterns of a list match each other. *)
Definition overlap (xs : list (list string)) : Prop :=
  exists x1 x2, x1 ∈ xs /\ x2 ∈ xs /\ x1 <> x2 /\ seq_match x1 x2 = true.

(** ** Further functions of tutelary/base.py *)

(** The dictionary [one_clause(c)] inside [Policy.__str__]. *)
Definition one_clause (c : Clause) : ClauseDict :=
  mkClauseDict (JStr (effect c))
               (map Action.to_string (action c))
               (map Object.to_string (object c)).

(** The dictionary [Policy.__str__] hands to [dumps]:
    [{'version': self.version, 'clause': cs}]. *)
Definition Policy_dict (p : Policy) : Body :=
  mkBody (Some (JStr (version p))) (Some (map one_clause (clauses p))).

(** ** Further notions *)

(** Does the character occur in the string? *)
Fixpoint has_char (c : ascii) (s : string) : bool :=
  match s with
  | EmptyString => false
  | String x s' => bool_decide (x = c) || has_char c s'
  end.

(** Number of occurrences of a character. *)
Fixpoint count_char (c : ascii) (s : string) : nat :=
  match s with
  | EmptyString => 0
  | String x s' => (if decide (x = c) then 1 else 0) + count_char c s'
  end.

(** The pieces that are not empty. *)
Definition nonempty_pieces (pieces : list string) : list string :=
  List.filter (fun p => negb (bool_decide (p = ""))) pieces.

(** Component-wise agreement of two patterns up to wildcards. *)
Definition agree (x y : string) : Prop :=
  x = y \/ x = wildcard \/ y = wildcard.

(** ** Assignment of permission sets to users (tutelary/models.py) *)

Module Users.
Import Models.

(** The database with the two things the assignment functions also
    touch: the rows of the many-to-many table behind
    [PermissionSet.users], as (permission set, user) pairs of primary
    keys, and the [anonymous_user] column, as the set of the keys of
    the permission sets where it is [True]. *)
Record Store : Type := mkStore {
  db : DB;
  pset_users : list (nat * nat);
  anonymous : gset nat
}.

(** Exceptions that can leave the assignment functions. *)
Inductive answer (A : Type) : Type :=
| Fine (a : A)
| MultipleObjectsReturned
| ManagerDoesNotExist
| ManagerEngineError (e : exn).
Arguments Fine {A} a.
Arguments MultipleObjectsReturned {A}.
Arguments ManagerDoesNotExist {A}.
Arguments ManagerEngineError {A} e.

(** The query set [PermissionSet.objects.filter(anonymous_user=True)],
    as primary keys. *)
Definition anonymous_psets (st : Store) : list nat :=
  map pset_id
      (List.filter (fun r => bool_decide (pset_id r ∈ anonymous st))
                   (permission_sets (db st))).

(** The query set [user.permissionset], as primary keys. *)
Definition user_psets (st : Store) (user : nat) : list nat :=
  map pset_id
      (List.filter (fun r => bool_decide ((pset_id r, user) ∈ pset_users st))
                   (permission_sets (db st))).

(** [queryset.first()] on a query set without ordering: the object
    with the least primary key, or [None]. *)
Definition first (keys : list nat) : option nat :=
  match keys with
  | [] => None
  | k :: keys' => Some (fold_left Nat.min keys' k)
  end.

(** [pset.users.remove(user)]. *)
Definition remove_user (st : Store) (pset user : nat) : Store :=
  mkStore (db st)
          (List.filter (fun row => negb (bool_decide (row = (pset, user))))
                       (pset_users st))
          (anonymous st).

(** [pset.users.add(user)]: a pair already present is not added
    again. *)
Definition add_user (st : Store) (pset user : nat) : Store :=
  mkStore (db st)
          (if bool_decide ((pset, user) ∈ pset_users st) then pset_users st
           else pset_users st ++ [(pset, user)])
          (anonymous st).

(** [pset.users.count()]. *)
Definition count_users (st : Store) (pset : nat) : nat :=
  length (List.filter (fun row => bool_decide (row.1 = pset)) (pset_users st)).

(** [pset.anonymous_user = flag; pset.save()]. *)
Definition set_anonymous (st : Store) (pset : nat) (flag : bool) : Store :=
  mkStore (db st) (pset_users st)
          (if flag then {[pset]} ∪ anonymous st else anonymous st ∖ {[pset]}).

(** [pset.delete()]: the row goes, and with it the policy instances
    pointing to it ([on_delete=CASCADE]) and its rows of the
    many-to-many table. *)
Definition delete_pset (st : Store) (pset : nat) : Store :=
  mkStore
    (mkDB (List.filter (fun r => negb (bool_decide (pset_id r = pset)))
                       (permission_sets (db st)))
          (List.filter (fun pi => negb (bool_decide (pi_pset pi = pset)))
                       (policy_instances (db st)))
          (next_id (db st)))
    (List.filter (fun row => negb (bool_decide (row.1 = pset)))
                 (pset_users st))
    (anonymous st ∖ {[pset]}).

(** The tail of [clear_user_policies], once [pset] is bound to a
    permission set: detach the user, if any, and delete the permission
    set when no user is left. *)
Definition detach (st : Store) (user : option nat) (pset : nat) : Store :=
  let st1 := match user with
             | Some u => remove_user st pset u
             | None => st
             end in
  if (count_users st1 pset =? 0)%nat then delete_pset st1 pset else st1.

(** [clear_user_policies(user)], [None] standing for the anonymous
    user. *)
Definition clear_user_policies (user : option nat) (st : Store)
    : answer Store :=
  match user with
  | None =>
      match anonymous_psets st with
      | [] => Fine st
      | [pset] => Fine (detach (set_anonymous st pset false) None pset)
      | _ => MultipleObjectsReturned
      end
  | Some u =>
      match first (user_psets st u) with
      | Some pset => Fine (detach st (Some u) pset)
      | None => Fine st
      end
  end.

(** [user_delete], the [pre_delete] receiver. *)
Definition user_delete (instance : nat) (st : Store) : answer Store :=
  clear_user_policies (Some instance) st.

Section Assign.

Context {V : Type} (json_dumps : V -> string).
Context (build_tree : list (PolicyArg V) -> result string).

(** [assign_user_policies(user, *policies)]. *)
Definition assign_user_policies (user : option nat)
    (policies : list (PolicyArg V)) (st : Store) : answer Store :=
  match clear_user_policies user st with
  | Fine st1 =>
      match by_policies json_dumps build_tree (db st1) policies with
      | Done (pset, db2) =>
          let st2 := mkStore db2 (pset_users st1) (anonymous st1) in
          match user with
          | None => Fine (set_anonymous st2 pset true)
          | Some u => Fine (add_user st2 pset u)
          end
      | DoesNotExist => ManagerDoesNotExist
      | EngineError e => ManagerEngineError e
      end
  | MultipleObjectsReturned => MultipleObjectsReturned
  | ManagerDoesNotExist => ManagerDoesNotExist
  | ManagerEngineError e => ManagerEngineError e
  end.

End Assign.

End Users.

(** ** The objects the manager returns (tutelary/models.py) *)

Module Instances.
Import Models.

(** A [PermissionSet] model instance as a Python object.  [serial]
    stands for the identity of the object: every construction of an
    instance ([self.get(...)], [self.create(...)]) makes a new object,
    numbered in the order of construction, and [a is b] holds exactly
    when the two serials are equal.  [pk] and [instance_data] are the
    fields [id] and [data]; [has_ptree] tells whether the attribute
    [ptree] has been set on the object. *)
Record Instance : Type := mkInstance {
  serial : nat;
  pk : nat;
  instance_data : string;
  has_ptree : bool
}.

(** [self.get(id=psetid)], given the number of instances constructed
    so far: a new object for the stored row. *)
Definition get_instance (db : DB) (constructed : nat) (psetid : nat)
    : outcome Instance :=
  match List.find (fun r => bool_decide (pset_id r = psetid))
                  (permission_sets db) with
  | Some r => Done (mkInstance constructed (pset_id r) (data r) false)
  | None => DoesNotExist
  end.

(** The search loop of [by_policies] with the objects it constructs:
    the instance returned, if any, and the number of instances
    constructed afterwards. *)
Fixpoint search_instances (db : DB) (canonpols : list (nat * string))
    (candidates : list nat) (constructed : nat)
    : outcome (option Instance * nat) :=
  match candidates with
  | [] => Done (None, constructed)
  | psetid :: rest =>
      match get_instance db constructed psetid with
      | Done pset =>
          if same_rows (filter_pset db (pk pset)) canonpols
          then Done (Some pset, S constructed)
          else search_instances db canonpols rest (S constructed)
      | DoesNotExist => DoesNotExist
      | EngineError e => EngineError e
      end
  end.

Section Manager.

Context {V : Type} (json_dumps : V -> string).
Context (build_tree : list (PolicyArg V) -> result string).

(** [PermissionSetManager.by_policies] with the object it returns:
    the [pset] fetched by the search, or the [obj] created. *)
Definition by_policies_instance (db : DB) (constructed : nat)
    (policies : list (PolicyArg V)) : outcome (Instance * DB * nat) :=
  let canonpols := map (canonpol json_dumps) policies in
  match search_instances db canonpols (policy_psets db canonpols)
                         constructed with
  | Done (Some pset, constructed') => Done (pset, db, constructed')
  | Done (None, constructed') =>
      match build_tree policies with
      | Raise e => EngineError e
      | Ok ptree =>
          let obj := mkInstance constructed' (next_id db) ptree true in
          Done (obj,
                mkDB (permission_sets db ++ [mkPermissionSetRow (pk obj) ptree])
                     (policy_instances db
                      ++ new_instances (pk obj) 0 canonpols)
                     (S (next_id db)),
                S constructed')
      end
  | DoesNotExist => DoesNotExist
  | EngineError e => EngineError e
  end.

End Manager.

(** What is left of the outcomes when the objects are forgotten. *)
Definition found_key (r : outcome (option Instance * nat))
    : outcome (option nat) :=
  match r with
  | Done (found, _) => Done (option_map pk found)
  | DoesNotExist => DoesNotExist
  | EngineError e => EngineError e
  end.

Definition returned_key (r : outcome (Instance * DB * nat))
    : outcome (nat * DB) :=
  match r with
  | Done (obj, db, _) => Done (pk obj, db)
  | DoesNotExist => DoesNotExist
  | EngineError e => EngineError e
  end.

End Instances.

(** A permission set with this primary key is stored. *)
Definition stored_pset (db : Models.DB) (c : nat) : Prop :=
  exists r, r ∈ Models.permission_sets db /\ Models.pset_id r = c.

(** The (policy, variables) list of a stored permission set: its
    policy instances in index order. *)
Definition instance_list (db : Models.DB) (c : nat) : list (nat * string) :=
  map Models.row_key (Models.filter_pset db c).

(** Every policy instance points to a stored permission set. *)
Definition referential (db : Models.DB) : Prop :=
  forall pi, pi ∈ Models.policy_instances db -> stored_pset db (Models.pi_pset pi).

(** No two stored permission sets have the same instance list. *)
Definition folded (db : Models.DB) : Prop :=
  forall c1 c2, stored_pset db c1 -> stored_pset db c2 ->
                instance_list db c1 = instance_list db c2 -> c1 = c2.

(** Every row of the many-to-many table points to a stored permission
    set. *)
Definition users_referential (st : Users.Store) : Prop :=
  forall x u, (x, u) ∈ Users.pset_users st -> stored_pset (Users.db st) x.

(** The user is attached to at most one permission set. *)
Definition single (st : Users.Store) (u : nat) : Prop :=
  forall x y, (x, u) ∈ Users.pset_users st -> (y, u) ∈ Users.pset_users st ->
              x = y.

(** The stored data are consistent: keys come from the sequence,
    policy instances and user rows point to stored permission sets, no
    two stored permission sets have the same instance list, and no user
    is attached to two permission sets. *)
Definition consistent (st : Users.Store) : Prop :=
  Models.well_formed (Users.db st) = true
  /\ referential (Users.db st)
  /\ folded (Users.db st)
  /\ users_referential st
  /\ forall u, single st u.

(** ** Evaluation on the examples of the documentation *)

Example parse_action :
  Action.parse "party.edit" = ["party"; "edit"]
  /\ Action.parse "a..b" = ["a"; ""; "b"]
  /\ Action.parse "" = [""].
Proof. vm_compute. auto. Qed.

Example parse_object :
  Object.parse "Org/Village-X\/Y/parcel/943"
  = ["Org"; "Village-X/Y"; "parcel"; "943"].
Proof. vm_compute. reflexivity. Qed.

Example render_object :
  Object.to_string ["Org"; "Village-X/Y"; "par\cel"; "943"]
  = "Org/Village-X\/Y/par\\cel/943".
Proof. vm_compute. reflexivity. Qed.

(** Doubled separators and a trailing backslash are passed over. *)
Example parse_object_skips :
  Object.parse "a//b\" = ["a"; "b"]
  /\ Object.parse "/a/\\\/" = ["a"; "\/"].
Proof. vm_compute. auto. Qed.

(** An empty component is lost by rendering and parsing: such a list of
    components is not a pattern the parser produces. *)
Example empty_component_is_lost :
  Object.to_string ["a"; ""; "b"] = "a//b"
  /\ Object.parse (Object.to_string ["a"; ""; "b"]) = ["a"; "b"].
Proof. vm_compute. auto. Qed.

(** ** The wildcard tree: stored paths and resolution *)

Module WildTreeFacts.
Import WildTree.

Lemma child_set_child c c' n cs :
  child c (set_child c' n cs) = if decide (c = c') then Some n else child c cs.
Proof.
  induction cs as [|[l m] cs IH]; simpl.
  - destruct (decide (c = c')); reflexivity.
  - destruct (decide (c' = l)) as [->|Hne]; simpl.
    + destruct (decide (c = l)); reflexivity.
    + destruct (decide (c = l)) as [->|Hne'].
      * destruct (decide (l = c')); congruence.
      * exact IH.
Qed.

Lemma stored_leaf p : stored p leaf = None.
Proof. destruct p; reflexivity. Qed.

Lemma stored_insert k : forall p v n,
  stored p (insert k v n) = if decide (p = k) then Some v else stored p n.
Proof.
  induction k as [|c k IH]; intros p v n.
  - destruct p; simpl; [reflexivity|].
    destruct (decide (s :: p = [])); [discriminate|reflexivity].
  - destruct p as [|c' p]; simpl.
    + destruct (decide ([] = c :: k)); [discriminate|reflexivity].
    + rewrite child_set_child.
      destruct (decide (c' = c)) as [->|Hne].
      * rewrite IH.
        destruct (decide (p = k)) as [->|Hpk].
        -- rewrite decide_True by reflexivity. reflexivity.
        -- rewrite decide_False by congruence.
           destruct (child c (children n)); simpl; [reflexivity|].
           apply stored_leaf.
      * rewrite decide_False by congruence. reflexivity.
Qed.

Lemma covers_nil_r p : covers p [] = true -> p = [].
Proof. destruct p; [reflexivity|discriminate]. Qed.

Lemma covers_cons p c q :
  covers p (c :: q) = true <->
  exists x p', p = x :: p' /\ (x = c \/ x = wildcard) /\ covers p' q = true.
Proof.
  split.
  - destruct p as [|x p']; simpl; [discriminate|].
    intros H. apply andb_prop in H as [H1 H2].
    exists x, p'. split; [reflexivity|]. split; [|exact H2].
    apply orb_prop in H1 as [H1|H1]; apply bool_decide_eq_true in H1; auto.
  - intros (x & p' & -> & Hx & Hc). simpl. rewrite Hc, andb_true_r.
    destruct Hx as [->| ->].
    + rewrite bool_decide_eq_true_2 by reflexivity. reflexivity.
    + rewrite (bool_decide_eq_true_2 (wildcard = wildcard)) by reflexivity.
      apply orb_true_r.
Qed.

(** The terminals a lookup reaches are the stored paths consistent
    with the key, each with its number of wildcard components. *)
Lemma reachable_spec q : forall n w f,
  is_concrete q = true ->
  (f ∈ reachable q n w <->
   exists p, covers p q = true
             /\ stored p n = Some (stamp f, found_effect f)
             /\ wildcards f = w + wild_count p).
Proof.
  induction q as [|c q IH]; intros n w f Hq.
  - simpl. split.
    + destruct (terminal n) as [[t e]|] eqn:Ht; [|intros H; inversion H].
      intros H. apply list_elem_of_singleton in H. subst f.
      exists []. simpl. rewrite Ht. repeat split. lia.
    + intros (p & Hc & Hs & Hw). apply covers_nil_r in Hc. subst p.
      simpl in *. rewrite Hs. apply list_elem_of_singleton.
      destruct f; simpl in *. f_equal. lia.
  - simpl in Hq. apply andb_prop in Hq as [Hc Hq].
    apply negb_true_iff, bool_decide_eq_false in Hc.
    cbn [reachable]. rewrite elem_of_app. split.
    + intros [H|H].
      * destruct (child c (children n)) as [n'|] eqn:Hch; [|inversion H].
        apply IH in H as (p & Hcov & Hs & Hw); [|exact Hq].
        exists (c :: p). split; [apply covers_cons; exists c, p; auto|].
        cbn [stored wild_count]. rewrite Hch. split; [exact Hs|].
        rewrite bool_decide_eq_false_2 by exact Hc. simpl. exact Hw.
      * destruct (child wildcard (children n)) as [n'|] eqn:Hch; [|inversion H].
        apply IH in H as (p & Hcov & Hs & Hw); [|exact Hq].
        exists (wildcard :: p). split; [apply covers_cons; exists wildcard, p; auto|].
        cbn [stored wild_count]. rewrite Hch. split; [exact Hs|].
        rewrite bool_decide_eq_true_2 by reflexivity. lia.
    + intros (p & Hcov & Hs & Hw).
      apply covers_cons in Hcov as (x & p' & -> & Hx & Hcov).
      cbn [stored wild_count] in Hs, Hw.
      destruct (child x (children n)) as [n'|] eqn:Hch; [|discriminate].
      destruct Hx as [->| ->].
      * left. rewrite Hch. apply IH; [exact Hq|].
        exists p'. rewrite bool_decide_eq_false_2 in Hw by exact Hc. auto.
      * right. rewrite Hch. apply IH; [exact Hq|].
        exists p'. rewrite bool_decide_eq_true_2 in Hw by reflexivity.
        repeat split; auto. lia.
Qed.

Lemma beats_refl f : beats f f = true.
Proof.
  unfold beats. rewrite Nat.eqb_refl, Nat.leb_refl. apply orb_true_r.
Qed.

Lemma beats_spec a b :
  beats a b = true <->
  wildcards a < wildcards b
  \/ (wildcards a = wildcards b /\ stamp b <= stamp a).
Proof.
  unfold beats.
  rewrite orb_true_iff, andb_true_iff, Nat.ltb_lt, Nat.eqb_eq, Nat.leb_le.
  reflexivity.
Qed.

Lemma beats_trans a b c :
  beats a b = true -> beats b c = true -> beats a c = true.
Proof. rewrite !beats_spec. lia. Qed.

Lemma beats_total a b : beats a b = false -> beats b a = true.
Proof.
  intros H. apply beats_spec.
  destruct (beats a b) eqn:E; [discriminate|].
  assert (~ (wildcards a < wildcards b
             \/ (wildcards a = wildcards b /\ stamp b <= stamp a))) as N.
  { rewrite <- beats_spec. congruence. }
  lia.
Qed.

Lemma resolve_none fs : resolve fs = None <-> fs = [].
Proof.
  destruct fs as [|f fs]; simpl; [tauto|].
  split; [|discriminate].
  destruct (resolve fs); [destruct (beats f f0)|]; discriminate.
Qed.

(** The resolved terminal is one of the reached ones and beats all
    of them. *)
Lemma resolve_best fs : forall f,
  resolve fs = Some f -> f ∈ fs /\ forall g, g ∈ fs -> beats f g = true.
Proof.
  induction fs as [|h fs IH]; intros f; simpl; [discriminate|].
  destruct (resolve fs) as [g0|] eqn:Hr.
  - destruct (IH g0 eq_refl) as [Hin Hbest].
    destruct (beats h g0) eqn:Hb; intros [= <-].
    + split; [left|]. intros g Hg. apply elem_of_cons in Hg as [->|Hg].
      * apply beats_refl.
      * eapply beats_trans; [exact Hb|auto].
    + split; [right; exact Hin|]. intros g Hg.
      apply elem_of_cons in Hg as [->|Hg]; [apply beats_total, Hb|auto].
  - apply resolve_none in Hr. subst fs. intros [= <-].
    split; [left|]. intros g Hg. apply list_elem_of_singleton in Hg. subst g.
    apply beats_refl.
Qed.

(** *** Trees built by successive insertions *)

Lemma add_all_snoc ps ins e a o :
  add_all ps (ins ++ [(e, a, o)]) = add (add_all ps ins) e a o.
Proof. unfold add_all. rewrite fold_left_app. reflexivity. Qed.

Lemma clock_add_all ins :
  clock (tree (add_all (PermissionSet_init None) ins)) = length ins.
Proof.
  induction ins as [|[[e a] o] ins IH] using rev_ind; [reflexivity|].
  rewrite add_all_snoc, length_app.
  cbn [add tree setitem clock length]. rewrite IH. lia.
Qed.

(** What is stored at a path was inserted there, at the recorded
    position. *)
Lemma stored_sound ins : forall p i e,
  stored p (root (tree (add_all (PermissionSet_init None) ins))) = Some (i, e) ->
  exists a o, ins !! i = Some (e, a, o) /\ a ++ o = p.
Proof.
  induction ins as [|[[e0 a0] o0] ins IH] using rev_ind; intros p i e.
  - cbn. rewrite stored_leaf. discriminate.
  - rewrite add_all_snoc. cbn [add tree setitem root].
    rewrite stored_insert, clock_add_all.
    destruct (decide (p = a0 ++ o0)) as [->|Hne].
    + intros [= <- <-]. exists a0, o0. split; [|reflexivity].
      rewrite lookup_app_r by lia. rewrite Nat.sub_diag. reflexivity.
    + intros H. apply IH in H as (a & o & Hi & Hp).
      exists a, o. split; [|exact Hp].
      rewrite lookup_app_l; [exact Hi|]. eapply lookup_lt_Some, Hi.
Qed.

(** Every inserted path is stored, with the position of its latest
    insertion. *)
Lemma stored_complete ins : forall j e' a' o',
  ins !! j = Some (e', a', o') ->
  exists i e, j <= i
    /\ stored (a' ++ o') (root (tree (add_all (PermissionSet_init None) ins))) = Some (i, e).
Proof.
  induction ins as [|[[e0 a0] o0] ins IH] using rev_ind;
    intros j e' a' o' Hj.
  - rewrite lookup_nil in Hj. discriminate.
  - rewrite add_all_snoc. cbn [add tree setitem root].
    rewrite stored_insert, clock_add_all.
    pose proof (lookup_lt_Some _ _ _ Hj) as Hlt.
    rewrite length_app in Hlt. simpl in Hlt.
    destruct (decide (a' ++ o' = a0 ++ o0)) as [Heq|Hne].
    + exists (length ins), e0. split; [lia|reflexivity].
    + destruct (decide (j = length ins)) as [->|Hjn].
      * rewrite lookup_app_r, Nat.sub_diag in Hj by lia.
        simpl in Hj. congruence.
      * rewrite lookup_app_l in Hj by lia.
        apply IH in Hj as (i & e & Hle & Hs). eauto.
Qed.

End WildTreeFacts.

(** ** Permission sets: [allow] *)

Lemma getitem_raises tr key e :
  WildTree.getitem tr key = Raise e -> e = KeyError.
Proof.
  unfold WildTree.getitem. destruct (WildTree.resolve _); congruence.
Qed.

Lemma allow_getitem self a o :
  exists b, allow self a o = Ok b
            /\ (b = true <-> WildTree.getitem (tree self) (a ++ o) = Ok "allow").
Proof.
  unfold allow.
  destruct (WildTree.getitem (tree self) (a ++ o)) as [e|x] eqn:Hg.
  - exists (bool_decide (e = "allow")). split; [reflexivity|].
    rewrite bool_decide_eq_true. split; congruence.
  - apply getitem_raises in Hg as ->. exists false.
    split; [reflexivity|]. split; discriminate.
Qed.

Lemma getitem_no_match self key :
  is_concrete key = true ->
  (forall p, covers p key = true ->
             WildTree.stored p (WildTree.root (tree self)) = None) ->
  WildTree.getitem (tree self) key = Raise KeyError.
Proof.
  intros Hc Hnone. unfold WildTree.getitem.
  destruct (WildTree.resolve _) as [f|] eqn:Hr; [|reflexivity].
  apply WildTreeFacts.resolve_best in Hr as [Hin _].
  apply WildTreeFacts.reachable_spec in Hin as (p & Hcov & Hs & _); [|exact Hc].
  rewrite (Hnone p Hcov) in Hs. discriminate.
Qed.

(** C1.  In a permission set built by inserting (effect, action,
    object) triples in order, the lookup of a concrete key that some
    inserted pattern path is consistent with returns the effect of an
    inserted triple whose path is consistent with the key and which
    wins against every other such triple: it has fewer wildcard
    components, or as many and was inserted no earlier.  [allow] answers
    accordingly.  In particular, after ("party.*","Org/*") -> allow and
    then ("party.delete","Org/*") -> deny, allow("party.delete","Org/1")
    is false and allow("party.edit","Org/1") is true. *)
Theorem lookup_most_specific_then_latest :
  (forall (triples : list (string * Action * Object)) (a : Action) (o : Object),
     is_concrete (a ++ o) = true ->
     (exists j e' a' o',
        triples !! j = Some (e', a', o') /\ covers (a' ++ o') (a ++ o) = true) ->
     exists i e ai oi,
       triples !! i = Some (e, ai, oi)
       /\ covers (ai ++ oi) (a ++ o) = true
       /\ WildTree.getitem (tree (add_all (PermissionSet_init None) triples))
            (a ++ o) = Ok e
       /\ allow (add_all (PermissionSet_init None) triples) a o
          = Ok (bool_decide (e = "allow"))
       /\ forall j e' a' o',
            triples !! j = Some (e', a', o') ->
            covers (a' ++ o') (a ++ o) = true ->
            wild_count (ai ++ oi) < wild_count (a' ++ o')
            \/ (wild_count (ai ++ oi) = wild_count (a' ++ o') /\ j <= i))
  /\ (let ps :=
        add (add (PermissionSet_init None)
                 "allow" (Action.parse "party.*") (Object.parse "Org/*"))
            "deny" (Action.parse "party.delete") (Object.parse "Org/*") in
      allow ps (Action.parse "party.delete") (Object.parse "Org/1") = Ok false
      /\ allow ps (Action.parse "party.edit") (Object.parse "Org/1") = Ok true).
Proof.
  split; [|vm_compute; split; reflexivity].
  intros triples a o Hconc (j0 & e0 & a0 & o0 & Hj0 & Hcov0).
  set (ps := add_all (PermissionSet_init None) triples).
  destruct (WildTreeFacts.stored_complete triples _ _ _ _ Hj0)
    as (i0 & e0' & _ & Hst0).
  destruct (WildTree.resolve
              (WildTree.reachable (a ++ o) (WildTree.root (tree ps)) 0))
    as [f|] eqn:Hr.
  - destruct (WildTreeFacts.resolve_best _ _ Hr) as [Hin Hbest].
    apply WildTreeFacts.reachable_spec in Hin as (p & Hcov & Hs & Hw);
      [|exact Hconc].
    destruct (WildTreeFacts.stored_sound triples _ _ _ Hs)
      as (ai & oi & Hi & Hp).
    exists (WildTree.stamp f), (WildTree.found_effect f), ai, oi.
    assert (Hget : WildTree.getitem (tree ps) (a ++ o)
                   = Ok (WildTree.found_effect f)).
    { unfold WildTree.getitem. rewrite Hr. reflexivity. }
    split; [exact Hi|]. split; [rewrite Hp; exact Hcov|].
    split; [exact Hget|]. split.
    + unfold allow. fold ps. rewrite Hget. reflexivity.
    + intros j e' a' o' Hj Hcov'.
      destruct (WildTreeFacts.stored_complete triples _ _ _ _ Hj)
        as (i' & e'' & Hle & Hst').
      assert (Hg : WildTree.mkFound (wild_count (a' ++ o')) i' e''
                   ∈ WildTree.reachable (a ++ o) (WildTree.root (tree ps)) 0).
      { apply WildTreeFacts.reachable_spec; [exact Hconc|].
        exists (a' ++ o'). auto. }
      apply Hbest, WildTreeFacts.beats_spec in Hg. simpl in Hg, Hw.
      rewrite Hp. lia.
  - exfalso. apply WildTreeFacts.resolve_none in Hr.
    assert (Hg : WildTree.mkFound (wild_count (a0 ++ o0)) i0 e0'
                 ∈ WildTree.reachable (a ++ o) (WildTree.root (tree ps)) 0).
    { apply WildTreeFacts.reachable_spec; [exact Hconc|].
      exists (a0 ++ o0). auto. }
    rewrite Hr in Hg. inversion Hg.
Qed.

Lemma lookup_most_specific_then_latest_witness :
  let triples := [("allow", ["party"; "*"], ["Org"; "*"]);
                  ("deny", ["party"; "delete"], ["Org"; "*"])] in
  let a := ["party"; "delete"] in
  let o := ["Org"; "1"] in
  is_concrete (a ++ o) = true
  /\ (exists j e' a' o',
        triples !! j = Some (e', a', o') /\ covers (a' ++ o') (a ++ o) = true)
  /\ exists i e ai oi,
       triples !! i = Some (e, ai, oi)
       /\ covers (ai ++ oi) (a ++ o) = true
       /\ WildTree.getitem (tree (add_all (PermissionSet_init None) triples))
            (a ++ o) = Ok e
       /\ allow (add_all (PermissionSet_init None) triples) a o
          = Ok (bool_decide (e = "allow"))
       /\ forall j e' a' o',
            triples !! j = Some (e', a', o') ->
            covers (a' ++ o') (a ++ o) = true ->
            wild_count (ai ++ oi) < wild_count (a' ++ o')
            \/ (wild_count (ai ++ oi) = wild_count (a' ++ o') /\ j <= i).
Proof.
  intros triples a o.
  assert (H1 : is_concrete (a ++ o) = true) by reflexivity.
  assert (H2 : exists j e' a' o',
             triples !! j = Some (e', a', o')
             /\ covers (a' ++ o') (a ++ o) = true).
  { exists 0, "allow", ["party"; "*"], ["Org"; "*"]. split; reflexivity. }
  split; [exact H1|]. split; [exact H2|].
  exact (proj1 lookup_most_specific_then_latest triples a o H1 H2).
Defined.

(** C3, as stated, fails: on the empty permission set the query with
    action "party.*" and object "Org/*" is answered [False]; nothing is
    raised. *)
Lemma allow_wildcard_query_not_rejected :
  ~ (forall (self : PermissionSet) (a : Action) (o : Object),
       is_concrete a = false \/ is_concrete o = false ->
       exists e, allow self a o = Raise e).
Proof.
  intros H.
  destruct (H (PermissionSet_init None) ["party"; "*"] ["Org"; "*"])
    as [e He]; [left; reflexivity|].
  vm_compute in He. discriminate.
Qed.

(** C2.  For a concrete query [allow] never raises: it returns a
    boolean, which is true exactly when the lookup succeeds with effect
    allow; it is false when the lookup resolves to deny and when no
    stored pattern is consistent with the query.  A permission set
    built from an empty policy list answers false. *)
Theorem allow_never_raises :
  forall (self : PermissionSet) (a : Action) (o : Object),
    is_concrete (a ++ o) = true ->
    (exists b, allow self a o = Ok b
               /\ (b = true
                   <-> WildTree.getitem (tree self) (a ++ o) = Ok "allow"))
    /\ (WildTree.getitem (tree self) (a ++ o) = Ok "deny" ->
        allow self a o = Ok false)
    /\ ((forall p, covers p (a ++ o) = true ->
                   WildTree.stored p (WildTree.root (tree self)) = None) ->
        allow self a o = Ok false)
    /\ allow (PermissionSet_init (Some [])) a o = Ok false.
Proof.
  intros self a o Hc. split; [apply allow_getitem|]. split; [|split].
  - intros Hd. unfold allow. rewrite Hd. reflexivity.
  - intros Hnone. unfold allow.
    rewrite (getitem_no_match self (a ++ o) Hc Hnone). reflexivity.
  - unfold allow. rewrite getitem_no_match; [reflexivity|exact Hc|].
    intros p _. apply WildTreeFacts.stored_leaf.
Qed.

Lemma allow_never_raises_witness :
  let self := add (PermissionSet_init None) "deny" ["party"; "*"] ["Org"; "*"] in
  let a := ["party"; "edit"] in
  let o := ["Org"; "1"] in
  is_concrete (a ++ o) = true
  /\ (exists b, allow self a o = Ok b
                /\ (b = true
                    <-> WildTree.getitem (tree self) (a ++ o) = Ok "allow"))
  /\ allow (PermissionSet_init (Some [])) a o = Ok false.
Proof.
  intros self a o.
  assert (Hc : is_concrete (a ++ o) = true) by reflexivity.
  destruct (allow_never_raises self a o Hc) as (H1 & _ & _ & H4).
  split; [exact Hc|]. split; [exact H1|exact H4].
Defined.

(** C3 (as amended).  [allow] checks nothing about its arguments: for
    an action or an object with wildcard components it still returns a
    boolean, true exactly when the lookup of the concatenated
    components yields allow. *)
Theorem allow_wildcard_query_answers :
  forall (self : PermissionSet) (a : Action) (o : Object),
    is_concrete a = false \/ is_concrete o = false ->
    exists b, allow self a o = Ok b
              /\ (b = true
                  <-> WildTree.getitem (tree self) (a ++ o) = Ok "allow").
Proof. intros self a o _. apply allow_getitem. Qed.

Lemma allow_wildcard_query_answers_witness :
  let self := add (PermissionSet_init None) "allow" ["party"; "*"] ["Org"; "*"] in
  (is_concrete ["party"; "*"] = false \/ is_concrete ["Org"; "1"] = false)
  /\ exists b, allow self ["party"; "*"] ["Org"; "1"] = Ok b
               /\ (b = true
                   <-> WildTree.getitem (tree self) (["party"; "*"] ++ ["Org"; "1"])
                       = Ok "allow").
Proof.
  intros self.
  assert (H : is_concrete ["party"; "*"] = false
              \/ is_concrete ["Org"; "1"] = false) by (left; reflexivity).
  split; [exact H|].
  exact (allow_wildcard_query_answers self ["party"; "*"] ["Org"; "1"] H).
Defined.

(** C4.  [permitted_actions] computes nothing: whatever the permission
    set and the object pattern, the call returns [None] and no set of
    actions; so it does at a permission set that allows party.* on
    Org/*. *)
Theorem permitted_actions_unimplemented :
  (forall (self : PermissionSet) (object : Object),
     permitted_actions self object = None)
  /\ permitted_actions
       (add (PermissionSet_init None)
            "allow" (Action.parse "party.*") (Object.parse "Org/*"))
       (Object.parse "Org/*") = None.
Proof. split; reflexivity. Qed.

(** ** Clauses *)

Lemma seq_eq_false x1 x2 : negb (seq_eq x1 x2) = true <-> x1 <> x2.
Proof.
  unfold seq_eq. rewrite negb_true_iff, bool_decide_eq_false. reflexivity.
Qed.

Lemma overlapping_overlap xs : overlapping xs = true <-> overlap xs.
Proof.
  unfold overlapping, overlap. rewrite existsb_exists. split.
  - intros (x1 & H1 & H). apply existsb_exists in H as (x2 & H2 & H).
    apply andb_prop in H as [Hne Hm]. apply seq_eq_false in Hne.
    exists x1, x2. rewrite <- !list_elem_of_In in *. auto.
  - intros (x1 & x2 & H1 & H2 & Hne & Hm).
    exists x1. split; [apply list_elem_of_In, H1|].
    apply existsb_exists. exists x2. split; [apply list_elem_of_In, H2|].
    apply andb_true_intro. split; [apply seq_eq_false, Hne|exact Hm].
Qed.

Lemma overlapping_no_overlap xs : overlapping xs = false <-> ~ overlap xs.
Proof.
  rewrite <- overlapping_overlap. destruct (overlapping xs); split; congruence.
Qed.

(** C6, as stated, fails: with effect "maybe" the overlapping actions
    party.edit and party.* are never examined, the clause fails with
    [EffectException]. *)
Lemma clause_rejects_bad_effect_first :
  ~ (forall (e : json) (acts : list Action) (objs : list Object),
       (exists side, Clause_init e acts objs
                     = Raise (PatternOverlapException side))
       <-> (overlap acts \/ overlap objs)).
Proof.
  intros H.
  destruct (H (JStr "maybe")
              [Action.parse "party.edit"; Action.parse "party.*"]
              [Object.parse "Org/*"]) as [_ H2].
  destruct H2 as [side Hs]; [|vm_compute in Hs; discriminate].
  left. apply overlapping_overlap. reflexivity.
Qed.

(** C6 (as amended).  For a clause whose effect is allow or deny,
    construction fails with [PatternOverlapException] exactly when two
    distinct patterns of one side match each other: the exception names
    the action side exactly when two distinct action patterns match,
    the object side exactly when no two action patterns do and two
    distinct object patterns match, and the clause is constructed
    exactly when neither side overlaps.  A clause with actions
    party.edit and party.* is rejected naming the action side; one with
    actions party.edit and parcel.edit is constructed. *)
Theorem clause_overlap_validation :
  forall (e : json) (acts : list Action) (objs : list Object),
    e = JStr "allow" \/ e = JStr "deny" ->
    (Clause_init e acts objs = Raise (PatternOverlapException "action")
     <-> overlap acts)
    /\ (Clause_init e acts objs = Raise (PatternOverlapException "object")
        <-> ~ overlap acts /\ overlap objs)
    /\ ((exists side, Clause_init e acts objs
                      = Raise (PatternOverlapException side))
        <-> overlap acts \/ overlap objs)
    /\ ((exists c, Clause_init e acts objs = Ok c)
        <-> ~ overlap acts /\ ~ overlap objs)
    /\ Clause_of_dict (mkClauseDict e ["party.edit"; "party.*"] ["Org/*"])
       = Raise (PatternOverlapException "action")
    /\ exists c,
         Clause_of_dict (mkClauseDict e ["party.edit"; "parcel.edit"] ["Org/*"])
         = Ok c.
Proof.
  intros e acts objs He.
  assert (Hv : exists s, valid_effect e = Some s).
  { destruct He as [->| ->]; eexists; reflexivity. }
  destruct Hv as [s Hv]. unfold Clause_of_dict, Clause_init. rewrite Hv.
  rewrite <- !overlapping_no_overlap, <- !overlapping_overlap.
  split; [|split; [|split; [|split; [|split]]]].
  - destruct (overlapping acts); [split; reflexivity|].
    destruct (overlapping objs); split; discriminate.
  - destruct (overlapping acts).
    + split; [discriminate|intros [? _]; discriminate].
    + destruct (overlapping objs); split; auto; try discriminate.
      intros [_ ?]; discriminate.
  - destruct (overlapping acts).
    + split; eauto.
    + destruct (overlapping objs).
      * split; eauto.
      * split; [intros [? ?]; discriminate|intros [?|?]; discriminate].
  - destruct (overlapping acts).
    + split; [intros [? ?]; discriminate|intros [? _]; discriminate].
    + destruct (overlapping objs).
      * split; [intros [? ?]; discriminate|intros [_ ?]; discriminate].
      * split; eauto.
  - cbn [dict_effect dict_action dict_object]. rewrite Hv. reflexivity.
  - cbn [dict_effect dict_action dict_object]. rewrite Hv.
    eexists. reflexivity.
Qed.

Lemma clause_overlap_validation_witness :
  let acts := [Action.parse "party.edit"; Action.parse "party.*"] in
  let objs := [Object.parse "Org/*"] in
  (JStr "allow" = JStr "allow" \/ JStr "allow" = JStr "deny")
  /\ overlap acts
  /\ Clause_init (JStr "allow") acts objs
     = Raise (PatternOverlapException "action").
Proof.
  intros acts objs.
  assert (He : JStr "allow" = JStr "allow" \/ JStr "allow" = JStr "deny")
    by (left; reflexivity).
  assert (Ho : overlap acts) by (apply overlapping_overlap; reflexivity).
  split; [exact He|]. split; [exact Ho|].
  exact (proj2 (proj1 (clause_overlap_validation _ acts objs He)) Ho).
Defined.

(** ** Policies *)

Lemma mapM_length {A B} (f : A -> result B) l bs :
  mapM f l = Ok bs -> length bs = length l.
Proof.
  revert bs. induction l as [|a l IH]; intros bs; simpl.
  - intros [= <-]. reflexivity.
  - destruct (f a) as [b|]; simpl; [|discriminate].
    destruct (mapM f l) as [bs'|]; simpl; [|discriminate].
    intros [= <-]. simpl. f_equal. apply IH. reflexivity.
Qed.

(** What a successful construction started from and produced. *)
Lemma Policy_init_Ok l p :
  Policy_init l = Ok p ->
  exists d cs,
    l = Decoded d
    /\ body_clause d = Some cs
    /\ mapM Clause_of_dict cs = Ok (clauses p)
    /\ version_recognised (version_of d) = true
    /\ version p = recognised_version
    /\ nitems p
       = sum_list (map (fun c => length (action c) * length (object c))
                       (clauses p))
    /\ nclauses p = length (clauses p).
Proof.
  destruct l as [d| | |]; simpl; try discriminate.
  destruct (body_clause d) as [cs|] eqn:Hc; [|discriminate].
  destruct (mapM Clause_of_dict cs) as [cl|] eqn:Hm; simpl; [|discriminate].
  destruct (version_recognised (version_of d)) eqn:Hv; [|discriminate].
  intros [= <-]. exists d, cs. simpl. auto 10.
Qed.

(** C5, as stated, fails: a body with an empty clause collection is
    accepted and gives a policy without clauses. *)
Lemma policy_with_no_clause_is_built :
  ~ (forall d : Body,
       body_clause d = None \/ body_clause d = Some [] ->
       exists msg position,
         Policy_init (Decoded d) = Raise (PolicyBodyException msg position))
  /\ Policy_init (Decoded (mkBody None (Some [])))
     = Ok (mkPolicy "2015-12-10" [] 0 0).
Proof.
  split; [|reflexivity].
  intros H. destruct (H (mkBody None (Some []))) as (msg & pos & E).
  - right. reflexivity.
  - vm_compute in E. discriminate.
Qed.

(** C5 (as amended).  Construction fails with [PolicyBodyException]
    ("no policy clauses") for every decoded body without a clause
    collection; a policy that is constructed comes from a body holding
    a clause collection and has one clause per entry of it, so has at
    least one clause whenever that collection is not empty. *)
Theorem policy_requires_clause_collection :
  forall d : Body,
    (body_clause d = None ->
     Policy_init (Decoded d)
     = Raise (PolicyBodyException (Some "no policy clauses") None))
    /\ (forall p, Policy_init (Decoded d) = Ok p ->
          exists cs, body_clause d = Some cs
                     /\ length (clauses p) = length cs
                     /\ nclauses p = length cs
                     /\ (cs <> [] -> 1 <= length (clauses p))).
Proof.
  intros d. split.
  - intros H. simpl. rewrite H. reflexivity.
  - intros p Hp.
    apply Policy_init_Ok in Hp as (d' & cs & [= <-] & Hc & Hm & _ & _ & _ & Hn).
    apply mapM_length in Hm. exists cs. rewrite Hn, Hm.
    repeat split; auto. destruct cs; [congruence|simpl; lia].
Qed.

Lemma policy_requires_clause_collection_witness :
  let d := mkBody (Some (JStr "2015-12-10")) None in
  body_clause d = None
  /\ Policy_init (Decoded d)
     = Raise (PolicyBodyException (Some "no policy clauses") None).
Proof.
  intros d. split; [reflexivity|].
  exact (proj1 (policy_requires_clause_collection d) eq_refl).
Defined.

(** C9, as stated, fails: a present, empty version string is replaced
    by the default and accepted; and an unrecognised version next to a
    clause with a bad effect is reported as [EffectException]. *)
Lemma empty_version_is_defaulted :
  ~ (forall (d : Body) (v : json),
       body_version d = Some v -> v <> JStr recognised_version ->
       exists msg position,
         Policy_init (Decoded d) = Raise (PolicyBodyException msg position))
  /\ Policy_init (Decoded (mkBody (Some (JStr "")) (Some [])))
     = Ok (mkPolicy "2015-12-10" [] 0 0)
  /\ Policy_init
       (Decoded (mkBody (Some (JStr "2016-01-01"))
                        (Some [mkClauseDict (JStr "maybe") ["party.edit"]
                                            ["Org/*"]])))
     = Raise (EffectException (JStr "maybe")).
Proof.
  split; [|split; reflexivity].
  intros H.
  destruct (H (mkBody (Some (JStr "")) (Some [])) (JStr ""))
    as (msg & pos & E); [reflexivity|discriminate|].
  vm_compute in E. discriminate.
Qed.

(** C9 (as amended).  The version is checked against the single
    recognised string once the clause collection has been found and
    every clause constructed: then a body without a version field is
    given the default version and accepted, a body whose version is the
    recognised string is accepted, and every present version value that
    is true-valued (not null, false, zero or empty) and is not the
    recognised string fails with [PolicyBodyException]. *)
Theorem policy_version_validation :
  forall (d : Body) (cs : list ClauseDict) (cl : list Clause),
    body_clause d = Some cs ->
    mapM Clause_of_dict cs = Ok cl ->
    (body_version d = None ->
     exists p, Policy_init (Decoded d) = Ok p
               /\ version p = recognised_version /\ clauses p = cl)
    /\ (body_version d = Some (JStr recognised_version) ->
        exists p, Policy_init (Decoded d) = Ok p
                  /\ version p = recognised_version /\ clauses p = cl)
    /\ (forall v, body_version d = Some v -> truthy v = true ->
          v <> JStr recognised_version ->
          Policy_init (Decoded d)
          = Raise (PolicyBodyException (Some "version not recognised") None)).
Proof.
  intros d cs cl Hc Hm. unfold Policy_init, version_of. rewrite Hc, Hm.
  cbn [bind]. split; [|split].
  - intros ->. simpl. eexists. split; [reflexivity|auto].
  - intros ->. simpl. eexists. split; [reflexivity|auto].
  - intros v -> Ht Hne. rewrite Ht.
    destruct v; try reflexivity. simpl.
    rewrite bool_decide_eq_false_2; [reflexivity|congruence].
Qed.

Lemma policy_version_validation_witness :
  let cs := [mkClauseDict (JStr "allow") ["party.edit"] ["Org/*"]] in
  let d := mkBody (Some (JStr "2016-01-01")) (Some cs) in
  body_clause d = Some cs
  /\ mapM Clause_of_dict cs
     = Ok [mkClause "allow" [["party"; "edit"]] [["Org"; "*"]]]
  /\ truthy (JStr "2016-01-01") = true
  /\ Policy_init (Decoded d)
     = Raise (PolicyBodyException (Some "version not recognised") None).
Proof.
  intros cs d.
  assert (Hc : body_clause d = Some cs) by reflexivity.
  assert (Hm : mapM Clause_of_dict cs
               = Ok [mkClause "allow" [["party"; "edit"]] [["Org"; "*"]]])
    by reflexivity.
  assert (Ht : truthy (JStr "2016-01-01") = true) by reflexivity.
  split; [exact Hc|]. split; [exact Hm|]. split; [exact Ht|].
  refine (proj2 (proj2 (policy_version_validation d cs _ Hc Hm))
            (JStr "2016-01-01") eq_refl Ht _).
  discriminate.
Defined.

Lemma list_getitem_in_range {A} (l : list A) i x :
  l !! i = Some x -> list_getitem l (Z.of_nat i) = Ok x.
Proof.
  intros H. unfold list_getitem.
  destruct (Z.ltb_spec (Z.of_nat i) 0) as [Hlt|_]; [lia|].
  destruct (Z.ltb_spec (Z.of_nat i) 0) as [Hlt|_]; [lia|].
  rewrite Nat2Z.id, H. reflexivity.
Qed.

Lemma list_getitem_beyond {A} (l : list A) i :
  length l <= i -> list_getitem l (Z.of_nat i) = Raise IndexError.
Proof.
  intros H. unfold list_getitem.
  destruct (Z.ltb_spec (Z.of_nat i) 0) as [Hlt|_]; [lia|].
  destruct (Z.ltb_spec (Z.of_nat i) 0) as [Hlt|_]; [lia|].
  rewrite Nat2Z.id, (lookup_ge_None_2 l i H). reflexivity.
Qed.

Lemma Clause_triples_length c :
  length (Clause_triples c) = length (action c) * length (object c).
Proof.
  unfold Clause_triples. induction (action c) as [|a l IH]; simpl; [reflexivity|].
  rewrite length_app, length_map, IH. reflexivity.
Qed.

Lemma Policy_iter_length cl :
  length (flat_map Clause_triples cl)
  = sum_list (map (fun c => length (action c) * length (object c)) cl).
Proof.
  induction cl as [|c cl IH]; simpl; [reflexivity|].
  rewrite length_app, Clause_triples_length, IH. reflexivity.
Qed.

Section Counting.
Context {A : Type} (f : A -> nat).

Lemma sum_at_least_length (l : list A) :
  (forall x, x ∈ l -> 1 <= f x) -> length l <= sum_list (map f l).
Proof.
  induction l as [|x l IH]; intros H; simpl; [lia|].
  pose proof (H x (list_elem_of_here _ _)).
  assert (length l <= sum_list (map f l)).
  { apply IH. intros y Hy. apply H. right. exact Hy. }
  lia.
Qed.

Lemma sum_above_length (l : list A) :
  (forall x, x ∈ l -> 1 <= f x) -> (exists x, x ∈ l /\ 1 < f x) ->
  length l < sum_list (map f l).
Proof.
  induction l as [|x l IH]; intros H [y [Hy Hgt]]; [inversion Hy|].
  simpl. pose proof (H x (list_elem_of_here _ _)).
  assert (Hl : forall z, z ∈ l -> 1 <= f z).
  { intros z Hz. apply H. right. exact Hz. }
  apply elem_of_cons in Hy as [->|Hy].
  - pose proof (sum_at_least_length l Hl). lia.
  - assert (length l < sum_list (map f l)) by (apply IH; eauto). lia.
Qed.
End Counting.

(** C10, as stated, fails: one clause with two actions and no object
    gives a policy of one clause and length 0. *)
Lemma policy_len_below_clause_count :
  let l := Decoded (mkBody None
             (Some [mkClauseDict (JStr "allow") ["party.edit"; "party.list"] []])) in
  exists p, Policy_init l = Ok p
            /\ (exists c, c ∈ clauses p
                          /\ (1 < length (action c) \/ 1 < length (object c)))
            /\ Policy_len p = 0
            /\ length (clauses p) = 1
            /\ ~ (length (clauses p) < Policy_len p).
Proof.
  intros l. eexists. split; [reflexivity|]. simpl. split.
  - eexists. split; [left|]. simpl. lia.
  - unfold Policy_len. simpl. repeat split. lia.
Qed.

(** C10 (as amended).  For every constructed policy, [len] is the sum
    over the clauses of the number of action patterns times the number
    of object patterns, indexing at a position below the clause count
    returns the clause at that position, and iteration yields [len]
    triples, clause by clause in clause order, each clause giving the
    product of its actions and objects.  When every clause has at least
    one action and one object and some clause has more than one action
    or more than one object, [len] exceeds the clause count and
    indexing at every position from the clause count up to [len] - 1
    raises [IndexError]. *)
Theorem policy_len_counts_triples :
  forall (l : Loaded) (p : Policy),
    Policy_init l = Ok p ->
    Policy_len p
    = sum_list (map (fun c => length (action c) * length (object c))
                    (clauses p))
    /\ (forall i c, clauses p !! i = Some c ->
                    Policy_getitem p (Z.of_nat i) = Ok c)
    /\ length (Policy_iter p) = Policy_len p
    /\ Policy_iter p = concat (map Clause_triples (clauses p))
    /\ (forall c, length (Clause_triples c)
                  = length (action c) * length (object c))
    /\ ((forall c, c ∈ clauses p ->
                   1 <= length (action c) /\ 1 <= length (object c)) ->
        (exists c, c ∈ clauses p
                   /\ (1 < length (action c) \/ 1 < length (object c))) ->
        length (clauses p) < Policy_len p
        /\ forall i, length (clauses p) <= i < Policy_len p ->
                     Policy_getitem p (Z.of_nat i) = Raise IndexError).
Proof.
  intros l p Hp.
  apply Policy_init_Ok in Hp as (d & cs & _ & _ & _ & _ & _ & Hn & _).
  unfold Policy_len, Policy_getitem, Policy_iter. rewrite Hn.
  split; [reflexivity|]. split; [intros i c; apply list_getitem_in_range|].
  split; [apply Policy_iter_length|]. split; [apply flat_map_concat_map|].
  split; [apply Clause_triples_length|].
  intros Hall (c & Hc & Hmany). split.
  - apply sum_above_length.
    + intros x Hx. destruct (Hall x Hx). nia.
    + exists c. split; [exact Hc|]. destruct (Hall c Hc). nia.
  - intros i [Hi _]. apply list_getitem_beyond, Hi.
Qed.

Lemma policy_len_counts_triples_witness :
  let l := Decoded (mkBody None
             (Some [mkClauseDict (JStr "allow") ["party.edit"; "party.list"]
                                 ["Org/*"]])) in
  let c := mkClause "allow" [["party"; "edit"]; ["party"; "list"]]
                    [["Org"; "*"]] in
  let p := mkPolicy "2015-12-10" [c] 2 1 in
  Policy_init l = Ok p
  /\ Policy_len p = 2
  /\ Policy_getitem p 0 = Ok c
  /\ length (Policy_iter p) = Policy_len p
  /\ length (clauses p) < Policy_len p
  /\ Policy_getitem p 1 = Raise IndexError.
Proof.
  intros l c p.
  assert (Hp : Policy_init l = Ok p) by reflexivity.
  assert (Hall : forall c', c' ∈ clauses p ->
                   1 <= length (action c') /\ 1 <= length (object c')).
  { intros c' Hc'. apply list_elem_of_singleton in Hc'. subst c'.
    simpl. lia. }
  assert (Hmany : exists c', c' ∈ clauses p
                    /\ (1 < length (action c') \/ 1 < length (object c'))).
  { exists c. split; [left|]. simpl. lia. }
  destruct (policy_len_counts_triples l p Hp) as (_ & H2 & H3 & _ & _ & H6).
  destruct (H6 Hall Hmany) as [H7 H8].
  split; [exact Hp|]. split; [reflexivity|].
  split; [exact (H2 0 _ eq_refl)|]. split; [exact H3|].
  split; [exact H7|]. apply (H8 1). simpl. unfold Policy_len. simpl. lia.
Defined.

(** ** Escaping and splitting *)

Lemma append_empty_r s : s +:+ "" = s.
Proof.
  induction s as [|c s IH]; [reflexivity|].
  change (String c (s +:+ "") = String c s). f_equal. exact IH.
Qed.

Lemma append_cons c s t : String c s +:+ t = String c (s +:+ t).
Proof. reflexivity. Qed.

Lemma append_nil t : "" +:+ t = t.
Proof. reflexivity. Qed.

Ltac push_append := unfold str1; rewrite ?append_cons, ?append_nil.

Lemma prefix_empty s : String.prefix "" s = true.
Proof. destruct s; reflexivity. Qed.

Lemma replace1_cons a new c s :
  replace (str1 a) new (String c s)
  = if decide (c = a) then new +:+ replace (str1 a) new s
    else String c (replace (str1 a) new s).
Proof.
  unfold replace, str1. cbn [replace_from String.prefix String.length].
  destruct (ascii_dec a c) as [->|Hne]; simpl.
  - rewrite prefix_empty, decide_True by reflexivity. reflexivity.
  - rewrite decide_False by congruence. reflexivity.
Qed.

Lemma replace2_match a b new s :
  replace (String a (str1 b)) new (String a (String b s))
  = new +:+ replace (String a (str1 b)) new s.
Proof.
  unfold replace, str1. cbn [replace_from String.prefix String.length].
  destruct (ascii_dec a a) as [_|N]; [|congruence].
  destruct (ascii_dec b b) as [_|N]; [|congruence].
  rewrite prefix_empty. simpl. reflexivity.
Qed.

Lemma replace2_other a b new c s :
  c <> a ->
  replace (String a (str1 b)) new (String c s)
  = String c (replace (String a (str1 b)) new s).
Proof.
  intros Hne. unfold replace, str1. cbn [replace_from String.prefix].
  destruct (ascii_dec a c) as [E|_]; [congruence|]. reflexivity.
Qed.

Lemma replace2_first_only a b new s :
  (forall t, s <> String b t) ->
  replace (String a (str1 b)) new (String a s)
  = String a (replace (String a (str1 b)) new s).
Proof.
  intros Hs. unfold replace, str1. cbn [replace_from String.prefix].
  destruct (ascii_dec a a) as [_|N]; [|congruence].
  destruct s as [|d s]; [reflexivity|]. cbn [String.prefix].
  destruct (ascii_dec b d) as [<-|_]; [|reflexivity].
  exfalso. eapply Hs. reflexivity.
Qed.

Section Escaping.
Context (sep : ascii).
Hypothesis sep_not_backslash : sep <> backslash.
Hypothesis sep_not_newline : sep <> newline.

Lemma doubled_spec s :
  replace (str1 backslash) (String backslash (str1 backslash)) s = doubled s.
Proof.
  induction s as [|c s IH]; [reflexivity|].
  rewrite replace1_cons, IH. simpl.
  destruct (decide (c = backslash)) as [->|_]; push_append; reflexivity.
Qed.

Lemma escaped_of_doubled s :
  replace (str1 sep) (String backslash (str1 sep)) (doubled s)
  = escaped sep s.
Proof.
  induction s as [|c s IH]; [reflexivity|]. simpl.
  destruct (decide (c = backslash)) as [->|Hc].
  - rewrite !replace1_cons, IH.
    destruct (decide (backslash = sep)) as [E|_]; [congruence|reflexivity].
  - rewrite replace1_cons, IH.
    destruct (decide (c = sep)); push_append; reflexivity.
Qed.

(** [escape] puts a backslash before every backslash and separator. *)
Lemma escape_escaped s : escape s sep = escaped sep s.
Proof. unfold escape. rewrite doubled_spec. apply escaped_of_doubled. Qed.

Lemma escaped_head s t : escaped sep s <> String sep t.
Proof.
  destruct s as [|c s]; simpl; [discriminate|].
  destruct (decide (c = backslash)); [congruence|].
  destruct (decide (c = sep)); congruence.
Qed.

Lemma doubled_of_escaped s :
  replace (String backslash (str1 sep)) (str1 sep) (escaped sep s)
  = doubled s.
Proof.
  induction s as [|c s IH]; [reflexivity|]. simpl.
  destruct (decide (c = backslash)) as [->|Hc].
  - rewrite replace2_first_only.
    + rewrite replace2_first_only; [rewrite IH; reflexivity|].
      intros t. apply escaped_head.
    + intros t. unfold backslash in *. congruence.
  - destruct (decide (c = sep)) as [->|Hs].
    + rewrite replace2_match, IH. push_append. reflexivity.
    + rewrite replace2_other by exact Hc. rewrite IH. reflexivity.
Qed.

Lemma undoubled s :
  replace (String backslash (str1 backslash)) (str1 backslash) (doubled s) = s.
Proof.
  induction s as [|c s IH]; [reflexivity|]. simpl.
  destruct (decide (c = backslash)) as [->|Hc].
  - rewrite replace2_match, IH. push_append. reflexivity.
  - rewrite replace2_other by exact Hc. rewrite IH. reflexivity.
Qed.

(** Unescaping inverts the two substitutions of escaping. *)
Lemma unescape_escape s : unescape (escape s sep) sep = s.
Proof.
  rewrite escape_escaped. unfold unescape.
  rewrite doubled_of_escaped. apply undoubled.
Qed.

(** *** Splitting an escaped rendering *)

Local Abbreviation boundary := (boundary sep).

Lemma group_boundary rest : boundary rest -> group sep rest = "".
Proof.
  intros [->|[r ->]]; [reflexivity|]. simpl.
  rewrite decide_False by exact sep_not_backslash.
  rewrite decide_True by reflexivity. reflexivity.
Qed.

Lemma group_escaped c rest :
  boundary rest -> group sep (escaped sep c +:+ rest) = escaped sep c.
Proof.
  intros Hb. induction c as [|x c IH].
  - rewrite append_nil. apply group_boundary, Hb.
  - cbn [escaped]. destruct (decide (x = backslash)) as [->|Hx].
    + rewrite !append_cons. cbn [group].
      rewrite decide_True by reflexivity.
      rewrite decide_False by (unfold backslash, newline; discriminate).
      rewrite IH. reflexivity.
    + destruct (decide (x = sep)) as [->|Hs].
      * rewrite !append_cons. cbn [group].
        rewrite decide_True by reflexivity.
        rewrite decide_False by exact sep_not_newline.
        rewrite IH. reflexivity.
      * rewrite append_cons. cbn [group].
        rewrite decide_False by exact Hx.
        rewrite decide_False by exact Hs.
        rewrite IH. reflexivity.
Qed.

Lemma escaped_nonempty c :
  c <> "" -> exists x u, escaped sep c = String x u /\ x <> sep.
Proof.
  destruct c as [|x c]; [congruence|]. intros _. simpl.
  destruct (decide (x = backslash)); [eauto|].
  destruct (decide (x = sep)); eauto.
Qed.

Lemma captures_skip u s :
  captures sep (String.length u) (u +:+ s) = captures sep 0 s.
Proof.
  induction u as [|c u IH]; [reflexivity|].
  rewrite append_cons. cbn [String.length captures]. exact IH.
Qed.

Lemma captures_component c rest :
  c <> "" -> boundary rest ->
  captures sep 0 (escaped sep c +:+ rest)
  = escaped sep c :: captures sep 0 rest.
Proof.
  intros Hc Hb. pose proof (group_escaped c rest Hb) as Hg.
  destruct (escaped_nonempty c Hc) as (x & u & He & Hx).
  rewrite He in *. rewrite append_cons in *.
  cbn [captures]. unfold match_at.
  rewrite decide_False by exact Hx. rewrite Hg.
  cbn [String.length Nat.add Nat.sub]. rewrite Nat.sub_0_r.
  rewrite captures_skip. reflexivity.
Qed.

Lemma captures_separator_component c rest :
  c <> "" -> boundary rest ->
  captures sep 0 (String sep (escaped sep c +:+ rest))
  = escaped sep c :: captures sep 0 rest.
Proof.
  intros Hc Hb. pose proof (group_escaped c rest Hb) as Hg.
  destruct (escaped_nonempty c Hc) as (x & u & He & Hx).
  cbn [captures]. unfold match_at.
  rewrite decide_True by reflexivity. rewrite Hg, He.
  cbn [String.length Nat.add Nat.sub]. rewrite <- He.
  change (S (String.length u)) with (String.length (String x u)).
  rewrite <- He, captures_skip. reflexivity.
Qed.

Lemma captures_join comps :
  valid_pattern comps -> comps <> [] ->
  captures sep 0 (join sep (map (escaped sep) comps)) = map (escaped sep) comps
  /\ captures sep 0 (String sep (join sep (map (escaped sep) comps)))
     = map (escaped sep) comps.
Proof.
  induction 1 as [|c comps Hc Hv IH]; [congruence|]. intros _.
  destruct comps as [|c' comps].
  - cbn [map join].
    pose proof (captures_component c "" Hc (or_introl eq_refl)) as H1.
    pose proof (captures_separator_component c "" Hc (or_introl eq_refl))
      as H2.
    rewrite append_empty_r in H1, H2. rewrite H1, H2. split; reflexivity.
  - destruct IH as [_ IH]; [discriminate|].
    change (join sep (map (escaped sep) (c :: c' :: comps)))
      with (escaped sep c
            +:+ String sep (join sep (map (escaped sep) (c' :: comps)))).
    rewrite captures_component, captures_separator_component
      by (auto; right; eauto).
    rewrite IH. split; reflexivity.
Qed.

(** Parsing the rendering of a pattern without empty components gives
    the pattern back. *)
Lemma split_components_escaped_str comps :
  valid_pattern comps -> split_components sep (escaped_str sep comps) = comps.
Proof.
  intros Hv. unfold split_components, escaped_str.
  assert (map (fun c => escape c sep) comps = map (escaped sep) comps) as ->
    by (apply map_ext; intros; apply escape_escaped).
  destruct comps as [|c comps]; [reflexivity|].
  destruct (captures_join (c :: comps) Hv) as [-> _]; [discriminate|].
  rewrite map_map. rewrite <- (map_id (c :: comps)) at 2.
  apply map_ext. intros a. rewrite <- escape_escaped. apply unescape_escape.
Qed.

End Escaping.

Lemma replace_nonempty old new s :
  new <> "" -> s <> "" -> replace old new s <> "".
Proof.
  intros Hn Hs. destruct s as [|c s]; [congruence|].
  destruct new as [|x new]; [congruence|].
  unfold replace. cbn [replace_from].
  destruct (String.prefix old (String c s)); [rewrite append_cons|]; discriminate.
Qed.

Lemma unescape_nonempty s sep : s <> "" -> unescape s sep <> "".
Proof.
  intros Hs. unfold unescape.
  apply replace_nonempty; [discriminate|].
  apply replace_nonempty; [discriminate|exact Hs].
Qed.

Lemma match_at_nonempty sep s g n : match_at sep s = Some (g, n) -> g <> "".
Proof.
  unfold match_at. destruct s as [|c s]; [discriminate|].
  destruct (decide (c = sep)).
  - destruct (group sep s) eqn:E1; [|intros [= <- _]; discriminate].
    destruct (group sep (String c s)); [discriminate|].
    intros [= <- _]. discriminate.
  - destruct (group sep (String c s)); [discriminate|].
    intros [= <- _]. discriminate.
Qed.

Lemma captures_nonempty sep s : forall skip g,
  g ∈ captures sep skip s -> g <> "".
Proof.
  induction s as [|c s IH]; intros skip g; [intros H; inversion H|].
  cbn [captures]. destruct skip as [|k]; [|apply IH].
  destruct (match_at sep (String c s)) as [[g0 n]|] eqn:Hm; [|apply IH].
  intros H. apply elem_of_cons in H as [->|H]; [|eapply IH, H].
  eapply match_at_nonempty, Hm.
Qed.

(** The parser only produces valid patterns. *)
Lemma parse_valid s : valid_pattern (Object.parse s).
Proof.
  unfold valid_pattern, Object.parse, split_components.
  apply Forall_forall. intros c Hc.
  apply list_elem_of_fmap in Hc as (g & -> & Hg).
  apply unescape_nonempty. eapply captures_nonempty, Hg.
Qed.

(** C7.  Parsing the escaped rendering of a valid object pattern gives
    the pattern back, whatever separators and backslashes its
    components contain; unescaping inverts escaping on every component.
    The valid patterns are those without an empty component, which are
    the patterns the parser produces: every parsed pattern is valid and
    is reproduced by rendering and parsing again, as is the rendering
    of Org/Village-X\/Y/parcel/943. *)
Theorem object_round_trip :
  forall p : Object,
    valid_pattern p ->
    Object.parse (Object.to_string p) = p
    /\ (forall c : string,
          unescape (escape c Object.separator) Object.separator = c)
    /\ (forall s : string,
          valid_pattern (Object.parse s)
          /\ Object.parse (Object.to_string (Object.parse s)) = Object.parse s)
    /\ Object.parse "Org/Village-X\/Y/parcel/943"
       = ["Org"; "Village-X/Y"; "parcel"; "943"]
    /\ Object.to_string (Object.parse "Org/Village-X\/Y/parcel/943")
       = "Org/Village-X\/Y/parcel/943".
Proof.
  assert (H1 : Object.separator <> backslash) by discriminate.
  assert (H2 : Object.separator <> newline) by discriminate.
  intros p Hp. split; [|split; [|split; [|split]]].
  - apply split_components_escaped_str; assumption.
  - intros c. apply unescape_escape. exact H1.
  - intros s. split; [apply parse_valid|].
    apply split_components_escaped_str; [assumption..|apply parse_valid].
  - reflexivity.
  - reflexivity.
Qed.

Lemma object_round_trip_witness :
  let p := ["Org"; "Village-X/Y"; "par\cel"; "943"] in
  valid_pattern p
  /\ Object.to_string p = "Org/Village-X\/Y/par\\cel/943"
  /\ Object.parse (Object.to_string p) = p.
Proof.
  intros p.
  assert (Hp : valid_pattern p) by (repeat constructor; discriminate).
  split; [exact Hp|]. split; [reflexivity|].
  exact (proj1 (object_round_trip p Hp)).
Defined.

(** ** The folding manager *)

Module ModelsFacts.
Import Models.

Lemma elem_of_insert_by_index x pi l :
  x ∈ insert_by_index pi l <-> x = pi \/ x ∈ l.
Proof.
  induction l as [|y l IH]; simpl.
  - rewrite list_elem_of_singleton. split; [auto|].
    intros [H|H]; [exact H|inversion H].
  - destruct (pi_index pi <=? pi_index y)%Z.
    + rewrite elem_of_cons. reflexivity.
    + rewrite !elem_of_cons, IH. tauto.
Qed.

Lemma elem_of_order_by_index x l : x ∈ order_by_index l <-> x ∈ l.
Proof.
  induction l as [|y l IH]; simpl; [reflexivity|].
  rewrite elem_of_insert_by_index, elem_of_cons, IH. reflexivity.
Qed.

Lemma filter_none {A} (f : A -> bool) l :
  (forall x, x ∈ l -> f x = false) -> List.filter f l = [].
Proof.
  induction l as [|x l IH]; intros H; simpl; [reflexivity|].
  rewrite (H x) by left. apply IH. intros y Hy. apply H. right. exact Hy.
Qed.

Lemma filter_all {A} (f : A -> bool) l :
  (forall x, x ∈ l -> f x = true) -> List.filter f l = l.
Proof.
  induction l as [|x l IH]; intros H; simpl; [reflexivity|].
  rewrite (H x) by left. f_equal. apply IH. intros y Hy. apply H. right.
  exact Hy.
Qed.

Lemma new_instances_pset obj i cps pi :
  pi ∈ new_instances obj i cps -> pi_pset pi = obj.
Proof.
  revert i. induction cps as [|p cps IH]; intros i H; simpl in H.
  - inversion H.
  - apply elem_of_cons in H as [->|H]; [reflexivity|eauto].
Qed.

Lemma new_instances_policy obj cps p : forall i,
  p ∈ cps ->
  exists pi, pi ∈ new_instances obj i cps
             /\ pi_policy pi = p.1 /\ pi_pset pi = obj.
Proof.
  induction cps as [|q cps IH]; intros i H; [inversion H|].
  apply elem_of_cons in H as [->|H]; simpl.
  - eexists. split; [left|]. split; reflexivity.
  - destruct (IH (i + 1)%Z H) as (pi & Hpi & Hp). exists pi.
    split; [right; exact Hpi|exact Hp].
Qed.

Lemma new_instances_keys obj cps : forall i,
  map row_key (new_instances obj i cps) = cps.
Proof.
  induction cps as [|[p v] cps IH]; intros i; simpl; [reflexivity|].
  rewrite IH. reflexivity.
Qed.

(** Rows created with increasing indices come back in the order of
    their creation. *)
Lemma order_new_instances obj cps : forall i,
  order_by_index (new_instances obj i cps) = new_instances obj i cps.
Proof.
  induction cps as [|p cps IH]; intros i; [reflexivity|].
  cbn [new_instances order_by_index fold_right].
  fold (order_by_index (new_instances obj (i + 1) cps)). rewrite IH.
  destruct cps as [|q cps]; [reflexivity|].
  cbn [new_instances insert_by_index pi_index].
  destruct (Z.leb_spec i (i + 1)) as [_|]; [reflexivity|lia].
Qed.

(** The check of one candidate compares the rows, in order, with the
    canonical list. *)
Lemma same_rows_spec pis : forall cps,
  same_rows pis cps = true <-> map row_key pis = cps.
Proof.
  unfold same_rows.
  induction pis as [|pi pis IH]; intros [|[p v] cps]; simpl;
    try (split; [intros H; try discriminate;
                 rewrite ?andb_false_r in H; discriminate
                |discriminate]).
  - tauto.
  - specialize (IH cps). rewrite andb_true_iff in IH.
    rewrite !andb_true_iff, !bool_decide_eq_true in *.
    rewrite negb_true_iff, orb_false_iff, !negb_false_iff.
    rewrite !bool_decide_eq_true. unfold row_key at 1. simpl.
    split.
    + intros (Hlen & (Hp & Hv) & Hall). f_equal; [congruence|].
      apply IH. split; [congruence|exact Hall].
    + intros [= Hp Hv Hrest]. apply IH in Hrest as (Hlen & Hall).
      rewrite Hlen. auto.
Qed.

(** *** Candidates *)

Lemma fold_intersections (sets : list (gset nat)) : forall (acc : gset nat) c,
  c ∈ fold_left (fun a s => a ∩ s) sets acc
  <-> c ∈ acc /\ forall s, s ∈ sets -> c ∈ s.
Proof.
  induction sets as [|s sets IH]; intros acc c; simpl.
  - split; [intros H; split; [exact H|intros s Hs; inversion Hs]|tauto].
  - rewrite IH, elem_of_intersection. split.
    + intros [[Ha Hs] Hall]. split; [exact Ha|].
      intros s' Hs'. apply elem_of_cons in Hs' as [->|Hs']; auto.
    + intros [Ha Hall]. split; [split; [exact Ha|apply Hall; left]|].
      intros s' Hs'. apply Hall. right. exact Hs'.
Qed.

Lemma policy_psets_fold db cps : forall (acc : option (gset nat)),
  fold_left
    (fun (psetids : option (gset nat)) (p : nat * string) =>
       let ppsetids : gset nat :=
         list_to_set (map pi_pset (filter_policy db p.1)) in
       match psetids with
       | None => Some ppsetids
       | Some ids => Some (ids ∩ ppsetids)
       end) cps acc
  = match acc, cps with
    | None, [] => None
    | None, p :: cps' =>
        Some (fold_left (fun a s => a ∩ s) (map (users_of db) cps')
                        (users_of db p))
    | Some ids, _ =>
        Some (fold_left (fun a s => a ∩ s) (map (users_of db) cps) ids)
    end.
Proof.
  assert (HS : forall cps ids,
    fold_left
      (fun (psetids : option (gset nat)) (p : nat * string) =>
         let ppsetids : gset nat :=
           list_to_set (map pi_pset (filter_policy db p.1)) in
         match psetids with
         | None => Some ppsetids
         | Some ids => Some (ids ∩ ppsetids)
         end) cps (Some ids)
    = Some (fold_left (fun a s => a ∩ s) (map (users_of db) cps) ids)).
  { clear cps. induction cps as [|p cps IH]; intros ids; [reflexivity|].
    simpl. rewrite IH. reflexivity. }
  intros [ids|]; [apply HS|].
  destruct cps as [|p cps]; [reflexivity|]. simpl. apply HS.
Qed.

Lemma elem_of_users_of db p c :
  c ∈ users_of db p
  <-> exists pi, pi ∈ policy_instances db
                 /\ pi_policy pi = p.1 /\ pi_pset pi = c.
Proof.
  unfold users_of, filter_policy.
  rewrite elem_of_list_to_set, list_elem_of_fmap. split.
  - intros (pi & -> & Hpi). rewrite elem_of_order_by_index in Hpi.
    apply list_elem_of_In, filter_In in Hpi as [Hin Hp].
    apply bool_decide_eq_true in Hp. exists pi.
    split; [apply list_elem_of_In, Hin|auto].
  - intros (pi & Hin & Hp & Hc). exists pi. split; [auto|].
    rewrite elem_of_order_by_index. apply list_elem_of_In, filter_In.
    split; [apply list_elem_of_In, Hin|apply bool_decide_eq_true, Hp].
Qed.

(** The candidates for a non-empty list: the permission sets that use
    every policy of the list. *)
Lemma policy_psets_cons db p cps c :
  c ∈ policy_psets db (p :: cps)
  <-> forall q, q ∈ p :: cps ->
        exists pi, pi ∈ policy_instances db
                   /\ pi_policy pi = q.1 /\ pi_pset pi = c.
Proof.
  unfold policy_psets. rewrite policy_psets_fold.
  rewrite elem_of_elements, fold_intersections. split.
  - intros [Hp Hall] q Hq. apply elem_of_cons in Hq as [->|Hq].
    + apply elem_of_users_of, Hp.
    + apply elem_of_users_of, Hall, list_elem_of_fmap. eauto.
  - intros H. split.
    + apply elem_of_users_of, H. left.
    + intros s Hs. apply list_elem_of_fmap in Hs as (q & -> & Hq).
      apply elem_of_users_of, H. right. exact Hq.
Qed.

(** The candidates for the empty list: the permission sets without
    policy instances. *)
Lemma policy_psets_nil db c :
  c ∈ policy_psets db []
  <-> (exists r, r ∈ permission_sets db /\ pset_id r = c)
      /\ ~ exists pi, pi ∈ policy_instances db /\ pi_pset pi = c.
Proof.
  unfold policy_psets.
  rewrite elem_of_elements, elem_of_difference, !elem_of_list_to_set.
  rewrite !list_elem_of_fmap. split.
  - intros [(r & -> & Hr) Hn]. split; [eauto|].
    intros (pi & Hpi & Hc). apply Hn. exists pi. split; [auto|].
    rewrite elem_of_order_by_index. exact Hpi.
  - intros [(r & Hr & <-) Hn]. split; [eauto|].
    intros (pi & Hc & Hpi). apply Hn. exists pi.
    rewrite elem_of_order_by_index in Hpi. auto.
Qed.

(** *** The search loop *)

Lemma get_Done db c :
  (exists r, r ∈ permission_sets db /\ pset_id r = c) -> get db c = Done c.
Proof.
  intros (r & Hr & Hc). unfold get.
  assert (existsb (fun r => bool_decide (pset_id r = c)) (permission_sets db)
          = true) as ->; [|reflexivity].
  apply existsb_exists. exists r.
  split; [apply list_elem_of_In, Hr|apply bool_decide_eq_true, Hc].
Qed.

Lemma get_Done_inv db c x :
  get db c = Done x ->
  x = c /\ exists r, r ∈ permission_sets db /\ pset_id r = c.
Proof.
  unfold get.
  destruct (existsb _ _) eqn:E; [|discriminate]. intros [= <-].
  split; [reflexivity|]. apply existsb_exists in E as (r & Hr & Hc).
  exists r. split; [apply list_elem_of_In, Hr|].
  apply bool_decide_eq_true in Hc. exact Hc.
Qed.

Lemma search_found db cps cands x :
  search db cps cands = Done (Some x) ->
  x ∈ cands
  /\ (exists r, r ∈ permission_sets db /\ pset_id r = x)
  /\ same_rows (filter_pset db x) cps = true.
Proof.
  induction cands as [|c cands IH]; simpl; [discriminate|].
  destruct (get db c) as [y| |] eqn:Hg; try discriminate.
  apply get_Done_inv in Hg as [-> Hr].
  destruct (same_rows (filter_pset db c) cps) eqn:Hs.
  - intros [= <-]. split; [left|auto].
  - intros H. apply IH in H as (Hin & H). split; [right; exact Hin|exact H].
Qed.

Lemma search_none db cps cands :
  search db cps cands = Done None ->
  forall c, c ∈ cands ->
    (exists r, r ∈ permission_sets db /\ pset_id r = c)
    /\ same_rows (filter_pset db c) cps = false.
Proof.
  induction cands as [|c cands IH]; simpl; [intros _ c H; inversion H|].
  destruct (get db c) as [y| |] eqn:Hg; try discriminate.
  apply get_Done_inv in Hg as [-> Hr].
  destruct (same_rows (filter_pset db c) cps) eqn:Hs; [discriminate|].
  intros H c' Hc'. apply elem_of_cons in Hc' as [->|Hc']; auto.
Qed.

Lemma search_intro db cps cands x :
  x ∈ cands ->
  same_rows (filter_pset db x) cps = true ->
  (forall c, c ∈ cands ->
     exists r, r ∈ permission_sets db /\ pset_id r = c) ->
  (forall c, c ∈ cands -> c <> x ->
     same_rows (filter_pset db c) cps = false) ->
  search db cps cands = Done (Some x).
Proof.
  intros Hx Hsame Hget Hothers.
  induction cands as [|c cands IH]; [inversion Hx|]. simpl.
  rewrite get_Done by (apply Hget; left).
  destruct (decide (c = x)) as [->|Hne].
  - rewrite Hsame. reflexivity.
  - rewrite (Hothers c) by (auto; left).
    apply elem_of_cons in Hx as [->|Hx]; [congruence|].
    apply IH; [exact Hx| |].
    + intros c' Hc'. apply Hget. right. exact Hc'.
    + intros c' Hc'. apply Hothers. right. exact Hc'.
Qed.

(** *** The database after a creation *)

Lemma well_formed_spec db :
  well_formed db = true
  <-> (forall r, r ∈ permission_sets db -> pset_id r < next_id db)
      /\ (forall pi, pi ∈ policy_instances db -> pi_pset pi < next_id db).
Proof.
  unfold well_formed. rewrite andb_true_iff, !forallb_forall.
  split; intros [H1 H2]; split; intros x Hx.
  - apply Nat.ltb_lt, H1, list_elem_of_In, Hx.
  - apply Nat.ltb_lt, H2, list_elem_of_In, Hx.
  - apply Nat.ltb_lt, H1, list_elem_of_In, Hx.
  - apply Nat.ltb_lt, H2, list_elem_of_In, Hx.
Qed.

Lemma filter_pset_created_other db ptree cps c :
  c <> next_id db ->
  filter_pset
    (mkDB (permission_sets db ++ [mkPermissionSetRow (next_id db) ptree])
          (policy_instances db ++ new_instances (next_id db) 0 cps)
          (S (next_id db))) c
  = filter_pset db c.
Proof.
  intros Hc. unfold filter_pset. cbn [policy_instances].
  rewrite List.filter_app, (filter_none _ (new_instances _ _ _)).
  - rewrite app_nil_r. reflexivity.
  - intros pi Hpi. apply new_instances_pset in Hpi.
    apply bool_decide_eq_false. congruence.
Qed.

Lemma filter_pset_created db ptree cps :
  well_formed db = true ->
  filter_pset
    (mkDB (permission_sets db ++ [mkPermissionSetRow (next_id db) ptree])
          (policy_instances db ++ new_instances (next_id db) 0 cps)
          (S (next_id db))) (next_id db)
  = new_instances (next_id db) 0 cps.
Proof.
  intros Hwf. apply well_formed_spec in Hwf as [_ Hpi].
  unfold filter_pset. cbn [policy_instances].
  rewrite List.filter_app, (filter_none _ (policy_instances db)).
  - rewrite (filter_all _ (new_instances _ _ _)).
    + apply order_new_instances.
    + intros pi H. apply new_instances_pset in H.
      apply bool_decide_eq_true, H.
  - intros pi H. apply Hpi in H. apply bool_decide_eq_false. lia.
Qed.

Lemma well_formed_created db ptree cps :
  well_formed db = true ->
  well_formed
    (mkDB (permission_sets db ++ [mkPermissionSetRow (next_id db) ptree])
          (policy_instances db ++ new_instances (next_id db) 0 cps)
          (S (next_id db))) = true.
Proof.
  intros Hwf. apply well_formed_spec in Hwf as [Hr Hpi].
  apply well_formed_spec. cbn [permission_sets policy_instances next_id].
  split.
  - intros r H. apply elem_of_app in H as [H|H]; [apply Hr in H; lia|].
    apply list_elem_of_singleton in H. subst r. simpl. lia.
  - intros pi H. apply elem_of_app in H as [H|H]; [apply Hpi in H; lia|].
    apply new_instances_pset in H. lia.
Qed.

Lemma candidates_created db ptree cps c :
  well_formed db = true ->
  c ∈ policy_psets
        (mkDB (permission_sets db ++ [mkPermissionSetRow (next_id db) ptree])
              (policy_instances db ++ new_instances (next_id db) 0 cps)
              (S (next_id db))) cps
  <-> c = next_id db \/ c ∈ policy_psets db cps.
Proof.
  intros Hwf. pose proof Hwf as Hwf'.
  apply well_formed_spec in Hwf' as [Hr Hpi].
  destruct cps as [|p cps].
  - rewrite !policy_psets_nil. cbn [permission_sets policy_instances new_instances].
    rewrite app_nil_r. split.
    + intros [(r & Hin & Hc) Hn]. apply elem_of_app in Hin as [Hin|Hin].
      * right. split; [eauto|exact Hn].
      * apply list_elem_of_singleton in Hin. subst r. left. symmetry. exact Hc.
    + intros [->|[(r & Hin & Hc) Hn]].
      * split.
        -- eexists. split; [apply elem_of_app; right; left|reflexivity].
        -- intros (pi & Hin & Hc). apply Hpi in Hin. lia.
      * split; [|exact Hn]. exists r. split; [|exact Hc].
        apply elem_of_app. left. exact Hin.
  - rewrite !policy_psets_cons. cbn [policy_instances]. split.
    + intros H. destruct (decide (c = next_id db)) as [->|Hne]; [left; auto|].
      right. intros q Hq. destruct (H q Hq) as (pi & Hin & Hp & Hc).
      apply elem_of_app in Hin as [Hin|Hin]; [eauto|].
      apply new_instances_pset in Hin. congruence.
    + intros [->|H] q Hq.
      * destruct (new_instances_policy (next_id db) (p :: cps) q 0 Hq)
          as (pi & Hin & Hp).
        exists pi. split; [apply elem_of_app; right; exact Hin|exact Hp].
      * destruct (H q Hq) as (pi & Hin & Hp). exists pi.
        split; [apply elem_of_app; left; exact Hin|exact Hp].
Qed.

(** After a creation the search finds the permission set created. *)
Lemma search_created db ptree cps :
  well_formed db = true ->
  search db cps (policy_psets db cps) = Done None ->
  let db' :=
    mkDB (permission_sets db ++ [mkPermissionSetRow (next_id db) ptree])
         (policy_instances db ++ new_instances (next_id db) 0 cps)
         (S (next_id db)) in
  search db' cps (policy_psets db' cps) = Done (Some (next_id db)).
Proof.
  intros Hwf Hnone db'. pose proof (search_none _ _ _ Hnone) as Hold.
  apply search_intro.
  - apply candidates_created; auto.
  - unfold db'. rewrite filter_pset_created by exact Hwf.
    apply same_rows_spec, new_instances_keys.
  - intros c Hc. apply candidates_created in Hc; [|exact Hwf].
    destruct Hc as [->|Hc].
    + eexists. split; [apply elem_of_app; right; left|reflexivity].
    + destruct (Hold c Hc) as [(r & Hr & Hid) _]. exists r.
      split; [apply elem_of_app; left; exact Hr|exact Hid].
  - intros c Hc Hne. apply candidates_created in Hc; [|exact Hwf].
    destruct Hc as [->|Hc]; [congruence|].
    unfold db'. rewrite filter_pset_created_other by exact Hne.
    apply Hold, Hc.
Qed.

Section Folding.
Context {V : Type} (json_dumps : V -> string).
Context (build_tree : list (PolicyArg V) -> result string).

Local Abbreviation canon := (map (canonpol json_dumps)).
Local Abbreviation lookup_or_build := (by_policies json_dumps build_tree).

Lemma by_policies_Done db ps x db1 :
  lookup_or_build db ps = Done (x, db1) ->
  (db1 = db
   /\ search db (canon ps) (policy_psets db (canon ps)) = Done (Some x))
  \/ (exists ptree,
        search db (canon ps) (policy_psets db (canon ps)) = Done None
        /\ build_tree ps = Ok ptree
        /\ x = next_id db
        /\ db1 = mkDB (permission_sets db
                       ++ [mkPermissionSetRow (next_id db) ptree])
                      (policy_instances db
                       ++ new_instances (next_id db) 0 (canon ps))
                      (S (next_id db))).
Proof.
  unfold by_policies.
  destruct (search db (canon ps) (policy_psets db (canon ps)))
    as [[y|]| |]; try discriminate.
  - intros [= <- <-]. left. auto.
  - destruct (build_tree ps) as [ptree|]; [|discriminate].
    intros [= <- <-]. right. exists ptree. auto.
Qed.

(** Whatever a call returns is found by every later search for the
    same canonical list, and the database stays well formed. *)
Lemma by_policies_result db ps x db1 :
  well_formed db = true ->
  lookup_or_build db ps = Done (x, db1) ->
  well_formed db1 = true
  /\ x < next_id db1
  /\ search db1 (canon ps) (policy_psets db1 (canon ps)) = Done (Some x).
Proof.
  intros Hwf H. apply by_policies_Done in H
    as [[-> Hs]|(ptree & Hs & _ & -> & ->)].
  - split; [exact Hwf|]. split; [|exact Hs].
    apply search_found in Hs as (_ & (r & Hr & <-) & _).
    apply well_formed_spec in Hwf as [Hwf _]. apply Hwf, Hr.
  - split; [apply well_formed_created, Hwf|]. split; [simpl; lia|].
    apply search_created; assumption.
Qed.

Lemma by_policies_hit db ps x :
  search db (canon ps) (policy_psets db (canon ps)) = Done (Some x) ->
  lookup_or_build db ps = Done (x, db).
Proof. intros H. unfold by_policies. rewrite H. reflexivity. Qed.

End Folding.

End ModelsFacts.

(** The manager folds identical inputs, by primary key.  In a
    well-formed database, once a call has returned a permission set for
    a list of
    (policy, variables) arguments, a call with the same list returns
    that same permission set (the same row, by primary key) and creates
    nothing; so does a call with any list that has the same canonical
    form, that is the same length and at every position the same
    policy and the same serialised variables.  A call with a list whose
    canonical form differs, in length, in the policy at some position
    or in the serialised variables at some position, returns a
    different permission set. *)
Theorem by_policies_folds :
  forall (V : Type) (json_dumps : V -> string)
         (build_tree : list (Models.PolicyArg V) -> result string)
         (db db1 : Models.DB) (ps1 ps2 : list (Models.PolicyArg V)) (x : nat),
    Models.well_formed db = true ->
    Models.by_policies json_dumps build_tree db ps1 = Models.Done (x, db1) ->
    Models.by_policies json_dumps build_tree db1 ps1 = Models.Done (x, db1)
    /\ (map (Models.canonpol json_dumps) ps1
        = map (Models.canonpol json_dumps) ps2 ->
        Models.by_policies json_dumps build_tree db1 ps2 = Models.Done (x, db1))
    /\ (map (Models.canonpol json_dumps) ps1
        <> map (Models.canonpol json_dumps) ps2 ->
        forall y db2,
          Models.by_policies json_dumps build_tree db1 ps2 = Models.Done (y, db2) ->
          y <> x).
Proof.
  intros V json_dumps build_tree db db1 ps1 ps2 x Hwf H1.
  destruct (ModelsFacts.by_policies_result _ _ _ _ _ _ Hwf H1)
    as (Hwf1 & Hlt & Hs).
  assert (Hsame : forall ps,
             map (Models.canonpol json_dumps) ps1
             = map (Models.canonpol json_dumps) ps ->
             Models.by_policies json_dumps build_tree db1 ps
             = Models.Done (x, db1)).
  { intros ps E. apply ModelsFacts.by_policies_hit. rewrite <- E. exact Hs. }
  split; [apply Hsame; reflexivity|]. split; [apply Hsame|].
  intros Hne y db2 H2 ->.
  apply ModelsFacts.search_found in Hs as (_ & _ & Hrows1).
  apply ModelsFacts.same_rows_spec in Hrows1.
  apply ModelsFacts.by_policies_Done in H2
    as [[-> Hs2]|(ptree & _ & _ & Hx & _)]; [|lia].
  apply ModelsFacts.search_found in Hs2 as (_ & _ & Hrows2).
  apply ModelsFacts.same_rows_spec in Hrows2. congruence.
Qed.

Lemma by_policies_folds_witness :
  let P1 := Models.mkPolicyRow 1 "first" "{}" in
  let P2 := Models.mkPolicyRow 2 "second" "{}" in
  let dumps := fun v : string => v in
  let build := fun _ : list (Models.PolicyArg string) => Ok "tree" in
  let ps1 := [Models.Bare P1; Models.WithVars P2 "{x: 1}"] in
  let ps2 := [Models.WithVars P2 "{x: 1}"; Models.Bare P1] in
  let db1 :=
    Models.mkDB [Models.mkPermissionSetRow 1 "tree"]
                [Models.mkPolicyInstance 1 1 0 "{}";
                 Models.mkPolicyInstance 2 1 1 "{x: 1}"] 2 in
  Models.well_formed Models.empty_db = true
  /\ Models.by_policies dumps build Models.empty_db ps1 = Models.Done (1, db1)
  /\ Models.by_policies dumps build db1 ps1 = Models.Done (1, db1)
  /\ forall y db2,
       Models.by_policies dumps build db1 ps2 = Models.Done (y, db2) -> y <> 1.
Proof.
  intros P1 P2 dumps build ps1 ps2 db1.
  assert (Hwf : Models.well_formed Models.empty_db = true) by reflexivity.
  assert (H1 : Models.by_policies dumps build Models.empty_db ps1
               = Models.Done (1, db1)) by (vm_compute; reflexivity).
  destruct (by_policies_folds string dumps build Models.empty_db db1 ps1 ps2 1
              Hwf H1) as (Ha & _ & Hc).
  split; [exact Hwf|]. split; [exact H1|]. split; [exact Ha|].
  apply Hc. vm_compute. discriminate.
Defined.


(** * Further properties of the code *)

(** ** Matching of pattern sequences *)

Lemma seq_match_Forall2 a b :
  seq_match a b = true <-> Forall2 agree a b.
Proof.
  unfold seq_match. destruct (decide (length a ≠ length b)) as [Hl|Hl].
  - split; [discriminate|]. intros H. apply Forall2_length in H. contradiction.
  - assert (Hlen : length a = length b)
      by (destruct (decide (length a = length b)); [assumption|contradiction]).
    clear Hl. revert b Hlen.
    induction a as [|x a IH]; intros [|y b] Hlen; simpl in Hlen; try discriminate.
    + split; [constructor|reflexivity].
    + cbn [combine forallb]. rewrite andb_true_iff, IH by lia.
      rewrite !orb_true_iff, !bool_decide_eq_true. split.
      * intros [Hxy H]. constructor; [|exact H]. unfold agree. tauto.
      * intros H. apply Forall2_cons_1 in H as [Hxy H]. unfold agree in Hxy.
        tauto.
Qed.

Lemma covers_Forall2 p k :
  covers p k = true <-> Forall2 (fun x y => x = y \/ x = wildcard) p k.
Proof.
  revert k. induction p as [|x p IH]; intros [|y k]; simpl.
  - split; [constructor|reflexivity].
  - split; [discriminate|intros H; inversion H].
  - split; [discriminate|intros H; inversion H].
  - rewrite andb_true_iff, orb_true_iff, !bool_decide_eq_true, IH. split.
    + intros [Hxy H]. constructor; assumption.
    + intros H. apply Forall2_cons_1 in H. exact H.
Qed.

Lemma is_concrete_Forall k :
  is_concrete k = true <-> Forall (fun c => c <> wildcard) k.
Proof.
  unfold is_concrete. rewrite forallb_forall, Forall_forall.
  split; intros H x Hx.
  - apply list_elem_of_In, H in Hx.
    apply negb_true_iff, bool_decide_eq_false in Hx. exact Hx.
  - apply negb_true_iff, bool_decide_eq_false, H, list_elem_of_In, Hx.
Qed.

(** X1.  [match] is reflexive and symmetric, and equal sequences
    match. *)
Theorem seq_match_reflexive_symmetric :
  forall a b : list string,
    seq_match a a = true
    /\ seq_match a b = seq_match b a
    /\ (seq_eq a b = true -> seq_match a b = true).
Proof.
  intros a b.
  assert (Hrefl : forall x, seq_match x x = true).
  { intros x. apply seq_match_Forall2. induction x; constructor; auto.
    left. reflexivity. }
  assert (Hsym : forall x y, seq_match x y = true -> seq_match y x = true).
  { intros x y H. apply seq_match_Forall2. apply seq_match_Forall2 in H.
    induction H as [|u v x y Huv _ IH]; constructor; [|exact IH].
    unfold agree in *. intuition auto. }
  split; [apply Hrefl|]. split.
  - destruct (seq_match a b) eqn:E1, (seq_match b a) eqn:E2; try reflexivity.
    + apply Hsym in E1. congruence.
    + apply Hsym in E2. congruence.
  - unfold seq_eq. intros H. apply bool_decide_eq_true in H. subst b.
    apply Hrefl.
Qed.

(** X2.  Two patterns match exactly when they have a common concrete
    instance: a sequence without wildcards that both are consistent
    with.  This is what makes [match] the test for overlapping
    patterns. *)
Theorem seq_match_common_instance :
  forall a b : list string,
    seq_match a b = true
    <-> exists k, is_concrete k = true
                  /\ covers a k = true /\ covers b k = true.
Proof.
  intros a b. rewrite seq_match_Forall2. split.
  - induction 1 as [|x y a b Hxy _ (k & Hk & Ha & Hb)].
    + exists []. repeat split.
    + set (z := if decide (x = wildcard)
                then (if decide (y = wildcard) then "x" else y)
                else x).
      assert (Hz : z <> wildcard
                   /\ (x = z \/ x = wildcard) /\ (y = z \/ y = wildcard)).
      { unfold z, agree in *.
        destruct (decide (x = wildcard)) as [Hx|Hx],
                 (decide (y = wildcard)) as [Hy|Hy];
          repeat split; auto; try discriminate.
        destruct Hxy as [E|[E|E]]; [left; congruence|contradiction..]. }
      destruct Hz as (Hz & Hxz & Hyz). exists (z :: k).
      split; [|split].
      * apply is_concrete_Forall. constructor; [exact Hz|].
        apply is_concrete_Forall, Hk.
      * apply covers_Forall2. constructor; [exact Hxz|].
        apply covers_Forall2, Ha.
      * apply covers_Forall2. constructor; [exact Hyz|].
        apply covers_Forall2, Hb.
  - intros (k & _ & Ha & Hb). apply covers_Forall2 in Ha, Hb.
    revert b Hb. induction Ha as [|x z a k Hxz _ IH]; intros b Hb.
    + inversion Hb. constructor.
    + inversion Hb as [|y z' b' k' Hyz Hb']; subst. constructor; [|auto].
      unfold agree. destruct Hxz as [-> | ->]; destruct Hyz as [-> | ->]; auto.
Qed.

(** X3.  On sequences without wildcards, matching is equality. *)
Theorem seq_match_concrete :
  forall a b : list string,
    is_concrete a = true -> is_concrete b = true ->
    (seq_match a b = true <-> a = b).
Proof.
  intros a b Ha Hb. apply is_concrete_Forall in Ha, Hb.
  rewrite seq_match_Forall2. split.
  - intros H. induction H as [|x y a b Hxy _ IH]; [reflexivity|].
    apply Forall_cons_1 in Ha as [Hx Ha]. apply Forall_cons_1 in Hb as [Hy Hb].
    unfold agree in Hxy. f_equal; [intuition congruence|auto].
  - intros <-. clear. induction a; constructor; auto. left. reflexivity.
Qed.

Lemma seq_match_concrete_witness :
  let a := ["party"; "edit"] in
  let b := ["party"; "list"] in
  is_concrete a = true /\ is_concrete b = true
  /\ (seq_match a b = true <-> a = b).
Proof.
  intros a b.
  assert (Ha : is_concrete a = true) by reflexivity.
  assert (Hb : is_concrete b = true) by reflexivity.
  split; [exact Ha|]. split; [exact Hb|].
  exact (seq_match_concrete a b Ha Hb).
Defined.

(** ** Splitting and joining on a plain separator *)

Lemma split_cons_inv sep s : exists t ts, split sep s = t :: ts.
Proof.
  destruct s as [|c s]; simpl; [eauto|].
  destruct (decide (c = sep)); [eauto|].
  destruct (split sep s); eauto.
Qed.

Lemma join_cons_cons sep p q r :
  join sep (p :: q :: r) = p +:+ String sep (join sep (q :: r)).
Proof. reflexivity. Qed.

Lemma join_String sep c t ts :
  join sep (String c t :: ts) = String c (join sep (t :: ts)).
Proof. destruct ts; reflexivity. Qed.

Lemma join_split sep s : join sep (split sep s) = s.
Proof.
  induction s as [|c s IH]; [reflexivity|]. cbn [split].
  destruct (split_cons_inv sep s) as (t & ts & E). rewrite E in *.
  destruct (decide (c = sep)) as [->|Hc].
  - rewrite join_cons_cons, IH. reflexivity.
  - rewrite join_String, IH. reflexivity.
Qed.

Lemma split_piece sep p :
  has_char sep p = false -> split sep p = [p].
Proof.
  induction p as [|c p IH]; [reflexivity|]. simpl.
  intros H. apply orb_false_elim in H as [Hc H].
  apply bool_decide_eq_false in Hc.
  rewrite decide_False by exact Hc. rewrite IH by exact H. reflexivity.
Qed.

Lemma split_piece_sep sep p rest :
  has_char sep p = false ->
  split sep (p +:+ String sep rest) = p :: split sep rest.
Proof.
  induction p as [|c p IH]; intros H.
  - rewrite append_nil. cbn [split]. rewrite decide_True by reflexivity.
    reflexivity.
  - simpl in H. apply orb_false_elim in H as [Hc H].
    apply bool_decide_eq_false in Hc.
    rewrite append_cons. cbn [split]. rewrite decide_False by exact Hc.
    rewrite IH by exact H. reflexivity.
Qed.

Lemma split_join sep pieces :
  pieces <> [] -> Forall (fun p => has_char sep p = false) pieces ->
  split sep (join sep pieces) = pieces.
Proof.
  intros Hne H. induction H as [|p pieces Hp _ IH]; [congruence|].
  destruct pieces as [|q r].
  - apply split_piece, Hp.
  - rewrite join_cons_cons, split_piece_sep by exact Hp.
    rewrite IH by discriminate. reflexivity.
Qed.

Lemma split_length sep s : length (split sep s) = S (count_char sep s).
Proof.
  induction s as [|c s IH]; [reflexivity|]. cbn [split count_char].
  destruct (split_cons_inv sep s) as (t & ts & E). rewrite E in *.
  destruct (decide (c = sep)); simpl in *; lia.
Qed.

Lemma split_pieces_free sep s :
  Forall (fun p => has_char sep p = false) (split sep s).
Proof.
  induction s as [|c s IH]; [repeat constructor|]. cbn [split].
  destruct (split_cons_inv sep s) as (t & ts & E). rewrite E in *.
  apply Forall_cons_1 in IH as [Ht Hts].
  destruct (decide (c = sep)) as [->|Hc].
  - repeat constructor; assumption.
  - constructor; [|exact Hts]. simpl. rewrite Ht.
    rewrite bool_decide_eq_false_2 by exact Hc. reflexivity.
Qed.

Lemma split_pieces_without b sep s :
  has_char b s = false ->
  Forall (fun p => has_char b p = false) (split sep s).
Proof.
  induction s as [|c s IH]; [repeat constructor|]. simpl.
  intros H. apply orb_false_elim in H as [Hc H]. specialize (IH H).
  destruct (split_cons_inv sep s) as (t & ts & E). rewrite E in *.
  apply Forall_cons_1 in IH as [Ht Hts].
  destruct (decide (c = sep)).
  - repeat constructor; assumption.
  - constructor; [|exact Hts]. simpl. rewrite Hc, Ht. reflexivity.
Qed.

(** X4.  Printing a parsed action gives the text back, whatever the
    text: [str(Action(s)) == s]. *)
Theorem action_str_of_parse :
  forall s : string, Action.to_string (Action.parse s) = s.
Proof. intros s. apply join_split. Qed.

(** X5.  Parsing the printed form of an action gives the components
    back, provided there is at least one component and no component
    contains the separator. *)
Theorem action_parse_of_str :
  forall components : list string,
    components <> [] ->
    Forall (fun c => has_char Action.separator c = false) components ->
    Action.parse (Action.to_string components) = components.
Proof. intros components Hne H. apply split_join; assumption. Qed.

Lemma action_parse_of_str_witness :
  let components := ["party"; "*"; ""] in
  components <> []
  /\ Forall (fun c => has_char Action.separator c = false) components
  /\ Action.to_string components = "party.*."
  /\ Action.parse (Action.to_string components) = components.
Proof.
  intros components.
  assert (Hne : components <> []) by discriminate.
  assert (H : Forall (fun c => has_char Action.separator c = false) components)
    by (repeat constructor).
  split; [exact Hne|]. split; [exact H|]. split; [reflexivity|].
  exact (action_parse_of_str components Hne H).
Defined.

(** X6.  A parsed action has one component more than the text has
    separators, so at least one (the empty text gives one empty
    component), and no component contains the separator. *)
Theorem action_parse_components :
  forall s : string,
    length (Action.parse s) = S (count_char Action.separator s)
    /\ Forall (fun c => has_char Action.separator c = false) (Action.parse s).
Proof.
  intros s. split; [apply split_length|apply split_pieces_free].
Qed.

(** ** Objects without escapes *)

Lemma replace1_absent a new s :
  has_char a s = false -> replace (str1 a) new s = s.
Proof.
  induction s as [|c s IH]; [reflexivity|]. simpl. intros H.
  apply orb_false_elim in H as [Hc H]. apply bool_decide_eq_false in Hc.
  rewrite replace1_cons, decide_False by exact Hc. rewrite IH by exact H.
  reflexivity.
Qed.

Lemma replace2_absent a b new s :
  has_char a s = false -> replace (String a (str1 b)) new s = s.
Proof.
  induction s as [|c s IH]; [reflexivity|]. simpl. intros H.
  apply orb_false_elim in H as [Hc H]. apply bool_decide_eq_false in Hc.
  rewrite replace2_other by exact Hc. rewrite IH by exact H. reflexivity.
Qed.

Lemma unescape_plain s sep :
  has_char backslash s = false -> unescape s sep = s.
Proof.
  intros H. unfold unescape. rewrite (replace2_absent backslash sep) by exact H.
  apply replace2_absent, H.
Qed.

Lemma escape_plain s sep :
  has_char sep s = false -> has_char backslash s = false -> escape s sep = s.
Proof.
  intros Hs Hb. unfold escape. rewrite (replace1_absent backslash) by exact Hb.
  apply replace1_absent, Hs.
Qed.

Section Plain.
Context (sep : ascii).
Hypothesis sep_not_backslash : sep <> backslash.

Lemma group_plain p rest :
  has_char sep p = false -> has_char backslash p = false ->
  boundary sep rest -> group sep (p +:+ rest) = p.
Proof.
  intros Hs Hb Hrest. induction p as [|c p IH].
  - rewrite append_nil. apply group_boundary; assumption.
  - simpl in Hs, Hb. apply orb_false_elim in Hs as [Hc1 Hs].
    apply orb_false_elim in Hb as [Hc2 Hb].
    apply bool_decide_eq_false in Hc1, Hc2.
    rewrite append_cons. cbn [group].
    rewrite decide_False by exact Hc2. rewrite decide_False by exact Hc1.
    rewrite IH by assumption. reflexivity.
Qed.

Lemma captures_token x u rest :
  x <> sep ->
  group sep (String x u +:+ rest) = String x u ->
  captures sep 0 (String x u +:+ rest) = String x u :: captures sep 0 rest
  /\ captures sep 0 (String sep (String x u +:+ rest))
     = String x u :: captures sep 0 rest.
Proof.
  intros Hx Hg. split.
  - rewrite append_cons in *. cbn [captures]. unfold match_at.
    rewrite decide_False by exact Hx. rewrite Hg.
    cbn [String.length Nat.add Nat.sub]. rewrite Nat.sub_0_r.
    rewrite captures_skip. reflexivity.
  - cbn [captures]. unfold match_at.
    rewrite decide_True by reflexivity. rewrite Hg.
    cbn [String.length Nat.add Nat.sub].
    change (S (String.length u)) with (String.length (String x u)).
    rewrite captures_skip. reflexivity.
Qed.

Lemma group_separator t : group sep (String sep t) = "".
Proof.
  cbn [group]. rewrite decide_False by exact sep_not_backslash.
  rewrite decide_True by reflexivity. reflexivity.
Qed.

Lemma captures_no_match c t :
  match_at sep (String c t) = None ->
  captures sep 0 (String c t) = captures sep 0 t.
Proof. intros H. cbn [captures]. rewrite H. reflexivity. Qed.

Lemma captures_separator_only :
  captures sep 0 (String sep "") = [].
Proof.
  rewrite captures_no_match; [reflexivity|]. unfold match_at.
  rewrite decide_True by reflexivity. rewrite group_separator. reflexivity.
Qed.

Lemma captures_separator_twice t :
  captures sep 0 (String sep (String sep t)) = captures sep 0 (String sep t).
Proof.
  apply captures_no_match. unfold match_at.
  rewrite decide_True by reflexivity. rewrite !group_separator. reflexivity.
Qed.

Lemma captures_plain_join pieces :
  Forall (fun p => has_char sep p = false) pieces ->
  Forall (fun p => has_char backslash p = false) pieces ->
  pieces <> [] ->
  captures sep 0 (join sep pieces) = nonempty_pieces pieces
  /\ captures sep 0 (String sep (join sep pieces)) = nonempty_pieces pieces.
Proof.
  intros Hs. induction Hs as [|p pieces Hp _ IH]; intros Hb Hne; [congruence|].
  apply Forall_cons_1 in Hb as [Hpb Hb].
  assert (Hhead : forall x u, p = String x u -> x <> sep).
  { intros x u -> ->. simpl in Hp.
    rewrite bool_decide_eq_true_2 in Hp by reflexivity. discriminate. }
  destruct pieces as [|q r].
  - cbn [join]. destruct p as [|x u].
    + split; [reflexivity|apply captures_separator_only].
    + pose proof (captures_token x u "" (Hhead x u eq_refl)) as H.
      rewrite append_empty_r in H. apply H.
      rewrite <- (append_empty_r (String x u)) at 1.
      apply group_plain; [assumption..|left; reflexivity].
  - destruct (IH Hb) as [IH1 IH2]; [discriminate|].
    rewrite join_cons_cons. destruct p as [|x u].
    + rewrite append_nil, captures_separator_twice.
      unfold nonempty_pieces in *. cbn [List.filter]. simpl.
      split; exact IH2.
    + destruct (captures_token x u (String sep (join sep (q :: r)))
                  (Hhead x u eq_refl)) as [H1 H2].
      { apply group_plain; [assumption..|right; eauto]. }
      rewrite H1, H2, IH2. unfold nonempty_pieces. cbn [List.filter].
      split; reflexivity.
Qed.

Lemma split_components_plain s :
  has_char backslash s = false ->
  split_components sep s = nonempty_pieces (split sep s).
Proof.
  intros Hb. unfold split_components.
  rewrite <- (join_split sep s) at 1.
  destruct (split_cons_inv sep s) as (t & ts & E).
  destruct (captures_plain_join (split sep s)) as [-> _].
  - apply split_pieces_free.
  - apply split_pieces_without, Hb.
  - rewrite E. discriminate.
  - rewrite <- (map_id (nonempty_pieces (split sep s))) at 2.
    apply map_ext_in. intros p Hp. apply unescape_plain.
    unfold nonempty_pieces in Hp. apply filter_In in Hp as [Hp _].
    pose proof (split_pieces_without backslash sep s Hb) as Hall.
    rewrite Forall_forall in Hall. apply Hall, list_elem_of_In, Hp.
Qed.

End Plain.

(** X7.  On a text without backslashes, parsing an object is splitting
    at the separators and dropping the empty pieces: the regular
    expression agrees with [str.split] except that it passes over
    leading, trailing and doubled separators. *)
Theorem object_parse_plain :
  forall s : string,
    has_char backslash s = false ->
    Object.parse s = nonempty_pieces (split Object.separator s).
Proof.
  intros s H. apply split_components_plain; [discriminate|exact H].
Qed.

Lemma object_parse_plain_witness :
  let s := "/Org//parcel/943/" in
  has_char backslash s = false
  /\ split Object.separator s = [""; "Org"; ""; "parcel"; "943"; ""]
  /\ Object.parse s = ["Org"; "parcel"; "943"].
Proof.
  intros s.
  assert (H : has_char backslash s = false) by reflexivity.
  split; [exact H|]. split; [reflexivity|].
  exact (object_parse_plain s H).
Defined.

(** X8.  Components holding neither separator nor backslash are left
    alone by escaping, so such an object is printed as the plain join
    of its components; and unescaping leaves every backslash-free
    text unchanged. *)
Theorem object_str_plain :
  forall components : list string,
    Forall (fun c => has_char Object.separator c = false
                     /\ has_char backslash c = false) components ->
    Object.to_string components = join Object.separator components
    /\ Forall (fun c => unescape c Object.separator = c) components.
Proof.
  intros components H. unfold Object.to_string, escaped_str. split.
  - f_equal. rewrite <- (map_id components) at 2. apply map_ext_in.
    intros c Hc. rewrite Forall_forall in H.
    destruct (H c) as [H1 H2]; [apply list_elem_of_In, Hc|].
    apply escape_plain; assumption.
  - eapply Forall_impl; [exact H|]. intros c [_ Hc].
    apply unescape_plain, Hc.
Qed.

Lemma object_str_plain_witness :
  let components := ["Org"; "*"; "parcel"; "943"] in
  Forall (fun c => has_char Object.separator c = false
                   /\ has_char backslash c = false) components
  /\ Object.to_string components = "Org/*/parcel/943".
Proof.
  intros components.
  assert (H : Forall (fun c => has_char Object.separator c = false
                               /\ has_char backslash c = false) components)
    by (repeat constructor).
  split; [exact H|].
  exact (proj1 (object_str_plain components H)).
Defined.

(** ** Clause and policy construction *)

Lemma valid_effect_Some e s :
  valid_effect e = Some s
  <-> e = JStr s /\ (s = "allow" \/ s = "deny").
Proof.
  unfold valid_effect. split.
  - destruct e; try discriminate.
    destruct (decide (s0 = "allow")); [intros [= <-]; auto|].
    destruct (decide (s0 = "deny")); [intros [= <-]; auto|discriminate].
  - intros [-> [-> | ->]]; reflexivity.
Qed.

Lemma valid_effect_None e :
  valid_effect e = None <-> e <> JStr "allow" /\ e <> JStr "deny".
Proof.
  split.
  - intros H. split; intros ->; discriminate.
  - intros [H1 H2]. destruct (valid_effect e) as [s|] eqn:E; [|reflexivity].
    apply valid_effect_Some in E as [-> [-> | ->]]; congruence.
Qed.

(** X9.  The effect is checked before the patterns: construction
    raises [EffectException], carrying the offending effect, exactly
    when the effect is neither allow nor deny, whatever the action and
    object patterns. *)
Theorem clause_effect_checked_first :
  forall (e : json) (acts : list Action) (objs : list Object),
    (Clause_init e acts objs = Raise (EffectException e)
     <-> e <> JStr "allow" /\ e <> JStr "deny")
    /\ (forall e', Clause_init e acts objs = Raise (EffectException e') ->
                   e' = e).
Proof.
  intros e acts objs. unfold Clause_init.
  destruct (valid_effect e) as [s|] eqn:E.
  - apply valid_effect_Some in E as [-> Hs]. split.
    + split.
      * destruct (overlapping acts); [discriminate|].
        destruct (overlapping objs); discriminate.
      * intros [H1 H2]. destruct Hs as [-> | ->]; congruence.
    + intros e'. destruct (overlapping acts); [discriminate|].
      destruct (overlapping objs); discriminate.
  - apply valid_effect_None in E. split; [tauto|]. congruence.
Qed.

(** X10.  A constructed clause holds the effect and the patterns it
    was given; its effect is allow or deny, and any two of its action
    patterns, or of its object patterns, that match are equal. *)
Theorem clause_constructed_invariant :
  forall (e : json) (acts : list Action) (objs : list Object) (c : Clause),
    Clause_init e acts objs = Ok c ->
    e = JStr (effect c)
    /\ (effect c = "allow" \/ effect c = "deny")
    /\ action c = acts /\ object c = objs
    /\ (forall x y, x ∈ action c -> y ∈ action c ->
                    seq_match x y = true -> x = y)
    /\ (forall x y, x ∈ object c -> y ∈ object c ->
                    seq_match x y = true -> x = y).
Proof.
  intros e acts objs c. unfold Clause_init.
  destruct (valid_effect e) as [s|] eqn:E; [|discriminate].
  apply valid_effect_Some in E as [-> Hs].
  destruct (overlapping acts) eqn:Ha; [discriminate|].
  destruct (overlapping objs) eqn:Ho; [discriminate|].
  intros [= <-]. cbn [effect action object].
  apply overlapping_no_overlap in Ha, Ho.
  repeat split; auto.
  - intros x y Hx Hy Hm. destruct (decide (x = y)) as [|Hne]; [assumption|].
    exfalso. apply Ha. exists x, y. auto.
  - intros x y Hx Hy Hm. destruct (decide (x = y)) as [|Hne]; [assumption|].
    exfalso. apply Ho. exists x, y. auto.
Qed.

Lemma clause_constructed_invariant_witness :
  let acts := [["party"; "edit"]; ["party"; "edit"]; ["parcel"; "*"]] in
  let objs := [["Org"; "*"]] in
  let c := mkClause "deny" acts objs in
  Clause_init (JStr "deny") acts objs = Ok c
  /\ forall x y, x ∈ action c -> y ∈ action c ->
                 seq_match x y = true -> x = y.
Proof.
  intros acts objs c.
  assert (H : Clause_init (JStr "deny") acts objs = Ok c) by reflexivity.
  split; [exact H|].
  exact (proj1 (proj2 (proj2 (proj2 (proj2
           (clause_constructed_invariant _ acts objs c H)))))).
Defined.

Lemma mapM_Forall2 {A B} (f : A -> result B) l bs :
  mapM f l = Ok bs <-> Forall2 (fun a b => f a = Ok b) l bs.
Proof.
  revert bs. induction l as [|a l IH]; intros bs; simpl.
  - split; [intros [= <-]; constructor|intros H; inversion H; reflexivity].
  - split.
    + destruct (f a) as [b|] eqn:E; simpl; [|discriminate].
      destruct (mapM f l) as [bs'|]; simpl; [|discriminate].
      intros [= <-]. constructor; [exact E|]. apply IH. reflexivity.
    + intros H. inversion H as [|a' b l' bs' Hab Hrest]; subst.
      rewrite Hab. simpl. apply IH in Hrest. rewrite Hrest. reflexivity.
Qed.

Lemma mapM_first_error {A B} (f : A -> result B) pre a post e :
  Forall (fun x => exists b, f x = Ok b) pre ->
  f a = Raise e ->
  mapM f (pre ++ a :: post) = Raise e.
Proof.
  intros Hpre Ha. induction Hpre as [|x pre [b Hx] _ IH]; simpl.
  - rewrite Ha. reflexivity.
  - rewrite Hx. simpl. rewrite IH. reflexivity.
Qed.

Lemma version_recognised_of d :
  version_recognised (version_of d) = true
  <-> body_version d = None
      \/ exists v, body_version d = Some v
                   /\ (truthy v = false \/ v = JStr recognised_version).
Proof.
  unfold version_of. destruct (body_version d) as [v|].
  - destruct (truthy v) eqn:Ht.
    + split.
      * intros H. right. exists v. split; [reflexivity|]. right.
        destruct v; try discriminate. simpl in H.
        apply bool_decide_eq_true in H. congruence.
      * intros [H|(v' & [= <-] & [H| ->])];
          [discriminate|congruence|reflexivity].
    + split; [|reflexivity]. intros _. right. exists v. auto.
  - split; [auto|reflexivity].
Qed.

(** X11.  A decoded body is accepted exactly when it has a clause
    collection, every clause entry constructs, and the version is
    absent, false-valued or the recognised string; the policy then
    holds the recognised version, the constructed clauses in order,
    their number, and the number of (action, object) pairs. *)
Theorem policy_accepted_iff :
  forall (d : Body) (p : Policy),
    Policy_init (Decoded d) = Ok p
    <-> exists cs,
          body_clause d = Some cs
          /\ Forall2 (fun c k => Clause_of_dict c = Ok k) cs (clauses p)
          /\ (body_version d = None
              \/ exists v, body_version d = Some v
                           /\ (truthy v = false
                               \/ v = JStr recognised_version))
          /\ p = mkPolicy recognised_version (clauses p)
                   (sum_list (map (fun c => length (action c)
                                            * length (object c))
                                  (clauses p)))
                   (length (clauses p)).
Proof.
  intros d p. split.
  - intros H.
    apply Policy_init_Ok in H
      as (d' & cs & [= <-] & Hc & Hm & Hv & Hver & Hn & Hk).
    exists cs. split; [exact Hc|]. split; [apply mapM_Forall2, Hm|].
    split; [apply version_recognised_of, Hv|].
    destruct p; simpl in *. congruence.
  - intros (cs & Hc & Hm & Hv & Hp).
    apply mapM_Forall2 in Hm. apply version_recognised_of in Hv.
    cbn [Policy_init]. rewrite Hc, Hm. cbn [bind]. rewrite Hv.
    rewrite Hp at 4. reflexivity.
Qed.

(** X12.  Clause errors are raised in clause order and before the
    version is looked at: when the entries before some entry construct
    and that entry fails, the policy fails with that entry's exception,
    whatever follows it and whatever the version. *)
Theorem policy_first_clause_error :
  forall (d : Body) (pre post : list ClauseDict) (c : ClauseDict) (e : exn),
    body_clause d = Some (pre ++ c :: post) ->
    Forall (fun x => exists k, Clause_of_dict x = Ok k) pre ->
    Clause_of_dict c = Raise e ->
    Policy_init (Decoded d) = Raise e.
Proof.
  intros d pre post c e Hc Hpre He. cbn [Policy_init]. rewrite Hc.
  rewrite (mapM_first_error _ _ _ _ _ Hpre He). reflexivity.
Qed.

Lemma policy_first_clause_error_witness :
  let good := mkClauseDict (JStr "allow") ["party.edit"] ["Org/*"] in
  let bad := mkClauseDict (JStr "deny") ["party.edit"; "party.*"] ["Org/*"] in
  let worse := mkClauseDict (JStr "maybe") [] [] in
  let d := mkBody (Some (JStr "1999")) (Some ([good] ++ bad :: [worse])) in
  Policy_init (Decoded d) = Raise (PatternOverlapException "action").
Proof.
  intros good bad worse d.
  apply (policy_first_clause_error d [good] [worse] bad); [reflexivity| |].
  - constructor; [|constructor]. eexists. reflexivity.
  - reflexivity.
Defined.

Lemma Clause_of_dict_Ok c k :
  Clause_of_dict c = Ok k ->
  valid_effect (dict_effect c) = Some (effect k)
  /\ action k = map Action.parse (dict_action c)
  /\ object k = map Object.parse (dict_object c)
  /\ overlapping (action k) = false
  /\ overlapping (object k) = false.
Proof.
  unfold Clause_of_dict, Clause_init.
  destruct (valid_effect (dict_effect c)) as [s|]; [|discriminate].
  destruct (overlapping (map Action.parse (dict_action c))) eqn:Ha;
    [discriminate|].
  destruct (overlapping (map Object.parse (dict_object c))) eqn:Ho;
    [discriminate|].
  intros [= <-]. auto.
Qed.

(** Printing and parsing again reproduces a constructed clause. *)
Lemma Clause_of_one_clause c k :
  Clause_of_dict c = Ok k -> Clause_of_dict (one_clause k) = Ok k.
Proof.
  intros H. apply Clause_of_dict_Ok in H as (He & Ha & Ho & Hna & Hno).
  apply valid_effect_Some in He as [_ He].
  assert (Ha' : map Action.parse (map Action.to_string (action k)) = action k).
  { rewrite Ha, !map_map. apply map_ext. intros s.
    unfold Action.parse, Action.to_string. rewrite join_split. reflexivity. }
  assert (Ho' : map Object.parse (map Object.to_string (object k)) = object k).
  { rewrite Ho, !map_map. apply map_ext. intros s.
    apply split_components_escaped_str;
      [discriminate|discriminate|apply parse_valid]. }
  unfold Clause_of_dict, one_clause, Clause_init.
  cbn [dict_effect dict_action dict_object]. rewrite Ha', Ho', Hna, Hno.
  assert (valid_effect (JStr (effect k)) = Some (effect k)) as ->
    by (apply valid_effect_Some; auto).
  destruct k. reflexivity.
Qed.

Lemma Policy_of_Policy_dict :
  forall (l : Loaded) (p : Policy),
    Policy_init l = Ok p ->
    Policy_init (Decoded (Policy_dict p)) = Ok p.
Proof.
  intros l p H.
  apply Policy_init_Ok in H as (d & cs & _ & _ & Hm & _ & Hver & Hn & Hk).
  apply mapM_Forall2 in Hm.
  assert (Hm' : mapM Clause_of_dict (map one_clause (clauses p))
                = Ok (clauses p)).
  { apply mapM_Forall2. clear -Hm.
    induction Hm as [|c k cs ks Hck _ IH]; [constructor|].
    cbn [map]. constructor; [eapply Clause_of_one_clause, Hck|exact IH]. }
  unfold Policy_dict. cbn [Policy_init body_clause]. rewrite Hm'. cbn [bind].
  unfold version_of. cbn [body_version]. rewrite Hver. cbn.
  destruct p; simpl in *. congruence.
Qed.

(** X13.  The dictionary a constructed policy prints is accepted by
    the constructor and gives the same policy back: version, clauses,
    patterns and counts. *)
Theorem policy_dict_round_trip :
  forall (l : Loaded) (p : Policy),
    Policy_init l = Ok p ->
    Policy_init (Decoded (Policy_dict p)) = Ok p.
Proof. exact Policy_of_Policy_dict. Qed.

Lemma policy_dict_round_trip_witness :
  let l := Decoded (mkBody None
             (Some [mkClauseDict (JStr "allow") ["party.*"]
                                 ["Org/Village-X\/Y/*"]])) in
  let p := mkPolicy "2015-12-10"
             [mkClause "allow" [["party"; "*"]] [["Org"; "Village-X/Y"; "*"]]]
             1 1 in
  Policy_init l = Ok p
  /\ Policy_dict p
     = mkBody (Some (JStr "2015-12-10"))
              (Some [mkClauseDict (JStr "allow") ["party.*"]
                                  ["Org/Village-X\/Y/*"]])
  /\ Policy_init (Decoded (Policy_dict p)) = Ok p.
Proof.
  intros l p.
  assert (H : Policy_init l = Ok p) by reflexivity.
  split; [exact H|]. split; [reflexivity|].
  exact (policy_dict_round_trip l p H).
Defined.

(** X14.  Indexing a policy goes by clauses and follows list indexing:
    a position from 0 below the clause count gives that clause, a
    negative position down to minus the clause count counts from the
    end, and every other position raises [IndexError]. *)
Theorem policy_getitem_bounds :
  forall (p : Policy) (idx : Z),
    let n := Z.of_nat (length (clauses p)) in
    ((0 <= idx < n)%Z ->
     exists c, clauses p !! Z.to_nat idx = Some c
               /\ Policy_getitem p idx = Ok c)
    /\ ((- n <= idx < 0)%Z ->
        exists c, clauses p !! Z.to_nat (n + idx) = Some c
                  /\ Policy_getitem p idx = Ok c)
    /\ ((idx < - n \/ n <= idx)%Z -> Policy_getitem p idx = Raise IndexError).
Proof.
  intros p idx n. unfold Policy_getitem, list_getitem. fold n.
  split; [|split].
  - intros H. destruct (Z.ltb_spec idx 0); [lia|].
    destruct (Z.ltb_spec idx 0); [lia|].
    destruct (lookup_lt_is_Some_2 (clauses p) (Z.to_nat idx)) as [c Hc];
      [lia|].
    exists c. rewrite Hc. auto.
  - intros H. destruct (Z.ltb_spec idx 0); [|lia].
    destruct (Z.ltb_spec (idx + n) 0); [lia|].
    replace (n + idx)%Z with (idx + n)%Z by lia.
    destruct (lookup_lt_is_Some_2 (clauses p) (Z.to_nat (idx + n))) as [c Hc];
      [lia|].
    exists c. rewrite Hc. auto.
  - intros H. destruct (Z.ltb_spec idx 0).
    + destruct (Z.ltb_spec (idx + n) 0); [reflexivity|lia].
    + destruct (Z.ltb_spec idx 0); [lia|].
      rewrite lookup_ge_None_2 by lia. reflexivity.
Qed.

(** X15.  Iterating a policy yields exactly the triples made of a
    clause's effect, one of its action patterns and one of its object
    patterns. *)
Theorem policy_iter_triples :
  forall (p : Policy) (e : string) (a : Action) (o : Object),
    (e, a, o) ∈ Policy_iter p
    <-> exists c, c ∈ clauses p
                  /\ e = effect c /\ a ∈ action c /\ o ∈ object c.
Proof.
  intros p e a o. unfold Policy_iter, Clause_triples.
  rewrite list_elem_of_In, in_flat_map. split.
  - intros (c & Hc & H). apply in_flat_map in H as (a' & Ha & H).
    apply in_map_iff in H as (o' & [= <- <- <-] & Ho).
    exists c. rewrite !list_elem_of_In. auto.
  - intros (c & Hc & -> & Ha & Ho). exists c.
    split; [apply list_elem_of_In, Hc|]. apply in_flat_map.
    exists a. split; [apply list_elem_of_In, Ha|]. apply in_map_iff.
    exists o. split; [reflexivity|apply list_elem_of_In, Ho].
Qed.

(** ** Composition of permission sets *)

Lemma add_all_app self t1 t2 :
  add_all self (t1 ++ t2) = add_all (add_all self t1) t2.
Proof. unfold add_all. apply fold_left_app. Qed.

(** X16.  Adding a list of policies is adding, in order, all the
    triples the policies yield; so a permission set built from policies
    is the one built by inserting the concatenation of their triples,
    and adding two lists of policies one after the other is adding
    their concatenation. *)
Theorem add_policies_flattens :
  forall (self : PermissionSet) (policies more : list Policy),
    add_policies self policies
    = add_all self (flat_map Policy_iter policies)
    /\ PermissionSet_init (Some policies)
       = add_all (PermissionSet_init None) (flat_map Policy_iter policies)
    /\ add_policies self (policies ++ more)
       = add_policies (add_policies self policies) more.
Proof.
  assert (H : forall pols self,
             add_policies self pols = add_all self (flat_map Policy_iter pols)).
  { induction pols as [|p pols IH]; intros self; [reflexivity|].
    cbn [flat_map]. rewrite add_all_app, <- IH. reflexivity. }
  intros self policies more. split; [apply H|]. split; [apply H|].
  unfold add_policies. apply fold_left_app.
Qed.


(** ** The folding manager: candidates, creation, invariants *)

(** X17.  For a non-empty list, [policy_psets] returns, without
    repetition, exactly the permission sets that have a policy
    instance of every policy of the list. *)
Theorem policy_psets_uses_all :
  forall (db : Models.DB) (p : nat * string) (cps : list (nat * string))
         (c : nat),
    NoDup (Models.policy_psets db (p :: cps))
    /\ (c ∈ Models.policy_psets db (p :: cps)
        <-> forall q, q ∈ p :: cps ->
              exists pi, pi ∈ Models.policy_instances db
                         /\ Models.pi_policy pi = q.1
                         /\ Models.pi_pset pi = c).
Proof.
  intros db p cps c. split; [|apply ModelsFacts.policy_psets_cons].
  unfold Models.policy_psets. rewrite ModelsFacts.policy_psets_fold.
  apply NoDup_elements.
Qed.

(** X18.  For the empty list, [policy_psets] returns, without
    repetition, exactly the stored permission sets that no policy
    instance points to. *)
Theorem policy_psets_without_instances :
  forall (db : Models.DB) (c : nat),
    NoDup (Models.policy_psets db [])
    /\ (c ∈ Models.policy_psets db []
        <-> stored_pset db c
            /\ ~ exists pi, pi ∈ Models.policy_instances db
                            /\ Models.pi_pset pi = c).
Proof.
  intros db c. split; [apply NoDup_elements|].
  apply ModelsFacts.policy_psets_nil.
Qed.

(** A stored permission set with exactly the canonical list as its
    instance list is among the candidates. *)
Lemma matching_is_candidate db cps c :
  stored_pset db c -> instance_list db c = cps ->
  c ∈ Models.policy_psets db cps.
Proof.
  intros Hst Hrows. destruct cps as [|p cps].
  - apply ModelsFacts.policy_psets_nil. split; [exact Hst|].
    intros (pi & Hpi & Hc). unfold instance_list in Hrows.
    apply map_eq_nil in Hrows.
    assert (Hin : pi ∈ Models.filter_pset db c).
    { unfold Models.filter_pset. rewrite ModelsFacts.elem_of_order_by_index.
      apply list_elem_of_In, filter_In.
      split; [apply list_elem_of_In, Hpi|apply bool_decide_eq_true, Hc]. }
    rewrite Hrows in Hin. inversion Hin.
  - apply ModelsFacts.policy_psets_cons. intros q Hq.
    rewrite <- Hrows in Hq. unfold instance_list in Hq.
    apply list_elem_of_fmap in Hq as (pi & -> & Hpi).
    unfold Models.filter_pset in Hpi.
    rewrite ModelsFacts.elem_of_order_by_index in Hpi.
    apply list_elem_of_In, filter_In in Hpi as [Hpi Hc].
    apply bool_decide_eq_true in Hc. exists pi.
    split; [apply list_elem_of_In, Hpi|]. split; [reflexivity|exact Hc].
Qed.

Lemma search_exists db cps cands :
  (forall c, c ∈ cands -> stored_pset db c) ->
  (exists c, c ∈ cands /\ instance_list db c = cps) ->
  exists y, Models.search db cps cands = Models.Done (Some y)
            /\ instance_list db y = cps.
Proof.
  intros Hst (c & Hc & Hrows).
  induction cands as [|a cands IH]; [inversion Hc|]. cbn [Models.search].
  rewrite ModelsFacts.get_Done by (apply Hst; left).
  destruct (Models.same_rows (Models.filter_pset db a) cps) eqn:Hs.
  - exists a. split; [reflexivity|]. apply ModelsFacts.same_rows_spec, Hs.
  - apply IH.
    + intros x Hx. apply Hst. right. exact Hx.
    + apply elem_of_cons in Hc as [->|Hc]; [|exact Hc].
      apply ModelsFacts.same_rows_spec in Hrows. unfold instance_list in *.
      congruence.
Qed.

Lemma candidates_stored db cps c :
  referential db -> c ∈ Models.policy_psets db cps -> stored_pset db c.
Proof.
  intros Href Hc. destruct cps as [|p cps].
  - apply ModelsFacts.policy_psets_nil in Hc as [Hc _]. exact Hc.
  - rewrite ModelsFacts.policy_psets_cons in Hc.
    destruct (Hc p) as (pi & Hpi & _ & <-); [left|]. apply Href, Hpi.
Qed.

(** X19.  What a successful call leaves behind: the permission set
    returned is stored and its policy instances, in index order, are
    exactly the canonical (policy, serialised variables) list of the
    call; nothing stored before is removed, and the database stays
    well formed. *)
Theorem by_policies_postcondition :
  forall (V : Type) (json_dumps : V -> string)
         (build_tree : list (Models.PolicyArg V) -> result string)
         (db db1 : Models.DB) (ps : list (Models.PolicyArg V)) (x : nat),
    Models.well_formed db = true ->
    Models.by_policies json_dumps build_tree db ps = Models.Done (x, db1) ->
    stored_pset db1 x
    /\ instance_list db1 x = map (Models.canonpol json_dumps) ps
    /\ Models.well_formed db1 = true
    /\ (forall r, r ∈ Models.permission_sets db ->
                  r ∈ Models.permission_sets db1)
    /\ (forall pi, pi ∈ Models.policy_instances db ->
                   pi ∈ Models.policy_instances db1).
Proof.
  intros V json_dumps build_tree db db1 ps x Hwf H.
  destruct (ModelsFacts.by_policies_result _ _ _ _ _ _ Hwf H)
    as (Hwf1 & _ & Hs).
  apply ModelsFacts.search_found in Hs as (_ & Hst & Hrows).
  apply ModelsFacts.same_rows_spec in Hrows.
  split; [exact Hst|]. split; [exact Hrows|]. split; [exact Hwf1|].
  apply ModelsFacts.by_policies_Done in H
    as [[-> _]|(ptree & _ & _ & _ & ->)]; [auto|].
  cbn [Models.permission_sets Models.policy_instances].
  split; intros y Hy; apply elem_of_app; left; exact Hy.
Qed.

Lemma by_policies_postcondition_witness :
  let P1 := Models.mkPolicyRow 1 "first" "{}" in
  let dumps := fun v : string => v in
  let build := fun _ : list (Models.PolicyArg string) => Ok "tree" in
  let ps := [Models.WithVars P1 "{x: 1}"; Models.Bare P1] in
  let db1 :=
    Models.mkDB [Models.mkPermissionSetRow 1 "tree"]
                [Models.mkPolicyInstance 1 1 0 "{x: 1}";
                 Models.mkPolicyInstance 1 1 1 "{}"] 2 in
  Models.well_formed Models.empty_db = true
  /\ Models.by_policies dumps build Models.empty_db ps = Models.Done (1, db1)
  /\ instance_list db1 1 = [(1, "{x: 1}"); (1, "{}")].
Proof.
  intros P1 dumps build ps db1.
  assert (Hwf : Models.well_formed Models.empty_db = true) by reflexivity.
  assert (H : Models.by_policies dumps build Models.empty_db ps
              = Models.Done (1, db1)) by (vm_compute; reflexivity).
  split; [exact Hwf|]. split; [exact H|].
  exact (proj1 (proj2 (by_policies_postcondition string dumps build
                         Models.empty_db db1 ps 1 Hwf H))).
Defined.

Lemma stored_below_next db c :
  Models.well_formed db = true -> stored_pset db c -> c < Models.next_id db.
Proof.
  intros Hwf (r & Hr & <-). apply ModelsFacts.well_formed_spec in Hwf as [H _].
  apply H, Hr.
Qed.

Lemma search_none_no_match db cps :
  Models.search db cps (Models.policy_psets db cps) = Models.Done None ->
  forall c, stored_pset db c -> instance_list db c <> cps.
Proof.
  intros Hnone c Hst Hrows.
  pose proof (matching_is_candidate db cps c Hst Hrows) as Hc.
  destruct (ModelsFacts.search_none _ _ _ Hnone c Hc) as [_ Hs].
  apply ModelsFacts.same_rows_spec in Hrows. unfold instance_list in *.
  congruence.
Qed.

(** X20.  A permission set is created only when none is stored with
    exactly the canonical list as its instance list: when the set
    returned was not stored before, no stored set had that list, the
    set has the next key of the sequence, and the database gains one
    permission set row holding the serialised tree and one policy
    instance per element of the list, indexed from 0 in order. *)
Theorem by_policies_creates_only_when_absent :
  forall (V : Type) (json_dumps : V -> string)
         (build_tree : list (Models.PolicyArg V) -> result string)
         (db db1 : Models.DB) (ps : list (Models.PolicyArg V)) (x : nat),
    Models.by_policies json_dumps build_tree db ps = Models.Done (x, db1) ->
    ~ stored_pset db x ->
    (forall c, stored_pset db c ->
               instance_list db c <> map (Models.canonpol json_dumps) ps)
    /\ x = Models.next_id db
    /\ exists ptree,
         build_tree ps = Ok ptree
         /\ Models.permission_sets db1
            = Models.permission_sets db ++ [Models.mkPermissionSetRow x ptree]
         /\ Models.policy_instances db1
            = Models.policy_instances db
              ++ Models.new_instances x 0 (map (Models.canonpol json_dumps) ps)
         /\ Models.next_id db1 = S x.
Proof.
  intros V json_dumps build_tree db db1 ps x H Hnew.
  apply ModelsFacts.by_policies_Done in H
    as [[-> Hs]|(ptree & Hs & Hb & -> & ->)].
  - apply ModelsFacts.search_found in Hs as (_ & Hst & _). contradiction.
  - split; [apply search_none_no_match, Hs|]. split; [reflexivity|].
    exists ptree. auto.
Qed.

Lemma by_policies_creates_only_when_absent_witness :
  let P1 := Models.mkPolicyRow 1 "first" "{}" in
  let dumps := fun v : string => v in
  let build := fun _ : list (Models.PolicyArg string) => Ok "tree" in
  let db1 :=
    Models.mkDB [Models.mkPermissionSetRow 1 "tree"]
                [Models.mkPolicyInstance 1 1 0 "{}"] 2 in
  Models.by_policies dumps build Models.empty_db [Models.Bare P1]
  = Models.Done (1, db1)
  /\ ~ stored_pset Models.empty_db 1
  /\ 1 = Models.next_id Models.empty_db.
Proof.
  intros P1 dumps build db1.
  assert (H : Models.by_policies dumps build Models.empty_db [Models.Bare P1]
              = Models.Done (1, db1)) by (vm_compute; reflexivity).
  assert (Hn : ~ stored_pset Models.empty_db 1).
  { intros (r & Hr & _). inversion Hr. }
  split; [exact H|]. split; [exact Hn|].
  exact (proj1 (proj2 (by_policies_creates_only_when_absent string dumps build
                         Models.empty_db db1 [Models.Bare P1] 1 H Hn))).
Defined.

(** X21.  The search is complete: in a database where every policy
    instance points to a stored permission set, if some stored set has
    exactly the canonical list as its instance list then the call
    returns a stored set with that list and leaves the database as it
    is, without building anything; when no two stored sets share an
    instance list it returns that very set. *)
Theorem by_policies_finds_stored :
  forall (V : Type) (json_dumps : V -> string)
         (build_tree : list (Models.PolicyArg V) -> result string)
         (db : Models.DB) (ps : list (Models.PolicyArg V)) (c : nat),
    referential db ->
    stored_pset db c ->
    instance_list db c = map (Models.canonpol json_dumps) ps ->
    exists y,
      Models.by_policies json_dumps build_tree db ps = Models.Done (y, db)
      /\ stored_pset db y
      /\ instance_list db y = map (Models.canonpol json_dumps) ps
      /\ (folded db -> y = c).
Proof.
  intros V json_dumps build_tree db ps c Href Hst Hrows.
  destruct (search_exists db (map (Models.canonpol json_dumps) ps)
              (Models.policy_psets db (map (Models.canonpol json_dumps) ps)))
    as (y & Hs & Hy).
  - intros a Ha. eapply candidates_stored; eassumption.
  - exists c. split; [apply matching_is_candidate; assumption|exact Hrows].
  - exists y. split; [apply ModelsFacts.by_policies_hit, Hs|].
    apply ModelsFacts.search_found in Hs as (_ & Hsty & _).
    split; [exact Hsty|]. split; [exact Hy|].
    intros Hf. apply Hf; [assumption..|congruence].
Qed.

Lemma by_policies_finds_stored_witness :
  let P1 := Models.mkPolicyRow 1 "first" "{}" in
  let dumps := fun v : string => v in
  let failing :=
    fun _ : list (Models.PolicyArg string) =>
      @Raise string VariableSubstitutionException in
  let db :=
    Models.mkDB [Models.mkPermissionSetRow 1 "tree"]
                [Models.mkPolicyInstance 1 1 0 "{}"] 2 in
  referential db
  /\ stored_pset db 1
  /\ instance_list db 1 = [(1, "{}")]
  /\ exists y, Models.by_policies dumps failing db [Models.Bare P1]
               = Models.Done (y, db).
Proof.
  intros P1 dumps failing db.
  assert (Hst : stored_pset db 1).
  { eexists. split; [left|reflexivity]. }
  assert (Href : referential db).
  { intros pi Hpi. apply list_elem_of_singleton in Hpi. subst pi. exact Hst. }
  assert (Hrows : instance_list db 1
                  = map (Models.canonpol dumps) [Models.Bare P1])
    by reflexivity.
  split; [exact Href|]. split; [exact Hst|]. split; [exact Hrows|].
  destruct (by_policies_finds_stored string dumps failing db [Models.Bare P1] 1
              Href Hst Hrows) as (y & Hy & _).
  exists y. exact Hy.
Defined.

Lemma stored_created db ptree cps c :
  stored_pset
    (Models.mkDB
       (Models.permission_sets db
        ++ [Models.mkPermissionSetRow (Models.next_id db) ptree])
       (Models.policy_instances db
        ++ Models.new_instances (Models.next_id db) 0 cps)
       (S (Models.next_id db))) c
  <-> c = Models.next_id db \/ stored_pset db c.
Proof.
  unfold stored_pset. cbn [Models.permission_sets]. split.
  - intros (r & Hr & Hc). apply elem_of_app in Hr as [Hr|Hr]; [eauto|].
    apply list_elem_of_singleton in Hr. subst r. left. symmetry. exact Hc.
  - intros [->|(r & Hr & Hc)].
    + eexists. split; [apply elem_of_app; right; left|reflexivity].
    + exists r. split; [apply elem_of_app; left; exact Hr|exact Hc].
Qed.

Lemma by_policies_invariants :
  forall (V : Type) (json_dumps : V -> string)
         (build_tree : list (Models.PolicyArg V) -> result string)
         (db db1 : Models.DB) (ps : list (Models.PolicyArg V)) (x : nat),
    Models.well_formed db = true -> referential db -> folded db ->
    Models.by_policies json_dumps build_tree db ps = Models.Done (x, db1) ->
    Models.well_formed db1 = true /\ referential db1 /\ folded db1.
Proof.
  intros V json_dumps build_tree db db1 ps x Hwf Href Hf H.
  apply ModelsFacts.by_policies_Done in H
    as [[-> _]|(ptree & Hs & _ & -> & ->)]; [auto|].
  set (cps := map (Models.canonpol json_dumps) ps) in *.
  assert (Hold : forall c, stored_pset db c ->
            instance_list
              (Models.mkDB
                 (Models.permission_sets db
                  ++ [Models.mkPermissionSetRow (Models.next_id db) ptree])
                 (Models.policy_instances db
                  ++ Models.new_instances (Models.next_id db) 0 cps)
                 (S (Models.next_id db))) c
            = instance_list db c).
  { intros c Hc. unfold instance_list.
    rewrite ModelsFacts.filter_pset_created_other; [reflexivity|].
    pose proof (stored_below_next db c Hwf Hc). lia. }
  assert (Hnew : instance_list
              (Models.mkDB
                 (Models.permission_sets db
                  ++ [Models.mkPermissionSetRow (Models.next_id db) ptree])
                 (Models.policy_instances db
                  ++ Models.new_instances (Models.next_id db) 0 cps)
                 (S (Models.next_id db))) (Models.next_id db)
            = cps).
  { unfold instance_list. rewrite ModelsFacts.filter_pset_created by exact Hwf.
    apply ModelsFacts.new_instances_keys. }
  pose proof (search_none_no_match db cps Hs) as Hno.
  split; [apply ModelsFacts.well_formed_created, Hwf|]. split.
  - intros pi Hpi. cbn [Models.policy_instances] in Hpi.
    apply stored_created. apply elem_of_app in Hpi as [Hpi|Hpi].
    + right. apply Href, Hpi.
    + left. eapply ModelsFacts.new_instances_pset, Hpi.
  - intros c1 c2 H1 H2 Heq.
    apply stored_created in H1 as [->|H1];
      apply stored_created in H2 as [->|H2]; [reflexivity| | |].
    + rewrite Hnew, (Hold c2 H2) in Heq. exfalso. eapply Hno; eauto.
    + rewrite Hnew, (Hold c1 H1) in Heq. exfalso. eapply Hno; eauto.
    + rewrite (Hold c1 H1), (Hold c2 H2) in Heq. apply Hf; assumption.
Qed.

(** X22.  The manager keeps the database folded: if the database is
    well formed, every policy instance points to a stored permission
    set, and no two stored permission sets have the same instance list,
    then all three hold again after a successful call. *)
Theorem by_policies_keeps_folded :
  forall (V : Type) (json_dumps : V -> string)
         (build_tree : list (Models.PolicyArg V) -> result string)
         (db db1 : Models.DB) (ps : list (Models.PolicyArg V)) (x : nat),
    Models.well_formed db = true -> referential db -> folded db ->
    Models.by_policies json_dumps build_tree db ps = Models.Done (x, db1) ->
    Models.well_formed db1 = true /\ referential db1 /\ folded db1.
Proof. exact by_policies_invariants. Qed.

Lemma by_policies_keeps_folded_witness :
  let P1 := Models.mkPolicyRow 1 "first" "{}" in
  let dumps := fun v : string => v in
  let build := fun _ : list (Models.PolicyArg string) => Ok "tree" in
  let db1 :=
    Models.mkDB [Models.mkPermissionSetRow 1 "tree"]
                [Models.mkPolicyInstance 1 1 0 "{}"] 2 in
  Models.well_formed Models.empty_db = true
  /\ referential Models.empty_db /\ folded Models.empty_db
  /\ Models.by_policies dumps build Models.empty_db [Models.Bare P1]
     = Models.Done (1, db1)
  /\ Models.well_formed db1 = true /\ referential db1 /\ folded db1.
Proof.
  intros P1 dumps build db1.
  assert (Hwf : Models.well_formed Models.empty_db = true) by reflexivity.
  assert (Href : referential Models.empty_db).
  { intros pi Hpi. inversion Hpi. }
  assert (Hf : folded Models.empty_db).
  { intros c1 c2 (r & Hr & _). inversion Hr. }
  assert (H : Models.by_policies dumps build Models.empty_db [Models.Bare P1]
              = Models.Done (1, db1)) by (vm_compute; reflexivity).
  split; [exact Hwf|]. split; [exact Href|]. split; [exact Hf|].
  split; [exact H|].
  exact (by_policies_keeps_folded string dumps build Models.empty_db db1
           [Models.Bare P1] 1 Hwf Href Hf H).
Defined.


(** ** Assignment of permission sets to users *)

Module UsersFacts.
Import Models Users.

Lemma elem_of_List_filter {A} (f : A -> bool) l x :
  x ∈ List.filter f l <-> x ∈ l /\ f x = true.
Proof. rewrite !list_elem_of_In. apply filter_In. Qed.

Lemma filter_filter_implied {A} (f g : A -> bool) l :
  (forall x, f x = true -> g x = true) ->
  List.filter f (List.filter g l) = List.filter f l.
Proof.
  intros H. induction l as [|a l IH]; [reflexivity|]. simpl.
  destruct (g a) eqn:Hg; simpl.
  - rewrite IH. reflexivity.
  - destruct (f a) eqn:Hf; [|exact IH]. apply H in Hf. congruence.
Qed.

Lemma min_fold_in l : forall k, fold_left Nat.min l k ∈ k :: l.
Proof.
  induction l as [|a l IH]; intros k; simpl; [left|].
  specialize (IH (Nat.min k a)). apply elem_of_cons in IH as [->|IH].
  - destruct (Nat.min_spec k a) as [[_ ->]|[_ ->]]; [left|right; left].
  - right. right. exact IH.
Qed.

Lemma first_Some l x : first l = Some x -> x ∈ l.
Proof.
  destruct l as [|k l]; [discriminate|]. intros [= <-]. apply min_fold_in.
Qed.

Lemma first_None l : first l = None -> l = [].
Proof. destruct l; [reflexivity|discriminate]. Qed.

Lemma elem_user_psets st u y :
  y ∈ user_psets st u <-> stored_pset (db st) y /\ (y, u) ∈ pset_users st.
Proof.
  unfold user_psets, stored_pset. rewrite list_elem_of_fmap. split.
  - intros (r & -> & Hr). apply elem_of_List_filter in Hr as [Hr Hu].
    apply bool_decide_eq_true in Hu. eauto.
  - intros [(r & Hr & <-) Hu]. exists r. split; [reflexivity|].
    apply elem_of_List_filter. split; [exact Hr|].
    apply bool_decide_eq_true, Hu.
Qed.

Lemma elem_anonymous_psets st y :
  y ∈ anonymous_psets st <-> stored_pset (db st) y /\ y ∈ anonymous st.
Proof.
  unfold anonymous_psets, stored_pset. rewrite list_elem_of_fmap. split.
  - intros (r & -> & Hr). apply elem_of_List_filter in Hr as [Hr Hu].
    apply bool_decide_eq_true in Hu. eauto.
  - intros [(r & Hr & <-) Hu]. exists r. split; [reflexivity|].
    apply elem_of_List_filter. split; [exact Hr|].
    apply bool_decide_eq_true, Hu.
Qed.

Lemma count_users_zero st x :
  count_users st x = 0 <-> forall u, (x, u) ∉ pset_users st.
Proof.
  unfold count_users. rewrite length_zero_iff_nil. split.
  - intros H u Hu.
    assert (Hin : (x, u) ∈ List.filter (fun row => bool_decide (row.1 = x))
                                       (pset_users st)).
    { apply elem_of_List_filter. split; [exact Hu|].
      apply bool_decide_eq_true. reflexivity. }
    rewrite H in Hin. inversion Hin.
  - intros H. apply ModelsFacts.filter_none. intros [y u] Hy.
    apply bool_decide_eq_false. simpl. intros ->. exact (H u Hy).
Qed.

(** *** Deleting a permission set *)

Lemma stored_delete st x c :
  stored_pset (db (delete_pset st x)) c <-> stored_pset (db st) c /\ c <> x.
Proof.
  unfold stored_pset, delete_pset. cbn [db permission_sets]. split.
  - intros (r & Hr & <-). apply elem_of_List_filter in Hr as [Hr Hx].
    apply negb_true_iff, bool_decide_eq_false in Hx. eauto.
  - intros [(r & Hr & <-) Hx]. exists r. split; [|reflexivity].
    apply elem_of_List_filter. split; [exact Hr|].
    apply negb_true_iff, bool_decide_eq_false, Hx.
Qed.

Lemma instances_delete st x pi :
  pi ∈ policy_instances (db (delete_pset st x))
  <-> pi ∈ policy_instances (db st) /\ pi_pset pi <> x.
Proof.
  unfold delete_pset. cbn [db policy_instances].
  rewrite elem_of_List_filter, negb_true_iff, bool_decide_eq_false.
  reflexivity.
Qed.

Lemma instance_list_delete st x c :
  c <> x -> instance_list (db (delete_pset st x)) c = instance_list (db st) c.
Proof.
  intros Hc. unfold instance_list, filter_pset, delete_pset.
  cbn [db policy_instances]. rewrite filter_filter_implied; [reflexivity|].
  intros pi H. apply bool_decide_eq_true in H.
  apply negb_true_iff, bool_decide_eq_false. congruence.
Qed.

Lemma users_delete st x y u :
  (y, u) ∈ pset_users (delete_pset st x)
  <-> (y, u) ∈ pset_users st /\ y <> x.
Proof.
  unfold delete_pset. cbn [pset_users].
  rewrite elem_of_List_filter, negb_true_iff, bool_decide_eq_false.
  reflexivity.
Qed.

Lemma users_remove st x u y u' :
  (y, u') ∈ pset_users (remove_user st x u)
  <-> (y, u') ∈ pset_users st /\ (y, u') <> (x, u).
Proof.
  unfold remove_user. cbn [pset_users].
  rewrite elem_of_List_filter, negb_true_iff, bool_decide_eq_false.
  reflexivity.
Qed.

Lemma users_add st x u y u' :
  (y, u') ∈ pset_users (add_user st x u)
  <-> (y, u') ∈ pset_users st \/ (y, u') = (x, u).
Proof.
  unfold add_user. cbn [pset_users].
  destruct (bool_decide ((x, u) ∈ pset_users st)) eqn:E.
  - apply bool_decide_eq_true in E. split; [auto|].
    intros [H|H]; [exact H|]. rewrite H. exact E.
  - rewrite elem_of_app, list_elem_of_singleton. reflexivity.
Qed.

(** *** Detaching *)

Lemma detach_cases st user x :
  (detach st user x
   = match user with Some u => remove_user st x u | None => st end
   /\ exists u', (x, u') ∈ pset_users
                   (match user with Some u => remove_user st x u | None => st end))
  \/ (detach st user x
      = delete_pset
          (match user with Some u => remove_user st x u | None => st end) x
      /\ forall u', (x, u') ∉ pset_users
                      (match user with Some u => remove_user st x u | None => st end)).
Proof.
  unfold detach.
  set (st1 := match user with Some u => remove_user st x u | None => st end).
  destruct (Nat.eqb_spec (count_users st1 x) 0) as [E|E].
  - right. split; [reflexivity|]. apply count_users_zero, E.
  - left. split; [reflexivity|].
    unfold count_users in E.
    destruct (List.filter (fun row => bool_decide (row.1 = x)) (pset_users st1))
      as [|[y u'] l] eqn:Hf; [contradiction|].
    assert (Hin : (y, u') ∈ List.filter (fun row => bool_decide (row.1 = x))
                                       (pset_users st1))
      by (rewrite Hf; left).
    apply elem_of_List_filter in Hin as [Hin Hy].
    apply bool_decide_eq_true in Hy. simpl in Hy. subst y. eauto.
Qed.

Lemma users_detach_user st u x y u' :
  (y, u') ∈ pset_users (detach st (Some u) x)
  <-> (y, u') ∈ pset_users st /\ (y, u') <> (x, u).
Proof.
  destruct (detach_cases st (Some u) x) as [[-> _]|[-> Hnone]].
  - apply users_remove.
  - rewrite users_delete, users_remove. split; [tauto|].
    intros [H1 H2]. split; [auto|]. intros ->.
    apply (Hnone u'). apply users_remove. auto.
Qed.

Lemma users_detach_anonymous st x y u' :
  (y, u') ∈ pset_users (detach st None x) <-> (y, u') ∈ pset_users st.
Proof.
  destruct (detach_cases st None x) as [[-> _]|[-> Hnone]]; [reflexivity|].
  rewrite users_delete. split; [tauto|]. intros H. split; [exact H|].
  intros ->. exact (Hnone u' H).
Qed.

(** *** Clearing *)

Lemma clear_user_spec st u :
  users_referential st -> single st u ->
  exists st', clear_user_policies (Some u) st = Fine st'
    /\ (forall y, (y, u) ∉ pset_users st')
    /\ (forall y u', u' <> u ->
          ((y, u') ∈ pset_users st' <-> (y, u') ∈ pset_users st)).
Proof.
  intros Href Hsingle. cbn [clear_user_policies].
  destruct (first (user_psets st u)) as [x|] eqn:Hf.
  - apply first_Some, elem_user_psets in Hf as [_ Hx].
    eexists. split; [reflexivity|]. split.
    + intros y Hy. apply users_detach_user in Hy as [Hy Hne].
      apply Hne. f_equal. eapply Hsingle; eassumption.
    + intros y u' Hu. rewrite users_detach_user. split; [tauto|].
      intros H. split; [exact H|]. congruence.
  - apply first_None in Hf. exists st. split; [reflexivity|]. split.
    + intros y Hy.
      assert (Hin : y ∈ user_psets st u)
        by (apply elem_user_psets; split; [eapply Href, Hy|exact Hy]).
      rewrite Hf in Hin. inversion Hin.
    + reflexivity.
Qed.

Lemma consistent_subset st st1 :
  consistent st -> db st1 = db st ->
  (forall y u, (y, u) ∈ pset_users st1 -> (y, u) ∈ pset_users st) ->
  consistent st1.
Proof.
  intros (Hwf & Href & Hf & Hu & Hs) Hdb Hsub. unfold consistent.
  rewrite Hdb. repeat split; try assumption.
  - intros x u H. unfold users_referential in Hu. rewrite Hdb.
    eapply Hu, Hsub, H.
  - intros u x y Hx Hy. eapply Hs; eapply Hsub; eassumption.
Qed.

Lemma well_formed_delete st x :
  well_formed (db st) = true -> well_formed (db (delete_pset st x)) = true.
Proof.
  intros Hwf. apply ModelsFacts.well_formed_spec in Hwf as [H1 H2].
  apply ModelsFacts.well_formed_spec. cbn [delete_pset db next_id].
  cbn [permission_sets policy_instances]. split.
  - intros r Hr. apply elem_of_List_filter in Hr as [Hr _]. auto.
  - intros pi Hpi. apply elem_of_List_filter in Hpi as [Hpi _]. auto.
Qed.

Lemma well_formed_detach st user x :
  well_formed (db st) = true -> well_formed (db (detach st user x)) = true.
Proof.
  intros Hwf.
  destruct (detach_cases st user x) as [[-> _]|[-> _]].
  - destruct user; exact Hwf.
  - apply well_formed_delete. destruct user; exact Hwf.
Qed.

Lemma well_formed_clear st user st' :
  well_formed (db st) = true ->
  clear_user_policies user st = Fine st' -> well_formed (db st') = true.
Proof.
  intros H. destruct user as [u|]; cbn [clear_user_policies].
  - destruct (first (user_psets st u)); intros [= <-]; [|exact H].
    apply well_formed_detach, H.
  - destruct (anonymous_psets st) as [|x [|? ?]]; intros [= <-]; [exact H|].
    apply well_formed_detach. exact H.
Qed.

Lemma consistent_delete st x :
  consistent st -> consistent (delete_pset st x).
Proof.
  intros (Hwf & Href & Hf & Hu & Hs). unfold consistent. repeat split.
  - apply well_formed_delete, Hwf.
  - intros pi Hpi. apply instances_delete in Hpi as [Hpi Hx].
    apply stored_delete. split; [apply Href, Hpi|exact Hx].
  - intros c1 c2 H1 H2 Heq.
    apply stored_delete in H1 as [H1 Hx1]. apply stored_delete in H2 as [H2 Hx2].
    rewrite !instance_list_delete in Heq by assumption. apply Hf; assumption.
  - intros y u H. apply users_delete in H as [H Hx].
    apply stored_delete. split; [eapply Hu, H|exact Hx].
  - intros u y z Hy Hz. apply users_delete in Hy as [Hy _].
    apply users_delete in Hz as [Hz _]. eapply Hs; eassumption.
Qed.

Lemma consistent_detach st user x :
  consistent st -> consistent (detach st user x).
Proof.
  intros H.
  assert (H1 : consistent
                 (match user with Some u => remove_user st x u | None => st end)).
  { destruct user as [u|]; [|exact H].
    apply (consistent_subset st); [exact H|reflexivity|].
    intros y u' Hy. apply users_remove in Hy as [Hy _]. exact Hy. }
  destruct (detach_cases st user x) as [[-> _]|[-> _]]; [exact H1|].
  apply consistent_delete, H1.
Qed.

Lemma consistent_clear st user st' :
  consistent st -> clear_user_policies user st = Fine st' -> consistent st'.
Proof.
  intros H. destruct user as [u|]; cbn [clear_user_policies].
  - destruct (first (user_psets st u)); intros [= <-]; [|exact H].
    apply consistent_detach, H.
  - destruct (anonymous_psets st) as [|x [|? ?]]; intros [= <-]; [exact H|].
    apply consistent_detach.
    apply (consistent_subset st); [exact H|reflexivity|auto].
Qed.

End UsersFacts.

(** X23.  Clearing a user's policies never fails and leaves the user
    attached to no permission set, while the attachments of every other
    user stay as they were; this when the rows of the many-to-many
    table point to stored permission sets and the user is attached to
    at most one. *)
Theorem clear_user_policies_detaches :
  forall (st : Users.Store) (u : nat),
    users_referential st -> single st u ->
    exists st',
      Users.clear_user_policies (Some u) st = Users.Fine st'
      /\ (forall y, (y, u) ∉ Users.pset_users st')
      /\ (forall y u', u' <> u ->
            ((y, u') ∈ Users.pset_users st' <-> (y, u') ∈ Users.pset_users st)).
Proof. exact UsersFacts.clear_user_spec. Qed.

Lemma clear_user_policies_detaches_witness :
  let st :=
    Users.mkStore
      (Models.mkDB [Models.mkPermissionSetRow 1 "tree"]
                   [Models.mkPolicyInstance 1 1 0 "{}"] 2)
      [(1, 7); (1, 8)] ∅ in
  users_referential st /\ single st 7
  /\ exists st',
       Users.clear_user_policies (Some 7) st = Users.Fine st'
       /\ forall y, (y, 7) ∉ Users.pset_users st'.
Proof.
  intros st.
  assert (Href : users_referential st).
  { intros x u H. exists (Models.mkPermissionSetRow 1 "tree").
    split; [left|].
    apply elem_of_cons in H as [[= -> _]|H]; [reflexivity|].
    apply list_elem_of_singleton in H as [= -> _]. reflexivity. }
  assert (Hs : single st 7).
  { intros x y Hx Hy.
    apply elem_of_cons in Hx as [[= ->]|Hx];
      [|apply list_elem_of_singleton in Hx; discriminate].
    apply elem_of_cons in Hy as [[= ->]|Hy];
      [reflexivity|apply list_elem_of_singleton in Hy; discriminate]. }
  split; [exact Href|]. split; [exact Hs|].
  destruct (clear_user_policies_detaches st 7 Href Hs) as (st' & H1 & H2 & _).
  exists st'. split; [exact H1|exact H2].
Defined.

(** X24.  Clearing a user's policies deletes the user's permission set
    exactly when the user was its last user: if another user is
    attached, the stored permission sets, policy instances and flags
    are untouched; if none is, the permission set is no longer stored,
    its policy instances are gone with it and nothing else is, and this
    also when the permission set is flagged as the anonymous user's. *)
Theorem clear_user_policies_deletes_unused :
  forall (st st' : Users.Store) (u x : nat),
    Users.first (Users.user_psets st u) = Some x ->
    Users.clear_user_policies (Some u) st = Users.Fine st' ->
    ((exists u', u' <> u /\ (x, u') ∈ Users.pset_users st) ->
     Users.db st' = Users.db st /\ Users.anonymous st' = Users.anonymous st)
    /\ ((forall u', (x, u') ∈ Users.pset_users st -> u' = u) ->
        ~ stored_pset (Users.db st') x
        /\ (x ∉ Users.anonymous st')
        /\ (forall c, stored_pset (Users.db st') c
                      <-> stored_pset (Users.db st) c /\ c <> x)
        /\ (forall pi, pi ∈ Models.policy_instances (Users.db st')
                       <-> pi ∈ Models.policy_instances (Users.db st)
                           /\ Models.pi_pset pi <> x)).
Proof.
  intros st st' u x Hf. cbn [Users.clear_user_policies]. rewrite Hf.
  intros [= <-].
  destruct (UsersFacts.detach_cases st (Some u) x)
    as [[-> (u' & Hu')]|[-> Hnone]].
  - split; [intros _; split; reflexivity|].
    intros Hlast. exfalso. apply UsersFacts.users_remove in Hu' as [Hin Hne].
    apply Hne. f_equal. apply Hlast, Hin.
  - split.
    + intros (u' & Hne & Hin). exfalso. apply (Hnone u').
      apply UsersFacts.users_remove. split; [exact Hin|congruence].
    + intros _. split; [|split; [|split]].
      * intros H.
        apply (UsersFacts.stored_delete (Users.remove_user st x u)) in H
          as [_ H].
        congruence.
      * cbn [Users.delete_pset Users.anonymous]. intros H.
        apply elem_of_difference in H as [_ H]. apply H.
        apply elem_of_singleton. reflexivity.
      * intros c. apply (UsersFacts.stored_delete (Users.remove_user st x u)).
      * intros pi.
        apply (UsersFacts.instances_delete (Users.remove_user st x u)).
Qed.

Lemma clear_user_policies_deletes_unused_witness :
  let st :=
    Users.mkStore
      (Models.mkDB [Models.mkPermissionSetRow 1 "tree"]
                   [Models.mkPolicyInstance 1 1 0 "{}"] 2)
      [(1, 7)] {[1]} in
  let st' := Users.mkStore (Models.mkDB [] [] 2) [] ∅ in
  Users.first (Users.user_psets st 7) = Some 1
  /\ Users.clear_user_policies (Some 7) st
     = Users.Fine (Users.detach st (Some 7) 1)
  /\ ~ stored_pset (Users.db (Users.detach st (Some 7) 1)) 1
  /\ (1 ∉ Users.anonymous (Users.detach st (Some 7) 1)).
Proof.
  intros st st'.
  assert (Hf : Users.first (Users.user_psets st 7) = Some 1)
    by (vm_compute; reflexivity).
  assert (Hc : Users.clear_user_policies (Some 7) st
               = Users.Fine (Users.detach st (Some 7) 1)).
  { cbn [Users.clear_user_policies]. rewrite Hf. reflexivity. }
  assert (Hlast : forall u', (1, u') ∈ Users.pset_users st -> u' = 7).
  { intros u' H. apply list_elem_of_singleton in H as [= ->]. reflexivity. }
  destruct (clear_user_policies_deletes_unused st _ 7 1 Hf Hc) as [_ H].
  destruct (H Hlast) as (H1 & H2 & _).
  split; [exact Hf|]. split; [exact Hc|]. split; [exact H1|exact H2].
Defined.

(** X25.  After a successful [assign_user_policies(user, policies)] the
    user is attached to exactly one permission set; it is stored and
    its policy instances, in index order, are exactly the canonical
    list of the policies given; and the attachments of every other
    user are as before.  This in a well-formed database where the rows
    of the many-to-many table point to stored permission sets and the
    user was attached to at most one. *)
Theorem assign_user_policies_attaches :
  forall (V : Type) (json_dumps : V -> string)
         (build_tree : list (Models.PolicyArg V) -> result string)
         (st st' : Users.Store) (u : nat) (ps : list (Models.PolicyArg V)),
    Models.well_formed (Users.db st) = true ->
    users_referential st -> single st u ->
    Users.assign_user_policies json_dumps build_tree (Some u) ps st
    = Users.Fine st' ->
    exists x,
      (forall y, (y, u) ∈ Users.pset_users st' <-> y = x)
      /\ stored_pset (Users.db st') x
      /\ instance_list (Users.db st') x = map (Models.canonpol json_dumps) ps
      /\ (forall y u', u' <> u ->
            ((y, u') ∈ Users.pset_users st' <-> (y, u') ∈ Users.pset_users st)).
Proof.
  intros V json_dumps build_tree st st' u ps Hwf Hur Hs.
  unfold Users.assign_user_policies.
  destruct (UsersFacts.clear_user_spec st u Hur Hs)
    as (st1 & Hclear & Hnone & Hothers).
  pose proof (UsersFacts.well_formed_clear _ _ _ Hwf Hclear) as Hwf1.
  rewrite Hclear.
  destruct (Models.by_policies json_dumps build_tree (Users.db st1) ps)
    as [[x db2]| |] eqn:Hby; try discriminate.
  intros [= <-].
  destruct (ModelsFacts.by_policies_result _ _ _ _ _ _ Hwf1 Hby)
    as (_ & _ & Hsearch).
  apply ModelsFacts.search_found in Hsearch as (_ & Hst & Hrows).
  apply ModelsFacts.same_rows_spec in Hrows.
  exists x. split; [|split; [exact Hst|split; [exact Hrows|]]].
  - intros y. rewrite UsersFacts.users_add. cbn [Users.pset_users]. split.
    + intros [H|[= -> ]]; [exfalso; exact (Hnone y H)|reflexivity].
    + intros ->. right. reflexivity.
  - intros y u' Hu. rewrite UsersFacts.users_add. cbn [Users.pset_users].
    rewrite <- (Hothers y u' Hu). split; [|auto].
    intros [H|[= _ E]]; [exact H|congruence].
Qed.

Lemma assign_user_policies_attaches_witness :
  let P1 := Models.mkPolicyRow 1 "first" "{}" in
  let dumps := fun v : string => v in
  let build := fun _ : list (Models.PolicyArg string) => Ok "tree" in
  let st := Users.mkStore Models.empty_db [] ∅ in
  let st' :=
    Users.mkStore
      (Models.mkDB [Models.mkPermissionSetRow 1 "tree"]
                   [Models.mkPolicyInstance 1 1 0 "{}"] 2)
      [(1, 7)] ∅ in
  Users.assign_user_policies dumps build (Some 7) [Models.Bare P1] st
  = Users.Fine st'
  /\ exists x, (forall y, (y, 7) ∈ Users.pset_users st' <-> y = x)
               /\ instance_list (Users.db st') x = [(1, "{}")].
Proof.
  intros P1 dumps build st st'.
  assert (H : Users.assign_user_policies dumps build (Some 7) [Models.Bare P1] st
              = Users.Fine st') by (vm_compute; reflexivity).
  assert (Hwf : Models.well_formed (Users.db st) = true) by reflexivity.
  assert (Hur : users_referential st) by (intros x u Hx; inversion Hx).
  assert (Hs : single st 7) by (intros x y Hx; inversion Hx).
  split; [exact H|].
  destruct (assign_user_policies_attaches string dumps build st st' 7
              [Models.Bare P1] Hwf Hur Hs H) as (x & H1 & _ & H3 & _).
  exists x. split; [exact H1|exact H3].
Defined.


Lemma by_policies_keeps_stored {V} (json_dumps : V -> string) build_tree
    db ps x db1 c :
  Models.by_policies json_dumps build_tree db ps = Models.Done (x, db1) ->
  stored_pset db c -> stored_pset db1 c.
Proof.
  intros H Hc. apply ModelsFacts.by_policies_Done in H
    as [[-> _]|(ptree & _ & _ & _ & ->)]; [exact Hc|].
  apply stored_created. right. exact Hc.
Qed.

Lemma by_policies_stored_after {V} (json_dumps : V -> string) build_tree
    db ps x db1 c :
  Models.by_policies json_dumps build_tree db ps = Models.Done (x, db1) ->
  stored_pset db1 c -> c = x \/ stored_pset db c.
Proof.
  intros H Hc. apply ModelsFacts.by_policies_Done in H
    as [[-> _]|(ptree & _ & _ & -> & ->)]; [right; exact Hc|].
  apply stored_created in Hc. exact Hc.
Qed.

(** X26.  [assign_user_policies] keeps the stored data consistent,
    for a user and for the anonymous user alike: after a successful
    call the database is again well formed, policy instances and user
    rows point to stored permission sets, no two stored permission sets
    have the same instance list, and no user is attached to two
    permission sets. *)
Theorem assign_user_policies_keeps_consistent :
  forall (V : Type) (json_dumps : V -> string)
         (build_tree : list (Models.PolicyArg V) -> result string)
         (st st' : Users.Store) (user : option nat)
         (ps : list (Models.PolicyArg V)),
    consistent st ->
    Users.assign_user_policies json_dumps build_tree user ps st
    = Users.Fine st' ->
    consistent st'.
Proof.
  intros V json_dumps build_tree st st' user ps Hcons.
  unfold Users.assign_user_policies.
  destruct (Users.clear_user_policies user st) as [st1| | |] eqn:Hclear;
    try discriminate.
  pose proof (UsersFacts.consistent_clear _ _ _ Hcons Hclear)
    as (Hwf1 & Href1 & Hf1 & Hu1 & Hs1).
  destruct (Models.by_policies json_dumps build_tree (Users.db st1) ps)
    as [[x db2]| |] eqn:Hby; try discriminate.
  destruct (by_policies_invariants _ _ _ _ _ _ _ Hwf1 Href1 Hf1 Hby)
    as (Hwf2 & Href2 & Hf2).
  destruct (ModelsFacts.by_policies_result _ _ _ _ _ _ Hwf1 Hby)
    as (_ & _ & Hsearch).
  apply ModelsFacts.search_found in Hsearch as (_ & Hst & _).
  assert (Hu2 : forall y v, (y, v) ∈ Users.pset_users st1 -> stored_pset db2 y).
  { intros y v H. eapply by_policies_keeps_stored; [exact Hby|].
    eapply Hu1, H. }
  destruct user as [u|]; intros [= <-]; unfold consistent;
    cbn [Users.add_user Users.set_anonymous Users.db].
  - split; [exact Hwf2|]. split; [exact Href2|]. split; [exact Hf2|].
    assert (Hnone : forall y, (y, u) ∉ Users.pset_users st1).
    { destruct Hcons as (_ & _ & _ & Hu & Hs).
      destruct (UsersFacts.clear_user_spec st u Hu (Hs u))
        as (st0 & Hc0 & Hn0 & _).
      rewrite Hclear in Hc0. injection Hc0 as <-. exact Hn0. }
    pose proof (UsersFacts.users_add
                  (Users.mkStore db2 (Users.pset_users st1) (Users.anonymous st1))
                  x u) as Hadd.
    cbn [Users.add_user Users.pset_users Users.db Users.anonymous] in Hadd.
    split.
    + intros y v H. apply Hadd in H as [H|[= -> _]]; [eapply Hu2, H|exact Hst].
    + intros v y z Hy Hz.
      apply Hadd in Hy as [Hy|Ey]; apply Hadd in Hz as [Hz|Ez].
      * eapply Hs1; eassumption.
      * injection Ez as -> ->. exfalso. exact (Hnone y Hy).
      * injection Ey as -> ->. exfalso. exact (Hnone z Hz).
      * congruence.
  - split; [exact Hwf2|]. split; [exact Href2|]. split; [exact Hf2|].
    split; [exact Hu2|exact Hs1].
Qed.

Lemma assign_user_policies_keeps_consistent_witness :
  let P1 := Models.mkPolicyRow 1 "first" "{}" in
  let dumps := fun v : string => v in
  let build := fun _ : list (Models.PolicyArg string) => Ok "tree" in
  let st := Users.mkStore Models.empty_db [] ∅ in
  let st' :=
    Users.mkStore
      (Models.mkDB [Models.mkPermissionSetRow 1 "tree"]
                   [Models.mkPolicyInstance 1 1 0 "{}"] 2)
      [(1, 7)] ∅ in
  consistent st
  /\ Users.assign_user_policies dumps build (Some 7) [Models.Bare P1] st
     = Users.Fine st'
  /\ consistent st'.
Proof.
  intros P1 dumps build st st'.
  assert (Hc : consistent st).
  { split; [reflexivity|]. split; [intros pi Hpi; inversion Hpi|].
    split; [intros c1 c2 (r & Hr & _); inversion Hr|].
    split; [intros x u Hx; inversion Hx|intros v x y Hx; inversion Hx]. }
  assert (H : Users.assign_user_policies dumps build (Some 7) [Models.Bare P1] st
              = Users.Fine st') by (vm_compute; reflexivity).
  split; [exact Hc|]. split; [exact H|].
  exact (assign_user_policies_keeps_consistent string dumps build st st'
           (Some 7) [Models.Bare P1] Hc H).
Defined.

Lemma clear_anonymous_spec st st1 :
  Users.clear_user_policies None st = Users.Fine st1 ->
  (forall y, y ∉ Users.anonymous_psets st1)
  /\ (forall y u, (y, u) ∈ Users.pset_users st1 <-> (y, u) ∈ Users.pset_users st).
Proof.
  cbn [Users.clear_user_policies].
  destruct (Users.anonymous_psets st) as [|p [|q l]] eqn:Ha;
    intros [= <-].
  - split; [|reflexivity]. intros y Hy. rewrite Ha in Hy. inversion Hy.
  - split.
    + intros y Hy. apply UsersFacts.elem_anonymous_psets in Hy as [Hst Hfl].
      assert (Hy : y ∈ Users.anonymous_psets st /\ y <> p).
      { destruct (UsersFacts.detach_cases
                    (Users.set_anonymous st p false) None p)
          as [[E _]|[E _]]; rewrite E in Hst, Hfl.
        - cbn [Users.set_anonymous Users.anonymous Users.db] in Hst, Hfl.
          apply elem_of_difference in Hfl as [Hfl Hne].
          rewrite elem_of_singleton in Hne.
          split; [apply UsersFacts.elem_anonymous_psets; auto|exact Hne].
        - apply (UsersFacts.stored_delete (Users.set_anonymous st p false))
            in Hst as [Hst Hne].
          cbn [Users.delete_pset Users.set_anonymous Users.anonymous Users.db]
            in Hst, Hfl.
          apply elem_of_difference in Hfl as [Hfl _].
          apply elem_of_difference in Hfl as [Hfl _].
          split; [apply UsersFacts.elem_anonymous_psets; auto|exact Hne]. }
      destruct Hy as [Hy Hne]. rewrite Ha in Hy.
      apply list_elem_of_singleton in Hy. contradiction.
    + intros y u.
      apply (UsersFacts.users_detach_anonymous (Users.set_anonymous st p false)).
Qed.

(** X27.  After a successful [assign_user_policies(None, policies)]
    exactly one stored permission set is flagged as the anonymous
    user's; its policy instances, in index order, are exactly the
    canonical list of the policies given, and the attachments of users
    are as before. *)
Theorem assign_anonymous_policies_flags_one :
  forall (V : Type) (json_dumps : V -> string)
         (build_tree : list (Models.PolicyArg V) -> result string)
         (st st' : Users.Store) (ps : list (Models.PolicyArg V)),
    Models.well_formed (Users.db st) = true ->
    Users.assign_user_policies json_dumps build_tree None ps st
    = Users.Fine st' ->
    exists x,
      (forall y, y ∈ Users.anonymous_psets st' <-> y = x)
      /\ stored_pset (Users.db st') x
      /\ instance_list (Users.db st') x = map (Models.canonpol json_dumps) ps
      /\ (forall y u, (y, u) ∈ Users.pset_users st'
                      <-> (y, u) ∈ Users.pset_users st).
Proof.
  intros V json_dumps build_tree st st' ps Hwf.
  unfold Users.assign_user_policies.
  destruct (Users.clear_user_policies None st) as [st1| | |] eqn:Hclear;
    try discriminate.
  pose proof (UsersFacts.well_formed_clear _ _ _ Hwf Hclear) as Hwf1.
  destruct (clear_anonymous_spec st st1 Hclear) as [Hnone Husers].
  destruct (Models.by_policies json_dumps build_tree (Users.db st1) ps)
    as [[x db2]| |] eqn:Hby; try discriminate.
  intros [= <-].
  destruct (ModelsFacts.by_policies_result _ _ _ _ _ _ Hwf1 Hby)
    as (_ & _ & Hsearch).
  apply ModelsFacts.search_found in Hsearch as (_ & Hst & Hrows).
  apply ModelsFacts.same_rows_spec in Hrows.
  exists x. split; [|split; [exact Hst|split; [exact Hrows|exact Husers]]].
  intros y. rewrite UsersFacts.elem_anonymous_psets.
  cbn [Users.set_anonymous Users.db Users.anonymous].
  rewrite elem_of_union, elem_of_singleton. split.
  - intros [Hy [->|Hfl]]; [reflexivity|].
    destruct (by_policies_stored_after _ _ _ _ _ _ _ Hby Hy) as [->|Hy1];
      [reflexivity|].
    exfalso. apply (Hnone y). apply UsersFacts.elem_anonymous_psets. auto.
  - intros ->. auto.
Qed.

Lemma assign_anonymous_policies_flags_one_witness :
  let P1 := Models.mkPolicyRow 1 "first" "{}" in
  let dumps := fun v : string => v in
  let build := fun _ : list (Models.PolicyArg string) => Ok "tree" in
  let st := Users.mkStore Models.empty_db [] ∅ in
  Models.well_formed (Users.db st) = true
  /\ exists st' x,
       Users.assign_user_policies dumps build None [Models.Bare P1] st
       = Users.Fine st'
       /\ forall y, y ∈ Users.anonymous_psets st' <-> y = x.
Proof.
  intros P1 dumps build st.
  assert (Hwf : Models.well_formed (Users.db st) = true) by reflexivity.
  split; [exact Hwf|].
  eexists. 
  assert (H : Users.assign_user_policies dumps build None [Models.Bare P1] st
              = Users.Fine
                  (Users.set_anonymous
                     (Users.mkStore
                        (Models.mkDB [Models.mkPermissionSetRow 1 "tree"]
                                     [Models.mkPolicyInstance 1 1 0 "{}"] 2)
                        [] ∅) 1 true)) by (vm_compute; reflexivity).
  destruct (assign_anonymous_policies_flags_one string dumps build st _
              [Models.Bare P1] Hwf H) as (x & Hx & _).
  exists x. split; [exact H|exact Hx].
Defined.


(** ** Consequences for canonical forms and for keys *)

(** X28.  A permission set does not record where the action ends and
    the object begins: [add] and [allow] only see the concatenation of
    the action's and the object's components, so two (action, object)
    pairs with the same concatenation are inserted at the same place
    and get the same answer. *)
Theorem action_object_boundary_not_recorded :
  forall (self : PermissionSet) (e : string) (a a' : Action) (o o' : Object),
    a ++ o = a' ++ o' ->
    add self e a o = add self e a' o'
    /\ allow self a o = allow self a' o'
    /\ (forall b, allow (add self e a o) b o'
                  = allow (add self e a' o') b o').
Proof.
  intros self e a a' o o' H. unfold add, allow. rewrite H.
  repeat split; reflexivity.
Qed.

Lemma action_object_boundary_not_recorded_witness :
  let a := Action.parse "party.edit" in
  let o := Object.parse "Org" in
  let a' := Action.parse "party" in
  let o' := Object.parse "edit/Org" in
  a ++ o = a' ++ o'
  /\ forall self, allow self a o = allow self a' o'.
Proof.
  intros a o a' o'.
  assert (H : a ++ o = a' ++ o') by reflexivity.
  split; [exact H|]. intros self.
  exact (proj1 (proj2
           (action_object_boundary_not_recorded self "allow" a a' o o' H))).
Defined.

(** X29.  The printed form identifies a valid object pattern: two
    patterns without empty components that print the same are equal;
    likewise two actions with at least one component each and no
    separator inside a component. *)
Theorem to_string_injective :
  (forall p q : Object,
     valid_pattern p -> valid_pattern q ->
     Object.to_string p = Object.to_string q -> p = q)
  /\ (forall a b : Action,
        a <> [] -> b <> [] ->
        Forall (fun c => has_char Action.separator c = false) a ->
        Forall (fun c => has_char Action.separator c = false) b ->
        Action.to_string a = Action.to_string b -> a = b).
Proof.
  split.
  - intros p q Hp Hq H.
    assert (Rp : Object.parse (Object.to_string p) = p)
      by (apply split_components_escaped_str;
          [discriminate|discriminate|exact Hp]).
    assert (Rq : Object.parse (Object.to_string q) = q)
      by (apply split_components_escaped_str;
          [discriminate|discriminate|exact Hq]).
    rewrite <- Rp, H. exact Rq.
  - intros a b Ha Hb Hfa Hfb H.
    pose proof (split_join Action.separator a Ha Hfa) as Ra.
    pose proof (split_join Action.separator b Hb Hfb) as Rb.
    unfold Action.to_string in H. rewrite <- Ra, H. exact Rb.
Qed.

Lemma to_string_injective_witness :
  let p := ["Org"; "Village-X/Y"] in
  let q := ["Org"; "Village-X"; "Y"] in
  valid_pattern p /\ valid_pattern q
  /\ Object.to_string p = "Org/Village-X\/Y"
  /\ Object.to_string q = "Org/Village-X/Y"
  /\ (Object.to_string p = Object.to_string q -> p = q).
Proof.
  intros p q.
  assert (Hp : valid_pattern p) by (repeat constructor; discriminate).
  assert (Hq : valid_pattern q) by (repeat constructor; discriminate).
  split; [exact Hp|]. split; [exact Hq|]. split; [reflexivity|].
  split; [reflexivity|].
  exact (proj1 to_string_injective p q Hp Hq).
Defined.

(** X30.  The printed dictionary identifies a constructed policy: two
    policies accepted by the constructor that print the same
    dictionary are equal. *)
Theorem policy_dict_injective :
  forall (l1 l2 : Loaded) (p1 p2 : Policy),
    Policy_init l1 = Ok p1 -> Policy_init l2 = Ok p2 ->
    Policy_dict p1 = Policy_dict p2 -> p1 = p2.
Proof.
  intros l1 l2 p1 p2 H1 H2 H.
  apply Policy_of_Policy_dict in H1, H2. rewrite H in H1.
  rewrite H1 in H2. injection H2 as ->. reflexivity.
Qed.

Lemma policy_dict_injective_witness :
  let l1 := Decoded (mkBody None
              (Some [mkClauseDict (JStr "allow") ["party.*"] ["/Org//*"]])) in
  let l2 := Decoded (mkBody (Some (JStr "2015-12-10"))
              (Some [mkClauseDict (JStr "allow") ["party.*"] ["Org/*"]])) in
  let p := mkPolicy "2015-12-10"
             [mkClause "allow" [["party"; "*"]] [["Org"; "*"]]] 1 1 in
  Policy_init l1 = Ok p /\ Policy_init l2 = Ok p
  /\ (Policy_dict p = Policy_dict p -> p = p).
Proof.
  intros l1 l2 p.
  assert (H1 : Policy_init l1 = Ok p) by reflexivity.
  assert (H2 : Policy_init l2 = Ok p) by reflexivity.
  split; [exact H1|]. split; [exact H2|].
  exact (policy_dict_injective l1 l2 p p H1 H2).
Defined.

Lemma policy_getitem_bounds_witness :
  let c1 := mkClause "allow" [["party"; "*"]] [["Org"; "*"]] in
  let c2 := mkClause "deny" [["party"; "delete"]] [["Org"; "*"]] in
  let p := mkPolicy "2015-12-10" [c1; c2] 2 2 in
  Policy_getitem p (-1) = Ok c2
  /\ Policy_getitem p (-2) = Ok c1
  /\ Policy_getitem p (-3) = Raise IndexError
  /\ Policy_getitem p 2 = Raise IndexError.
Proof.
  intros c1 c2 p.
  destruct (policy_getitem_bounds p (-1)) as (_ & H1 & _).
  destruct (policy_getitem_bounds p (-2)) as (_ & H2 & _).
  destruct (policy_getitem_bounds p (-3)) as (_ & _ & H3).
  destruct (policy_getitem_bounds p 2) as (_ & _ & H4).
  split; [|split; [|split]].
  - destruct H1 as (c & Hc & ->); [simpl; lia|].
    simpl in Hc. injection Hc as <-. reflexivity.
  - destruct H2 as (c & Hc & ->); [simpl; lia|].
    simpl in Hc. injection Hc as <-. reflexivity.
  - apply H3. simpl. lia.
  - apply H4. simpl. lia.
Defined.

(** ** The objects the manager returns *)

Lemma get_instance_get db n c :
  match Instances.get_instance db n c with
  | Models.Done o =>
      Models.get db c = Models.Done c
      /\ Instances.pk o = c /\ Instances.serial o = n
  | Models.DoesNotExist => Models.get db c = Models.DoesNotExist
  | Models.EngineError _ => False
  end.
Proof.
  unfold Instances.get_instance, Models.get.
  destruct (List.find _ _) as [r|] eqn:Hf.
  - apply find_some in Hf as [Hin Hr]. pose proof Hr as Hc.
    apply bool_decide_eq_true in Hc. cbn [Instances.pk Instances.serial].
    assert (existsb (fun r => bool_decide (Models.pset_id r = c))
                    (Models.permission_sets db) = true) as ->.
    { apply existsb_exists. eauto. }
    auto.
  - assert (existsb (fun r => bool_decide (Models.pset_id r = c))
                    (Models.permission_sets db) = false) as ->;
      [|reflexivity].
    apply not_true_is_false. intros H.
    apply existsb_exists in H as (r & Hin & Hr).
    rewrite (find_none _ _ Hf r Hin) in Hr. discriminate.
Qed.

(** Forgetting the objects, the search with objects is the search. *)
Lemma search_instances_key db cps cands : forall n,
  Instances.found_key (Instances.search_instances db cps cands n)
  = Models.search db cps cands.
Proof.
  induction cands as [|c cands IH]; intros n; [reflexivity|].
  cbn [Instances.search_instances Models.search].
  pose proof (get_instance_get db n c) as Hg.
  destruct (Instances.get_instance db n c) as [o| |];
    [|rewrite Hg; reflexivity|contradiction].
  destruct Hg as (Hget & Hpk & _). rewrite Hget, Hpk.
  destruct (Models.same_rows (Models.filter_pset db c) cps);
    [cbn; rewrite Hpk; reflexivity|apply IH].
Qed.

(** The object returned by the search was constructed during it. *)
Lemma search_instances_serial db cps cands : forall n found n1,
  Instances.search_instances db cps cands n = Models.Done (found, n1) ->
  n <= n1
  /\ forall o, found = Some o -> n <= Instances.serial o < n1.
Proof.
  induction cands as [|c cands IH]; intros n found n1;
    cbn [Instances.search_instances].
  - intros [= <- <-]. split; [lia|discriminate].
  - pose proof (get_instance_get db n c) as Hg.
    destruct (Instances.get_instance db n c) as [o| |]; try discriminate.
    destruct Hg as (_ & _ & Hs).
    destruct (Models.same_rows (Models.filter_pset db (Instances.pk o)) cps).
    + intros [= <- <-]. split; [lia|]. intros o' [= <-]. lia.
    + intros H. apply IH in H as [Hle Hb]. split; [lia|].
      intros o' Ho'. specialize (Hb o' Ho'). lia.
Qed.

Section Returned.
Context {V : Type} (json_dumps : V -> string).
Context (build_tree : list (Models.PolicyArg V) -> result string).

(** Forgetting the object, the manager with objects is the manager. *)
Lemma by_policies_instance_key db n ps :
  Instances.returned_key
    (Instances.by_policies_instance json_dumps build_tree db n ps)
  = Models.by_policies json_dumps build_tree db ps.
Proof.
  unfold Instances.by_policies_instance, Models.by_policies.
  rewrite <- (search_instances_key db _ _ n).
  destruct (Instances.search_instances db
              (map (Models.canonpol json_dumps) ps)
              (Models.policy_psets db (map (Models.canonpol json_dumps) ps)) n)
    as [[[o|] n1]| |]; cbn; try reflexivity.
  destruct (build_tree ps); reflexivity.
Qed.

Lemma by_policies_instance_Done db n ps o db1 n1 :
  Instances.by_policies_instance json_dumps build_tree db n ps
  = Models.Done (o, db1, n1) ->
  Models.by_policies json_dumps build_tree db ps
  = Models.Done (Instances.pk o, db1)
  /\ n <= Instances.serial o < n1.
Proof.
  intros H. split.
  - rewrite <- (by_policies_instance_key db n ps), H. reflexivity.
  - unfold Instances.by_policies_instance in H.
    destruct (Instances.search_instances db
                (map (Models.canonpol json_dumps) ps)
                (Models.policy_psets db (map (Models.canonpol json_dumps) ps))
                n) as [[[o'|] n']| |] eqn:Hs; try discriminate.
    + injection H as <- <- <-.
      apply search_instances_serial in Hs as [_ Hb]. apply Hb. reflexivity.
    + destruct (build_tree ps); [|discriminate]. injection H as <- <- <-.
      apply search_instances_serial in Hs as [Hle _].
      cbn [Instances.serial]. lia.
Qed.

Lemma by_policies_instance_exists db n ps x db1 :
  Models.by_policies json_dumps build_tree db ps = Models.Done (x, db1) ->
  exists o n1,
    Instances.by_policies_instance json_dumps build_tree db n ps
    = Models.Done (o, db1, n1)
    /\ Instances.pk o = x.
Proof.
  intros H. rewrite <- (by_policies_instance_key db n ps) in H.
  destruct (Instances.by_policies_instance json_dumps build_tree db n ps)
    as [[[o db'] n1]| |]; try discriminate.
  injection H as <- <-. eauto.
Qed.

End Returned.

(** C8, as stated, fails: two calls with the same list return two
    objects, the second one fetched anew from the stored row; they have
    the same primary key and are not the same object. *)
Lemma by_policies_returns_another_object :
  let P1 := Models.mkPolicyRow 1 "first" "{}" in
  let P2 := Models.mkPolicyRow 2 "second" "{}" in
  let dumps := fun v : string => v in
  let build := fun _ : list (Models.PolicyArg string) => Ok "tree" in
  let ps := [Models.Bare P1; Models.WithVars P2 "{x: 1}"] in
  let db1 :=
    Models.mkDB [Models.mkPermissionSetRow 1 "tree"]
                [Models.mkPolicyInstance 1 1 0 "{}";
                 Models.mkPolicyInstance 2 1 1 "{x: 1}"] 2 in
  let a := Instances.mkInstance 0 1 "tree" true in
  let b := Instances.mkInstance 1 1 "tree" false in
  Instances.by_policies_instance dumps build Models.empty_db 0 ps
  = Models.Done (a, db1, 1)
  /\ Instances.by_policies_instance dumps build db1 1 ps
     = Models.Done (b, db1, 2)
  /\ Instances.serial a <> Instances.serial b
  /\ ~ (forall (db db' db'' : Models.DB) (n n' n'' : nat)
               (l : list (Models.PolicyArg string)) (o o' : Instances.Instance),
          Instances.by_policies_instance dumps build db n l
          = Models.Done (o, db', n') ->
          Instances.by_policies_instance dumps build db' n' l
          = Models.Done (o', db'', n'') ->
          Instances.serial o' = Instances.serial o).
Proof.
  intros P1 P2 dumps build ps db1 a b.
  assert (H1 : Instances.by_policies_instance dumps build Models.empty_db 0 ps
               = Models.Done (a, db1, 1)) by (vm_compute; reflexivity).
  assert (H2 : Instances.by_policies_instance dumps build db1 1 ps
               = Models.Done (b, db1, 2)) by (vm_compute; reflexivity).
  split; [exact H1|]. split; [exact H2|]. split; [discriminate|].
  intros H. specialize (H _ _ _ _ _ _ _ _ _ H1 H2). discriminate.
Qed.

(** C8 (as amended).  The manager folds identical inputs by primary
    key.  In a well-formed database, once a call has returned an object
    for a list of (policy, variables) arguments, a call with the same
    list, or with any list of the same canonical form (same length and,
    at every position, the same policy and the same serialised
    variables), returns an object with the same primary key, that is
    for the same stored permission set, and creates nothing; the object
    itself is a new one.  A call with a list whose canonical form
    differs, in length, in the policy at some position or in the
    serialised variables at some position, returns an object with a
    different primary key. *)
Theorem by_policies_folds_by_key :
  forall (V : Type) (json_dumps : V -> string)
         (build_tree : list (Models.PolicyArg V) -> result string)
         (db db1 : Models.DB) (n n1 : nat)
         (ps1 ps2 : list (Models.PolicyArg V)) (o1 : Instances.Instance),
    Models.well_formed db = true ->
    Instances.by_policies_instance json_dumps build_tree db n ps1
    = Models.Done (o1, db1, n1) ->
    (exists o n2,
       Instances.by_policies_instance json_dumps build_tree db1 n1 ps1
       = Models.Done (o, db1, n2)
       /\ Instances.pk o = Instances.pk o1
       /\ Instances.serial o <> Instances.serial o1)
    /\ (map (Models.canonpol json_dumps) ps1
        = map (Models.canonpol json_dumps) ps2 ->
        exists o2 n2,
          Instances.by_policies_instance json_dumps build_tree db1 n1 ps2
          = Models.Done (o2, db1, n2)
          /\ Instances.pk o2 = Instances.pk o1
          /\ Instances.serial o2 <> Instances.serial o1)
    /\ (map (Models.canonpol json_dumps) ps1
        <> map (Models.canonpol json_dumps) ps2 ->
        forall o2 db2 n2,
          Instances.by_policies_instance json_dumps build_tree db1 n1 ps2
          = Models.Done (o2, db2, n2) ->
          Instances.pk o2 <> Instances.pk o1).
Proof.
  intros V json_dumps build_tree db db1 n n1 ps1 ps2 o1 Hwf H1.
  destruct (by_policies_instance_Done _ _ _ _ _ _ _ _ H1) as [Hk1 Hb1].
  destruct (by_policies_folds V json_dumps build_tree db db1 ps1 ps2
              (Instances.pk o1) Hwf Hk1) as (Hagain & Hsame & Hdiff).
  assert (Hhit : forall ps,
             Models.by_policies json_dumps build_tree db1 ps
             = Models.Done (Instances.pk o1, db1) ->
             exists o2 n2,
               Instances.by_policies_instance json_dumps build_tree db1 n1 ps
               = Models.Done (o2, db1, n2)
               /\ Instances.pk o2 = Instances.pk o1
               /\ Instances.serial o2 <> Instances.serial o1).
  { intros ps Hps.
    destruct (by_policies_instance_exists json_dumps build_tree db1 n1 ps
                _ _ Hps) as (o2 & n2 & H2 & Hpk).
    exists o2, n2. split; [exact H2|]. split; [exact Hpk|].
    destruct (by_policies_instance_Done _ _ _ _ _ _ _ _ H2) as [_ Hb2]. lia. }
  split; [apply Hhit, Hagain|]. split.
  - intros E. apply Hhit, Hsame, E.
  - intros Hne o2 db2 n2 H2.
    destruct (by_policies_instance_Done _ _ _ _ _ _ _ _ H2) as [Hk2 _].
    exact (Hdiff Hne _ _ Hk2).
Qed.

Lemma by_policies_folds_by_key_witness :
  let P1 := Models.mkPolicyRow 1 "first" "{}" in
  let P2 := Models.mkPolicyRow 2 "second" "{}" in
  let dumps := fun v : string => v in
  let build := fun _ : list (Models.PolicyArg string) => Ok "tree" in
  let ps1 := [Models.Bare P1; Models.WithVars P2 "{x: 1}"] in
  let ps2 := [Models.WithVars P2 "{x: 1}"; Models.Bare P1] in
  let db1 :=
    Models.mkDB [Models.mkPermissionSetRow 1 "tree"]
                [Models.mkPolicyInstance 1 1 0 "{}";
                 Models.mkPolicyInstance 2 1 1 "{x: 1}"] 2 in
  let a := Instances.mkInstance 0 1 "tree" true in
  Models.well_formed Models.empty_db = true
  /\ Instances.by_policies_instance dumps build Models.empty_db 0 ps1
     = Models.Done (a, db1, 1)
  /\ (exists o n2,
        Instances.by_policies_instance dumps build db1 1 ps1
        = Models.Done (o, db1, n2)
        /\ Instances.pk o = 1 /\ Instances.serial o <> 0)
  /\ forall o2 db2 n2,
       Instances.by_policies_instance dumps build db1 1 ps2
       = Models.Done (o2, db2, n2) ->
       Instances.pk o2 <> 1.
Proof.
  intros P1 P2 dumps build ps1 ps2 db1 a.
  assert (Hwf : Models.well_formed Models.empty_db = true) by reflexivity.
  assert (H1 : Instances.by_policies_instance dumps build Models.empty_db 0 ps1
               = Models.Done (a, db1, 1)) by (vm_compute; reflexivity).
  destruct (by_policies_folds_by_key string dumps build Models.empty_db db1
              0 1 ps1 ps2 a Hwf H1) as (Ha & _ & Hc).
  split; [exact Hwf|]. split; [exact H1|]. split; [exact Ha|].
  apply Hc. vm_compute. discriminate.
Defined.
